(** * Route alternatives screen (src/app/index.tsx): a shallow embedding

    The screen asks an OSRM server for up to five distinct routes between
    two points, marks the fastest one as primary, layers the polylines,
    drops a marker every 100 m on the selected route and asks a text
    model for a recommendation.

    Conventions of the embedding.
    - A JavaScript [number] is a rational ([Q]); [NaN] and the infinities
      are not represented.  Arithmetic is exact, except where a property
      turns on the rounding of binary64: there an operation is followed
      by [fl], which rounds as binary64 does (distances as text, the via
      points in binary64), and a number read from text is rounded to
      binary64, with [Infinity] ([Number]).  Equality of numbers is
      [Qeq]; indices and counters are [Z] or [nat].
    - Text that the program only builds and compares is a [string] (its
      bytes are the UTF-8 encoding of the source literal).  Text that is
      searched with a regular expression is a list of UTF-16 code units
      ([jsstring]), which is what the expression sees.
    - React state is a record; every setter is a record update and the
      last write wins.  Network answers are given by an environment. *)

From Stdlib Require Import QArith ZArith Qround Qabs Qminmax Qpower DecimalString Lqa.
From Stdlib Require DecimalPos DecimalZ.
From stdpp Require Import gmap strings list sorting.

Local Open Scope Z_scope.

(** ** Numbers *)

Definition num := Q.
Bind Scope Q_scope with num.

(** [Math.round]: nearest integer, a tie goes up. *)
Definition Math_round (x : num) : Z := Qfloor (x + (1 # 2))%Q.

(** Decimal rendering of an integer, as a template literal prints it. *)
Definition string_of_Z (z : Z) : string := NilZero.string_of_int (Z.to_int z).

Definition string_of_nat (n : nat) : string := string_of_Z (Z.of_nat n).

(** ** Types *)

Record Coord := mkCoord { lat : num; lon : num }.
Record XY := mkXY { latitude : num; longitude : num }.

Inductive StatusKey := idle | loadingKey | ok | error.

Record Maneuver := mkManeuver {
  location : num * num;
  mtype : string;
  modifier : option string }.

Record OSRMStep := mkStep {
  step_distance : num;
  step_duration : num;
  step_name : string;
  maneuver : Maneuver }.

Record OSRMLeg := mkLeg { steps : list OSRMStep }.

Record OSRMRoute := mkRoute {
  coordinates : list (num * num);
  distance : num;
  duration : num;
  legs : list OSRMLeg }.

Record OSRMResponse := mkResponse {
  code : string;
  resp_routes : option (list OSRMRoute);
  message : option string }.

Record Waypoint := mkWaypoint {
  wp_location : option (num * num);
  wp_hint : option string }.

Record NearestResp := mkNearest { waypoints : option (list Waypoint) }.

Record TurnNode := mkTurnNode {
  tn_id : string;
  tn_coordinate : XY;
  street : string;
  maneuverType : string;
  tn_modifier : option string;
  stepDistance : num;
  stepDuration : num;
  routeIndex : Z }.

Record RouteView := mkRouteView {
  rv_id : string;
  index : Z;
  coords : list XY;
  rv_distance : num;
  rv_duration : num;
  color : string;
  isPrimary : bool;
  turnNodes : list TurnNode }.

Record RouteMarker := mkMarker {
  m_id : string;
  coordinate : XY;
  coveredDistance : num;
  remainDistance : num;
  remainDuration : num }.

(** ** Utils *)

Definition toXY (c : num * num) : XY := mkXY (snd c) (fst c).

Definition COLORS : list string :=
  ["#0A84FF"; "#32D74B"; "#FF9F0A"; "#5E5CE6"; "#64D2FF"].

(** [Array.prototype.sort] with a comparator: a stable sort.  An element
    moves behind another one only when the comparator is positive. *)
Section Sort.
Context {A : Type} (cmp : A -> A -> num).

Fixpoint sort_insert (x : A) (l : list A) : list A :=
  match l with
  | [] => [x]
  | y :: ys => if Qlt_le_dec 0 (cmp x y) then y :: sort_insert x ys
               else x :: y :: ys
  end.

Definition js_sort (l : list A) : list A := foldr sort_insert [] l.
End Sort.

(** The comparator of a sort by a numeric key, [(a, b) => key(a) - key(b)],
    and the order it brings about. *)
Definition byKey {A : Type} (key : A -> num) (a b : A) : num := (key a - key b)%Q.

Definition keyLe {A : Type} (key : A -> num) (a b : A) : Prop :=
  (key a <= key b)%Q.

(** ** Screen state *)

Record UI := mkUI {
  routes : list RouteView;
  selectedRoute : Z;
  showAllRoutes : bool;
  loading : bool;
  statusKey : StatusKey;
  statusText : string;
  errorText : option string;
  alerts : list (string * string) }.

Definition setRoutes (v : list RouteView) (s : UI) : UI :=
  mkUI v (selectedRoute s) (showAllRoutes s) (loading s) (statusKey s)
       (statusText s) (errorText s) (alerts s).
Definition setSelectedRoute (v : Z) (s : UI) : UI :=
  mkUI (routes s) v (showAllRoutes s) (loading s) (statusKey s)
       (statusText s) (errorText s) (alerts s).
Definition setShowAllRoutes (f : bool -> bool) (s : UI) : UI :=
  mkUI (routes s) (selectedRoute s) (f (showAllRoutes s)) (loading s)
       (statusKey s) (statusText s) (errorText s) (alerts s).
Definition setLoading (v : bool) (s : UI) : UI :=
  mkUI (routes s) (selectedRoute s) (showAllRoutes s) v (statusKey s)
       (statusText s) (errorText s) (alerts s).
Definition setStatusKey (v : StatusKey) (s : UI) : UI :=
  mkUI (routes s) (selectedRoute s) (showAllRoutes s) (loading s) v
       (statusText s) (errorText s) (alerts s).
Definition setStatusText (v : string) (s : UI) : UI :=
  mkUI (routes s) (selectedRoute s) (showAllRoutes s) (loading s)
       (statusKey s) v (errorText s) (alerts s).
Definition setErrorText (v : option string) (s : UI) : UI :=
  mkUI (routes s) (selectedRoute s) (showAllRoutes s) (loading s)
       (statusKey s) (statusText s) v (alerts s).
Definition Alert_alert (title msg : string) (s : UI) : UI :=
  mkUI (routes s) (selectedRoute s) (showAllRoutes s) (loading s)
       (statusKey s) (statusText s) (errorText s) (alerts s ++ [(title, msg)]).

(** The state of a freshly mounted screen. *)
Definition initialUI : UI :=
  mkUI [] 0 true false idle "Готов к построению" None [].

(** ** Selection *)

Definition selectRouteOnly (idx : Z) (s : UI) : UI :=
  setStatusText ("Выбран маршрут #" +:+ string_of_Z (idx + 1))
    (setShowAllRoutes (fun _ => false) (setSelectedRoute idx s)).

(** The handler of the "all routes" button. *)
Definition toggleShowAll (s : UI) : UI := setShowAllRoutes negb s.

(** ** Appearance and layers *)

Record Appearance := mkAppearance {
  mainColor : string;
  mainWidth : Z;
  outlineColor : string;
  outlineWidth : Z;
  shouldShow : bool;
  z : Z }.

Definition getRouteAppearance (showAll : bool) (selected : Z) (r : RouteView)
  : Appearance :=
  let isOpt := isPrimary r in
  let isSel := Z.eqb (index r) selected in
  let shouldShow := if showAll then true else isSel in
  let mainColor := if isSel then color r else if isOpt then color r
                   else "rgba(255,255,255,0.45)" in
  let mainWidth := if isSel then 12 else if isOpt then 10 else 6 in
  let outlineColor := if isSel then "rgba(255,255,255,0.98)"
                      else if isOpt then "rgba(255,255,255,0.9)"
                      else "rgba(255,255,255,0.35)" in
  let outlineWidth := mainWidth + 4 in
  let z0 := 0 in
  let z1 :=
    if showAll then
      let za := if isSel && negb isOpt then 1 else z0 in
      if isOpt then 2 else za
    else 2 in
  mkAppearance mainColor mainWidth outlineColor outlineWidth shouldShow z1.

(** The key [routesSorted] sorts by (drawing goes from low to high). *)
Definition sortKey (showAll : bool) (selected : Z) (a : RouteView) : Z :=
  if showAll
  then (if isPrimary a then 2 else if Z.eqb (index a) selected then 1 else 0)
  else (if Z.eqb (index a) selected then 2 else 0).

Definition routesSorted (s : UI) : list RouteView :=
  js_sort (fun a b => inject_Z (sortKey (showAllRoutes s) (selectedRoute s) a
                                - sortKey (showAllRoutes s) (selectedRoute s) b))
          (routes s).

Definition visibleRoutes (s : UI) : list RouteView :=
  if showAllRoutes s then routesSorted s
  else filter (fun r => index r = selectedRoute s) (routesSorted s).

(** ** Route signatures *)

(** [x.toFixed(3)]: the sign, then the nearest multiple of 1/1000 of the
    magnitude (a tie goes up), printed with three decimals.  Magnitudes of
    1e21 and more, which print in exponent form, do not occur among
    coordinates. *)
Definition pad3 (n : Z) : string :=
  let s := string_of_Z n in
  match String.length s with
  | 1%nat => "00" +:+ s
  | 2%nat => "0" +:+ s
  | _ => s
  end.

Definition toFixed3 (x : num) : string :=
  let n := Qfloor (Qabs x * 1000 + (1 # 2))%Q in
  (if Qlt_le_dec x 0 then "-" else "")
    +:+ string_of_Z (n / 1000) +:+ "." +:+ pad3 (n mod 1000).

(** [p?.[i].toFixed(3)] inside a template literal. *)
Definition fixedOrUndefined (p : option num) : string :=
  match p with
  | Some x => toFixed3 x
  | None => "undefined"
  end.

Definition sigForRoute (r : OSRMRoute) : string :=
  let first := head (coordinates r) in
  let last := last (coordinates r) in
  let len := length (coordinates r) in
  string_of_Z (Math_round (distance r)) +:+ "|"
    +:+ string_of_Z (Math_round (duration r)) +:+ "|"
    +:+ fixedOrUndefined (fst <$> first) +:+ ","
    +:+ fixedOrUndefined (snd <$> first) +:+ "|"
    +:+ fixedOrUndefined (fst <$> last) +:+ ","
    +:+ fixedOrUndefined (snd <$> last) +:+ "|"
    +:+ string_of_nat len.

(** ** Markers every [spacing] metres *)

Global Instance XY_inhabited : Inhabited XY := populate (mkXY 0%Q 0%Q).
Global Instance num_inhabited : Inhabited num := populate 0%Q.

Section Sampler.
(** The great-circle distance of two points in metres.  [haversine] is
    built from [Math.sin], [Math.cos], [Math.asin] and [Math.sqrt]; the
    sampler only adds its values up and compares them, so it is kept
    abstract here. *)
Variable haversine : XY -> XY -> num.

(** [cum] after the first loop: [cum[0] = 0], [cum[i]] is the length of
    the path up to vertex [i]. *)
Fixpoint cumulative (acc : num) (prev : XY) (rest : list XY) : list num :=
  match rest with
  | [] => []
  | p :: ps => let acc' := (acc + haversine prev p)%Q in
               acc' :: cumulative acc' p ps
  end.

Definition cumOf (poly : list XY) : list num :=
  match poly with
  | [] => []
  | p0 :: ps => 0%Q :: cumulative 0 p0 ps
  end.

Definition totalOf (poly : list XY) : num := default 0%Q (last (cumOf poly)).

(** [while (idx < poly.length && cum[idx] < target) idx++], run on the
    part of [cum] from [idx] on. *)
Fixpoint skipBelow (target : num) (rest : list num) (idx : nat) : nat :=
  match rest with
  | [] => idx
  | c :: cs => if Qlt_le_dec c target then skipBelow target cs (S idx)
               else idx
  end.

Definition advance (cum : list num) (target : num) (idx : nat) : nat :=
  skipBelow target (drop idx cum) idx.

Definition markerAt (poly : list XY) (cum : list num) (total target : num)
    (idx outLen : nat) : RouteMarker :=
  let prev := poly !!! (idx - 1)%nat in
  let next := poly !!! idx in
  let segLen := (cum !!! idx - cum !!! (idx - 1)%nat)%Q in
  let remainInSeg := (target - cum !!! (idx - 1)%nat)%Q in
  let t := if Qlt_le_dec 0 segLen then (remainInSeg / segLen)%Q else 0%Q in
  let lat := (latitude prev + (latitude next - latitude prev) * t)%Q in
  let lon := (longitude prev + (longitude next - longitude prev) * t)%Q in
  mkMarker ("m-" +:+ string_of_nat outLen +:+ "-" +:+ string_of_nat idx)
           (mkXY lat lon) target (total - target)%Q 0%Q.

(** The outer [while].  Every turn that does not leave the loop pushes
    one marker and the loop stops at [maxCount] markers, so [maxCount]
    turns are all it can take: [fuel] counts them down. *)
Fixpoint sampleLoop (fuel : nat) (poly : list XY) (cum : list num)
    (total spacing : num) (maxCount : nat)
    (target : num) (idx : nat) (out : list RouteMarker) : list RouteMarker :=
  match fuel with
  | O => out
  | S fuel' =>
      if Qlt_le_dec target total then
        if (length out <? maxCount)%nat then
          let idx' := advance cum target idx in
          if (length poly <=? idx')%nat then out
          else sampleLoop fuel' poly cum total spacing maxCount
                 (target + spacing)%Q idx'
                 (out ++ [markerAt poly cum total target idx' (length out)])
        else out
      else out
  end.

Definition sampleEveryMeters (poly : list XY) (spacing : num) (maxCount : nat)
  : list RouteMarker :=
  match poly with
  | [] => []
  | _ =>
      let cum := cumOf poly in
      let total := totalOf poly in
      if Qeq_dec total 0 then []
      else sampleLoop maxCount poly cum total spacing maxCount spacing 1 []
  end.

(** The call of the screen: spacing 100 and at most 400 markers. *)
Definition sampleDefault (poly : list XY) : list RouteMarker :=
  sampleEveryMeters poly 100 400.
End Sampler.

(** ** Candidate routes to views *)

Definition truthy (s : string) : bool := negb (String.eqb s "").

Definition buildInstruction (s : OSRMStep) : string :=
  let t := mtype (maneuver s) in
  let m := match modifier (maneuver s) with
           | Some md => if truthy md then ", " +:+ md else ""
           | None => ""
           end in
  if String.eqb t "arrive" then "Прибытие"
  else if String.eqb t "depart" then "Начало движения"
  else if String.eqb t "turn" then "Поворот" +:+ m
  else if String.eqb t "continue" then "Двигайтесь прямо" +:+ m
  else if String.eqb t "merge" then "Перестроение" +:+ m
  else if String.eqb t "fork" then "Развилка" +:+ m
  else if String.eqb t "roundabout" || String.eqb t "rotary"
       then "Кольцевое движение"
  else if String.eqb t "end of road" then "Конец дороги" +:+ m
  else t +:+ m.

(** [list.map((r, i) => ({i, d})).sort((a, b) => a.d - b.d)[0]?.i ?? 0] *)
Definition bestIdxOf (candidates : list OSRMRoute) : nat :=
  default 0%nat
    (fst <$> head (js_sort (fun a b : nat * num => (snd a - snd b)%Q)
                           (imap (fun i r => (i, duration r)) candidates))).

Definition turnNodesOf (idx : nat) (r : OSRMRoute) : list TurnNode :=
  concat (imap (fun legIndex leg =>
    imap (fun stepIndex s =>
      mkTurnNode
        ("r" +:+ string_of_nat idx +:+ "-l" +:+ string_of_nat legIndex
             +:+ "-s" +:+ string_of_nat stepIndex)
        (toXY (location (maneuver s)))
        (if truthy (step_name s) then step_name s else "Без названия")
        (buildInstruction s)
        (modifier (maneuver s))
        (step_distance s)
        (step_duration s)
        (Z.of_nat idx)) (steps leg)) (legs r)).

Definition viewOf (bestIdx : nat) (idx : nat) (r : OSRMRoute) : RouteView :=
  mkRouteView
    ("route-" +:+ string_of_nat idx)
    (Z.of_nat idx)
    (toXY <$> coordinates r)
    (distance r)
    (duration r)
    (COLORS !!! (idx mod length COLORS)%nat)
    (Nat.eqb idx bestIdx)
    (turnNodesOf idx r).

Definition mapToViews (candidates : list OSRMRoute) : list RouteView * nat :=
  let bestIdx := bestIdxOf candidates in
  let mapped := imap (viewOf bestIdx) (take 5 candidates) in
  (mapped, bestIdx).

(** ** Via points *)

(** In exact arithmetic; [makeViaCandidates64] below rounds as the code
    does, and on the globe the two are no more than 10^-12 apart. *)
Definition makeViaCandidates (a b : Coord) : list Coord :=
  let midLat := ((lat a + lat b) / 2)%Q in
  let midLon := ((lon a + lon b) / 2)%Q in
  let latSpan := Qmax 0.005 (Qabs (lat a - lat b)) in
  let lonSpan := Qmax 0.005 (Qabs (lon a - lon b)) in
  let dLat := Qmin 0.03 (latSpan * 0.6) in
  let dLon := Qmin 0.03 (lonSpan * 0.6) in
  [ mkCoord (midLat + dLat) midLon;
    mkCoord (midLat - dLat) midLon;
    mkCoord midLat (midLon + dLon);
    mkCoord midLat (midLon - dLon);
    mkCoord (midLat + dLat) (midLon + dLon);
    mkCoord (midLat - dLat) (midLon + dLon);
    mkCoord (midLat + dLat) (midLon - dLon);
    mkCoord (midLat - dLat) (midLon - dLon);
    mkCoord (midLat + dLat * 1.5) midLon;
    mkCoord midLat (midLon + dLon * 1.5);
    mkCoord (midLat - dLat * 1.5) midLon;
    mkCoord midLat (midLon - dLon * 1.5) ]%Q.

(** ** The network *)

(** What awaiting [res.json()] gives: it throws or yields a value. *)
Inductive Body (T : Type) :=
| Unparsable (msg : option string)
| Parsed (v : T).
Arguments Unparsable {T} msg.
Arguments Parsed {T} v.

(** What awaiting a fetch gives: it throws (time-out, no network), or a
    response with a status arrives. *)
Inductive Fetched (T : Type) :=
| Rejected (msg : option string)
| Answer (status : Z) (body : Body T).
Arguments Rejected {T} msg.
Arguments Answer {T} status body.

Definition res_ok (status : Z) : bool := (200 <=? status) && (status <=? 299).

(** A route request: what [makeRouteUrl] encodes in the address (the
    other query parameters are constant). *)
Record RouteRequest := mkRequest {
  req_coords : list Coord;
  req_alternatives : bool;
  req_hints : option (list string) }.

Definition makeRouteUrl (coords : list Coord)
    (hints : option (list (option string))) (wantAlternatives : bool)
  : RouteRequest :=
  mkRequest coords wantAlternatives
    (match hints with
     | Some hs =>
         if (length hs =? length coords)%nat
            && forallb (fun h => match h with
                                 | Some s => truthy s
                                 | None => false
                                 end) hs
         then Some (omap id hs)
         else None
     | None => None
     end).

(** The servers.  The route server is asked several times in one fetch;
    its answer may depend on which request of the fetch it is (0 for the
    request with alternatives, then one number per via point). *)
Record Env := mkEnv {
  nearest : Coord -> Fetched NearestResp;
  route : nat -> RouteRequest -> Fetched OSRMResponse }.

Record Snapped := mkSnapped { coord : Coord; hint : option string }.

Definition nearestHint (env : Env) (c : Coord) : Snapped :=
  match nearest env c with
  | Rejected _ => mkSnapped c None
  | Answer status body =>
      if negb (res_ok status) then mkSnapped c None
      else match body with
           | Unparsable _ => mkSnapped c None
           | Parsed data =>
               match waypoints data with
               | Some (wp :: _) =>
                   match wp_location wp with
                   | Some (lon', lat') => mkSnapped (mkCoord lat' lon') (wp_hint wp)
                   | None => mkSnapped c None
                   end
               | _ => mkSnapped c None
               end
           end
  end.

(** ** Up to five distinct routes *)

Definition LIMIT : nat := 5.

(** The [try] block of the first request: the message of what it throws,
    or the routes its loop goes through. *)
Definition stage1Result (f : Fetched OSRMResponse) : string + list OSRMRoute :=
  match f with
  | Rejected m => inl (default "Ошибка OSRM" m)
  | Answer status body =>
      if status =? 429
      then inl "Демо-сервер перегружен (429). Повторите позже."
      else if status =? 400
      then inl "Неверный запрос (400). Поставьте точки ближе к дороге."
      else if negb (res_ok status)
      then inl ("Сервер ответил " +:+ string_of_Z status)
      else match body with
           | Unparsable m => inl (default "Ошибка OSRM" m)
           | Parsed data =>
               if String.eqb (code data) "Ok"
               then inr (default [] (resp_routes data))
               else inr []
           end
  end.

(** [for (const r of data.routes)] with its [break]. *)
Fixpoint stage1Loop (rs : list OSRMRoute) (out : list OSRMRoute)
    (seen : gset string) : list OSRMRoute * gset string :=
  match rs with
  | [] => (out, seen)
  | r :: rs' =>
      let k := sigForRoute r in
      if decide (k ∈ seen) then stage1Loop rs' out seen
      else
        let seen' := seen ∪ {[ k ]} in
        let out' := out ++ [r] in
        if (LIMIT <=? length out')%nat then (out', seen')
        else stage1Loop rs' out' seen'
  end.

(** The first route of a via answer, when the request went through. *)
Definition viaRoute (f : Fetched OSRMResponse) : option OSRMRoute :=
  match f with
  | Rejected _ => None
  | Answer status body =>
      if negb (res_ok status) then None
      else match body with
           | Unparsable _ => None
           | Parsed data =>
               if negb (String.eqb (code data) "Ok") then None
               else head (default [] (resp_routes data))
           end
  end.

(** [for (const via of vias)]; [callno] numbers the requests. *)
Fixpoint viaLoop (env : Env) (a b : Coord) (callno : nat) (vias : list Coord)
    (out : list OSRMRoute) (seen : gset string)
  : list OSRMRoute * gset string :=
  match vias with
  | [] => (out, seen)
  | via :: rest =>
      if (LIMIT <=? length out)%nat then (out, seen)
      else
        match viaRoute (route env callno (makeRouteUrl [a; via; b] None false)) with
        | None => viaLoop env a b (S callno) rest out seen
        | Some r =>
            let k := sigForRoute r in
            if decide (k ∈ seen) then viaLoop env a b (S callno) rest out seen
            else viaLoop env a b (S callno) rest (out ++ [r]) (seen ∪ {[ k ]})
        end
  end.

Definition farEndpoints (a b : Coord) : Coord * Coord :=
  (mkCoord (lat a + 0.01) (lon a + 0.01), mkCoord (lat b - 0.01) (lon b - 0.01)).

Definition fetchFiveRoutes (env : Env) (A0 B0 : Coord) (ui : UI)
  : list OSRMRoute * UI :=
  let ui := setStatusKey loadingKey (setStatusText "Запрашиваем альтернативы…" ui) in
  let aH := nearestHint env A0 in
  let bH := nearestHint env B0 in
  let '(out, seen, ui) :=
    match stage1Result
            (route env 0 (makeRouteUrl [coord aH; coord bH]
                                       (Some [hint aH; hint bH]) true)) with
    | inl msg => ([], ∅, setErrorText (Some msg) ui)
    | inr rs => (stage1Loop rs [] ∅, ui)
    end in
  if (LIMIT <=? length out)%nat then (take LIMIT out, ui)
  else
    let vias := makeViaCandidates (coord aH) (coord bH) in
    let '(out, seen) := viaLoop env (coord aH) (coord bH) 1 vias out seen in
    let '(out, seen) :=
      if (length out <? LIMIT)%nat then
        let farVias := makeViaCandidates (fst (farEndpoints (coord aH) (coord bH)))
                                         (snd (farEndpoints (coord aH) (coord bH))) in
        viaLoop env (coord aH) (coord bH) (1 + length vias) farVias out seen
      else (out, seen) in
    (take LIMIT out, ui).

Definition noRouteMessage : string :=
  "OSRM не смог построить маршрут. Попробуйте ближе к дороге.".

(** The press of the build button, with the points [A] and [B] of the
    state as arguments. *)
Definition fetchRoutes (env : Env) (A B : option Coord) (ui : UI) : UI :=
  match A, B with
  | Some a, Some b =>
      let ui := setRoutes []
                  (setStatusKey loadingKey
                     (setStatusText "Строим до 5 вариантов…"
                        (setErrorText None (setLoading true ui)))) in
      let '(got, ui) := fetchFiveRoutes env a b ui in
      let ui :=
        match got with
        | [] =>
            let msg := noRouteMessage in
            Alert_alert "OSRM" msg
              (setStatusKey error
                 (setStatusText "Ошибка" (setErrorText (Some msg) ui)))
        | _ =>
            let '(mapped, bestIdx) := mapToViews got in
            setStatusKey ok
              (setStatusText ("Готово: маршрутов " +:+ string_of_nat (length mapped))
                 (setShowAllRoutes (fun _ => true)
                    (setSelectedRoute (Z.of_nat bestIdx) (setRoutes mapped ui))))
        end in
      setLoading false ui
  | _, _ => Alert_alert "Маршрут" "Сначала выберите точки A и B." ui
  end.

(** ** Text searched by regular expressions *)

(** A JavaScript string as the regular expressions see it: UTF-16 code
    units. *)
Definition jsstring := list N.

(** The code units of a literal of the source (its UTF-8 bytes decoded;
    the literals used here stay within the basic plane). *)
Fixpoint utf16 (s : string) : jsstring :=
  match s with
  | EmptyString => []
  | String a rest =>
      let b := Ascii.N_of_ascii a in
      if (b <? 128)%N then b :: utf16 rest
      else if (b <? 224)%N then
        match rest with
        | String a2 rest2 =>
            ((b - 192) * 64 + (Ascii.N_of_ascii a2 - 128))%N :: utf16 rest2
        | EmptyString => []
        end
      else
        match rest with
        | String a2 (String a3 rest3) =>
            ((b - 224) * 4096 + (Ascii.N_of_ascii a2 - 128) * 64
             + (Ascii.N_of_ascii a3 - 128))%N :: utf16 rest3
        | _ => []
        end
  end.

(** [\s]: white space and line terminators. *)
Definition isSpace (c : N) : bool :=
  ((9 <=? c) && (c <=? 13) || (c =? 32) || (c =? 160) || (c =? 5760)
   || (8192 <=? c) && (c <=? 8202) || (c =? 8232) || (c =? 8233)
   || (c =? 8239) || (c =? 8287) || (c =? 12288) || (c =? 65279))%N.

(** [\d] *)
Definition isDigit (c : N) : bool := ((48 <=? c) && (c <=? 57))%N.

(** Case folding of the [i] flag (without the [u] flag): a code unit
    goes to its capital when that is one code unit, and an ASCII capital
    only from ASCII.  Written out for the Latin letters and the Cyrillic
    ones, with the old letter forms U+1C80 to U+1C88, whose capitals are
    ordinary Cyrillic capitals (U+1C84 and U+1C85 both go to U+0422).
    Letters of other scripts have capitals too; none of those is a
    character of the two expressions, so they are left as they are. *)
Definition canonicalize (c : N) : N :=
  if ((97 <=? c) && (c <=? 122))%N then (c - 32)%N
  else if ((1072 <=? c) && (c <=? 1103))%N then (c - 32)%N
  else if ((1104 <=? c) && (c <=? 1119))%N then (c - 80)%N
  else if (c =? 7296)%N then 1042%N
  else if (c =? 7297)%N then 1044%N
  else if (c =? 7298)%N then 1054%N
  else if (c =? 7299)%N then 1057%N
  else if ((c =? 7300) || (c =? 7301))%N then 1058%N
  else if (c =? 7302)%N then 1066%N
  else if (c =? 7303)%N then 1122%N
  else if (c =? 7304)%N then 42570%N
  else c.

(** The atoms of the two expressions: a letter, [\s], [\d], and a class
    of letters with or without [\s] in it. *)
Inductive atom :=
| Lit (c : N)
| Space
| Digit
| Class (chars : list N) (space : bool).

Definition sameLetter (l c : N) : bool := (canonicalize l =? canonicalize c)%N.

Definition atomMatches (a : atom) (c : N) : bool :=
  match a with
  | Lit l => sameLetter l c
  | Space => isSpace c
  | Digit => isDigit c
  | Class chars space =>
      existsb (fun l => sameLetter l c) chars || space && isSpace c
  end.

Inductive quantifier := One | Optional | Star | Plus.

(** One term of an expression: an atom, how often it repeats, and whether
    it is the capture group (each expression has one group). *)
Record term := mkTerm { quant : quantifier; what : atom; captured : bool }.

Definition keep (t : term) (c : N) (r : option jsstring) : option jsstring :=
  if captured t then cons c <$> r else r.

(** A repeated term against the text: as many characters as match, and
    one fewer each time the rest of the expression, [k], fails. *)
Fixpoint many (t : term) (k : jsstring -> option jsstring) (s : jsstring)
  : option jsstring :=
  match s with
  | c :: s' =>
      if atomMatches (what t) c then
        match keep t c (many t k s') with
        | Some r => Some r
        | None => k s
        end
      else k s
  | [] => k s
  end.

(** Matching at a fixed start: greedy, and backing off when the rest of
    the expression fails.  The result is the text of the group. *)
Fixpoint matchHere (p : list term) (s : jsstring) {struct p} : option jsstring :=
  match p with
  | [] => Some []
  | t :: p' =>
      match quant t with
      | One =>
          match s with
          | c :: s' => if atomMatches (what t) c then keep t c (matchHere p' s')
                       else None
          | [] => None
          end
      | Optional =>
          match s with
          | c :: s' =>
              if atomMatches (what t) c then
                match keep t c (matchHere p' s') with
                | Some r => Some r
                | None => matchHere p' s
                end
              else matchHere p' s
          | [] => matchHere p' s
          end
      | Star => many t (matchHere p') s
      | Plus =>
          match s with
          | c :: s' => if atomMatches (what t) c
                       then keep t c (many t (matchHere p') s')
                       else None
          | [] => None
          end
      end
  end.

(** [txt.match(re)] without the [g] flag: the leftmost match. *)
Fixpoint search (p : list term) (s : jsstring) : option jsstring :=
  match matchHere p s with
  | Some g => Some g
  | None => match s with
            | [] => None
            | _ :: s' => search p s'
            end
  end.

Definition lits (s : string) : list term :=
  (fun c => mkTerm One (Lit c) false) <$> utf16 s.

(** [/route[_\s-]?index\s*=\s*(\d+)/i] *)
Definition reRouteIndex : list term :=
  lits "route"
    ++ [mkTerm Optional (Class [95; 45]%N true) false]
    ++ lits "index"
    ++ [mkTerm Star Space false; mkTerm One (Lit 61) false;
        mkTerm Star Space false; mkTerm Plus Digit true].

(** [/маршрут\s*#\s*(\d+)/i] *)
Definition reMarshrut : list term :=
  lits "маршрут"
    ++ [mkTerm Star Space false; mkTerm One (Lit 35) false;
        mkTerm Star Space false; mkTerm Plus Digit true].

(** The value of a run of digits. *)
Definition digitsValue (digits : jsstring) : Z :=
  foldl (fun acc d => acc * 10 + (Z.of_N d - 48)) 0 digits.

(** A whole number as binary64 holds it: the nearest number with 53
    significant bits, a tie going to the even one. *)
Definition roundToBinary64 (n : Z) : Z :=
  let e := Z.log2 (Z.abs n) - 52 in
  if e <=? 0 then n
  else
    let q := Z.abs n / 2 ^ e in
    let r := Z.abs n mod 2 ^ e in
    let half := 2 ^ (e - 1) in
    let q' := if (half <? r) || (r =? half) && Z.odd q then q + 1 else q in
    Z.sgn n * (q' * 2 ^ e).

(** The numbers the parsing deals in: whole numbers, and [Infinity] for
    what lies beyond binary64. *)
Inductive whole :=
| Finite (n : Z)
| Infinity.

(** [Number] of a run of digits: their value, rounded to binary64. *)
Definition Number (digits : jsstring) : whole :=
  let v := roundToBinary64 (digitsValue digits) in
  if v <? 2 ^ 1024 then Finite v else Infinity.

(** [x - 1] *)
Definition minusOne (x : whole) : whole :=
  match x with
  | Finite v => Finite (roundToBinary64 (v - 1))
  | Infinity => Infinity
  end.

Definition parseSuggestedIndex (txt : jsstring) : option whole :=
  match search reRouteIndex txt with
  | Some m1 => Some (Number m1)
  | None =>
      match search reMarshrut txt with
      | Some m2 => Some (minusOne (Number m2))
      | None => None
      end
  end.

(** ** The summary bridge *)

Definition routesSignature (rs : list RouteView) : string :=
  String.concat "|"
    ((fun r => string_of_Z (index r) +:+ ":"
               +:+ string_of_Z (Math_round (rv_distance r)) +:+ ":"
               +:+ string_of_Z (Math_round (rv_duration r)) +:+ ":"
               +:+ string_of_nat (length (turnNodes r))) <$> rs).

(** What a render of the screen shows to the effect and to the call it
    schedules: the values of the three dependencies. *)
Record Render := mkRender {
  autoAiEnabled : bool;
  r_routes : list RouteView;
  r_selectedRoute : Z }.

Record AI := mkAI {
  aiLoading : bool;
  aiText : jsstring;
  aiSuggestedIndex : option Z;
  lastAiSignatureRef : string;
  timers : list Render;
  outbound : list Render;
  aiAlerts : list string }.

Definition setAiLoading (v : bool) (s : AI) : AI :=
  mkAI v (aiText s) (aiSuggestedIndex s) (lastAiSignatureRef s) (timers s)
       (outbound s) (aiAlerts s).
Definition setAiText (v : jsstring) (s : AI) : AI :=
  mkAI (aiLoading s) v (aiSuggestedIndex s) (lastAiSignatureRef s) (timers s)
       (outbound s) (aiAlerts s).
Definition setAiSuggestedIndex (v : option Z) (s : AI) : AI :=
  mkAI (aiLoading s) (aiText s) v (lastAiSignatureRef s) (timers s)
       (outbound s) (aiAlerts s).
Definition setLastAiSignature (v : string) (s : AI) : AI :=
  mkAI (aiLoading s) (aiText s) (aiSuggestedIndex s) v (timers s)
       (outbound s) (aiAlerts s).
Definition setTimers (v : list Render) (s : AI) : AI :=
  mkAI (aiLoading s) (aiText s) (aiSuggestedIndex s) (lastAiSignatureRef s) v
       (outbound s) (aiAlerts s).
(** The POST to the text model; the body is serialised from the render. *)
Definition post (r : Render) (s : AI) : AI :=
  mkAI (aiLoading s) (aiText s) (aiSuggestedIndex s) (lastAiSignatureRef s)
       (timers s) (outbound s ++ [r]) (aiAlerts s).
Definition aiAlert (msg : string) (s : AI) : AI :=
  mkAI (aiLoading s) (aiText s) (aiSuggestedIndex s) (lastAiSignatureRef s)
       (timers s) (outbound s) (aiAlerts s ++ [msg]).

Definition initialAI : AI := mkAI false [] None "" [] [] [].

(** The answer of the text model: nothing, or a status with the raw body
    ([res.text()]) and, read as JSON, the [text] of each part of the first
    candidate (absent when the path to the parts is). *)
Inductive GeminiReply :=
| GRejected (msg : option string)
| GAnswer (status : Z) (raw : string)
          (json : Body (option (list (option jsstring)))).

Fixpoint dropSpaces (s : jsstring) : jsstring :=
  match s with
  | c :: s' => if isSpace c then dropSpaces s' else s
  | [] => []
  end.

(** [String.prototype.trim] *)
Definition trim (s : jsstring) : jsstring :=
  reverse (dropSpaces (reverse (dropSpaces s))).

Fixpoint joinLines (l : list jsstring) : jsstring :=
  match l with
  | [] => []
  | [x] => x
  | x :: xs => x ++ 10%N :: joinLines xs
  end.

Definition placeholder : jsstring := utf16 "Не удалось разобрать ответ ИИ.".

Definition extractText (parts : option (list (option jsstring))) : jsstring :=
  match parts with
  | None => placeholder
  | Some ps =>
      let texts := filter (fun t : jsstring => t <> []) (omap id ps) in
      match trim (joinLines texts) with
      | [] => placeholder
      | t => t
      end
  end.

Definition orElse (s : option string) (d : string) : string :=
  match s with
  | Some m => if truthy m then m else d
  | None => d
  end.

Definition callGeminiAuto (reply : GeminiReply) (r : Render) (s : AI) : AI :=
  match r_routes r with
  | [] => s
  | _ =>
      let s := setAiSuggestedIndex None (setAiText [] (setAiLoading true s)) in
      let s := post r s in
      let unknown := "Неизвестная ошибка при запросе к ИИ." in
      let s :=
        match reply with
        | GRejected msg => aiAlert (orElse msg unknown) s
        | GAnswer status raw json =>
            if negb (res_ok status)
            then aiAlert (string_of_Z status +:+ ": "
                            +:+ (if truthy raw then raw else "ошибка запроса")) s
            else match json with
                 | Unparsable msg => aiAlert (orElse msg unknown) s
                 | Parsed parts =>
                     let text := extractText parts in
                     let s := setAiText text s in
                     match parseSuggestedIndex text with
                     | Some (Finite idx) =>
                         if (0 <=? idx) && (idx <? Z.of_nat (length (r_routes r)))
                         then setAiSuggestedIndex (Some idx) s
                         else s
                     | Some Infinity => s
                     | None => s
                     end
                 end
        end in
      setAiLoading false s
  end.

(** The effect that starts the analysis.  It runs after a render in which
    [autoAiEnabled], [routes] or [selectedRoute] changed; [setTimeout] is
    a queue of pending calls. *)
Definition autoAiEffect (r : Render) (s : AI) : AI :=
  if negb (autoAiEnabled r) || (length (r_routes r) =? 0)%nat then s
  else
    let sig := routesSignature (r_routes r) in
    if String.eqb sig (lastAiSignatureRef s) then s
    else setTimers (timers s ++ [r]) (setLastAiSignature sig s).

(** The pending calls fire, each getting the model's answer to it. *)
Fixpoint fire (replies : nat -> GeminiReply) (n : nat) (pending : list Render)
    (s : AI) : AI :=
  match pending with
  | [] => s
  | r :: rest => fire replies (S n) rest (callGeminiAuto (replies n) r s)
  end.

Definition runTimers (replies : nat -> GeminiReply) (s : AI) : AI :=
  fire replies 0 (timers s) (setTimers [] s).

(** ** Notions the properties are stated with *)

(** The routes of a list whose signature is new, in the order they come. *)
Fixpoint firstSeen (seen : gset string) (l : list OSRMRoute) : list OSRMRoute :=
  match l with
  | [] => []
  | r :: l' =>
      if decide (sigForRoute r ∈ seen) then firstSeen seen l'
      else r :: firstSeen (seen ∪ {[ sigForRoute r ]}) l'
  end.

(** Taking routes in, one at a time, until there are five. *)
Fixpoint feed (rs : list OSRMRoute) (out : list OSRMRoute) (seen : gset string)
  : list OSRMRoute * gset string :=
  match rs with
  | [] => (out, seen)
  | r :: rs' =>
      if (LIMIT <=? length out)%nat then (out, seen)
      else if decide (sigForRoute r ∈ seen) then feed rs' out seen
      else feed rs' (out ++ [r]) (seen ∪ {[ sigForRoute r ]})
  end.

(** The routes the via requests numbered from [callno] on would bring. *)
Fixpoint viaArrivals (env : Env) (a b : Coord) (callno : nat) (vias : list Coord)
  : list OSRMRoute :=
  match vias with
  | [] => []
  | via :: rest =>
      match viaRoute (route env callno (makeRouteUrl [a; via; b] None false)) with
      | Some r => r :: viaArrivals env a b (S callno) rest
      | None => viaArrivals env a b (S callno) rest
      end
  end.

(** Every route the servers would hand over during one fetch, in the order
    of arrival: the alternatives, then a route per via point, then a route
    per via point of the displaced pair. *)
Definition arrivals (env : Env) (A0 B0 : Coord) : list OSRMRoute :=
  let a := coord (nearestHint env A0) in
  let b := coord (nearestHint env B0) in
  let first :=
    match stage1Result
            (route env 0 (makeRouteUrl [a; b]
                            (Some [hint (nearestHint env A0);
                                   hint (nearestHint env B0)]) true)) with
    | inl _ => []
    | inr rs => rs
    end in
  first
    ++ viaArrivals env a b 1 (makeViaCandidates a b)
    ++ viaArrivals env a b 13
         (makeViaCandidates (fst (farEndpoints a b)) (snd (farEndpoints a b))).

(** The layering as the specification words it: selected and primary on
    top, then selected only, then primary only, then the rest. *)
Definition wordedRank (selected : Z) (r : RouteView) : Z :=
  match Z.eqb (index r) selected, isPrimary r with
  | true, true => 3
  | true, false => 2
  | false, true => 1
  | false, false => 0
  end.

(** The offset as the specification words it: the cap, or 0.6 of the
    distance of the two coordinates on the axis. *)
Definition wordedOffset (x y : num) : num := Qmin 0.03 (0.6 * Qabs (x - y)).

(** The offset of the code: the distance on the axis counts as 0.005 at
    least. *)
Definition offsetMagnitude (x y : num) : num :=
  Qmin 0.03 (Qmax 0.005 (Qabs (x - y)) * 0.6).

(** The twelve directions, as multiples of the two offsets (latitude,
    longitude): four along the axes, four diagonal, four along the axes
    at one and a half. *)
Definition directions : list (num * num) :=
  [ (1, 0); (-1, 0); (0, 1); (0, -1);
    (1, 1); (-1, 1); (1, -1); (-1, -1);
    (1.5, 0); (0, 1.5); (-1.5, 0); (0, -1.5) ]%Q.

(** Two route sets the suppression cannot tell apart: route by route the
    same index, rounded distance, rounded duration and number of turns. *)
Definition sameSummaryKey (r1 r2 : RouteView) : Prop :=
  index r1 = index r2
  /\ Math_round (rv_distance r1) = Math_round (rv_distance r2)
  /\ Math_round (rv_duration r1) = Math_round (rv_duration r2)
  /\ length (turnNodes r1) = length (turnNodes r2).

(** What the effect sees of the screen. *)
Definition renderOf (enabled : bool) (ui : UI) : Render :=
  mkRender enabled (routes ui) (selectedRoute ui).

(** ** Sample data *)

(** A primary route that is not selected and a selected route that is not
    primary (the selection is 1). *)
Definition primaryOnly : RouteView :=
  mkRouteView "route-0" 0 [] 900 600 "#0A84FF" true [].
Definition selectedOnly : RouteView :=
  mkRouteView "route-1" 1 [] 950 650 "#32D74B" false [].

Definition timed (t : num) : OSRMRoute := mkRoute [] 1000 t [].

(** Six candidates, the last one the fastest: more than [mapToViews] is
    ever given. *)
Definition sixCandidates : list OSRMRoute :=
  [timed 10; timed 10; timed 10; timed 10; timed 10; timed 5].

(** Durations 600 and 650, and a set with a tie for the fastest. *)
Definition twoCandidates : list OSRMRoute := [timed 600; timed 650].
Definition tiedCandidates : list OSRMRoute := [timed 650; timed 600; timed 600].

Definition primaries (views : list RouteView) : list RouteView :=
  filter (fun v => isPrimary v = true) views.

(** The lists [mapToViews] is given.  It is called in one place, by
    [fetchRoutes], with what [fetchFiveRoutes] returned, when that is not
    empty. *)
Definition givenToMapToViews (l : list OSRMRoute) : Prop :=
  l <> [] /\ exists env A0 B0 ui, l = fst (fetchFiveRoutes env A0 B0 ui).

(** The end points of the example of the specification. *)
Definition originA : Coord := mkCoord 0 0.
Definition northB : Coord := mkCoord 0 1.

Definition sameCoord (c d : Coord) : Prop := (lat c == lat d /\ lon c == lon d)%Q.

(** The covered distances the sampler aims at: [target], then steps of
    [spacing], while below [total] and while there is [room]. *)
Fixpoint targetList (fuel : nat) (total spacing : num) (room : nat) (target : num)
  : list num :=
  match fuel with
  | O => []
  | S fuel' =>
      if Qlt_le_dec target total then
        match room with
        | O => []
        | S room' => target :: targetList fuel' total spacing room' (target + spacing)%Q
        end
      else []
  end.

(** A stand-in distance for examples: the difference in latitude, as if a
    degree were a metre. *)
Definition northing (a b : XY) : num := Qabs (latitude b - latitude a).

(** A straight path north, 1000 long, in two segments. *)
Definition straightPath : list XY := [mkXY 0 0; mkXY 300 0; mkXY 1000 0].

(** The request with alternatives of a fetch, and what it comes to. *)
Definition stage1Of (env : Env) (A0 B0 : Coord) : string + list OSRMRoute :=
  stage1Result
    (route env 0 (makeRouteUrl [coord (nearestHint env A0); coord (nearestHint env B0)]
                    (Some [hint (nearestHint env A0); hint (nearestHint env B0)])
                    true)).

(** The routes the via points of the second and of the third stage would
    bring. *)
Definition stage2Arrivals (env : Env) (A0 B0 : Coord) : list OSRMRoute :=
  let a := coord (nearestHint env A0) in
  let b := coord (nearestHint env B0) in
  viaArrivals env a b 1 (makeViaCandidates a b).

Definition stage3Arrivals (env : Env) (A0 B0 : Coord) : list OSRMRoute :=
  let a := coord (nearestHint env A0) in
  let b := coord (nearestHint env B0) in
  viaArrivals env a b 13
    (makeViaCandidates (fst (farEndpoints a b)) (snd (farEndpoints a b))).

(** A server that is overloaded when asked for alternatives and out of
    reach afterwards. *)
Definition overloaded : Env :=
  mkEnv (fun _ => Rejected None)
        (fun n _ => match n with
                    | O => Answer 429 (Unparsable None)
                    | S _ => Rejected (Some "Aborted")
                    end).

(** The digits a text begins with. *)
Fixpoint digitsPrefix (s : jsstring) : jsstring :=
  match s with
  | c :: s' => if isDigit c then c :: digitsPrefix s' else []
  | [] => []
  end.

(** A suggestion is kept when it is the index of a route. *)
Definition inRange (routeCount : nat) (idx : whole) : option Z :=
  match idx with
  | Finite i => if (0 <=? i) && (i <? Z.of_nat routeCount) then Some i else None
  | Infinity => None
  end.

(** Three routes on the screen, the second selected. *)
Definition threeRoutes : Render :=
  mkRender true (fst (mapToViews tiedCandidates)) 1.

(** ** More of the screen *)

(** [routes.find((r) => r.index === selectedRoute)] *)
Definition selectedOf (s : UI) : option RouteView :=
  List.find (fun r => Z.eqb (index r) (selectedRoute s)) (routes s).

(** ** Binary64 *)

(** Numbers are modelled as rationals.  Where a property depends on how
    the code rounds the result of an operation, the operation is followed
    by [fl]: the nearest number that binary64 holds, with 53 significant
    bits, down to the weight 2^-1074 of the last bit of the smallest
    numbers, a tie going to the number whose last bit is 0.  Overflow to
    [Infinity], from 2^1024 on, is left out: the properties are about
    magnitudes far below. *)

(** The nearest whole number, a tie going to the even one. *)
Definition roundEven (y : Q) : Z :=
  let f := Qfloor y in
  match (y - inject_Z f ?= 1 # 2)%Q with
  | Lt => f
  | Gt => f + 1
  | Eq => if Z.even f then f else f + 1
  end.

(** The exponent of the leading bit of a positive number. *)
Definition ilog2 (a : Q) : Z :=
  let d := Z.log2 (Qnum a) - Z.log2 (Zpos (Qden a)) in
  if Qle_bool (2 ^ d) a then d else d - 1.

(** The exponent of the last bit that binary64 keeps of it. *)
Definition lastBit (a : Q) : Z := Z.max (ilog2 a - 52) (-1074).

Definition fl (x : Q) : Q :=
  let e := lastBit (Qabs x) in
  ((if Qle_bool 0 x then 1 else -1)
   * inject_Z (roundEven (Qabs x / 2 ^ e)) * 2 ^ e)%Q.

(** ** Distances as text *)

(** [x.toFixed(1)], as [toFixed3] with one decimal: of the multiples of
    1/10 the one nearest to the magnitude, the larger of two that are
    equally near.  Magnitudes of 1e21 and more print in exponent form,
    which is left out. *)
Definition toFixed1 (x : num) : string :=
  let n := Qfloor (Qabs x * 10 + (1 # 2))%Q in
  (if Qlt_le_dec x 0 then "-" else "")
    +:+ string_of_Z (n / 10) +:+ "." +:+ string_of_Z (n mod 10).

(** The quotient [m / 1000] is a binary64 number when [toFixed] gets it. *)
Definition fmtDist (m : num) : string :=
  if Qlt_le_dec m 1000 then string_of_Z (Math_round m) +:+ " м"
  else toFixed1 (fl (m / 1000)) +:+ " км".

(** ** The via points in binary64 *)

(** [makeViaCandidates] with the arithmetic of the code: every sum,
    difference, product and quotient is rounded to binary64, and a
    constant is the binary64 number nearest to it ([Math.abs],
    [Math.max] and [Math.min] return one of their arguments, up to the
    sign). *)
Definition makeViaCandidates64 (a b : Coord) : list Coord :=
  let midLat := fl (fl (lat a + lat b) / 2) in
  let midLon := fl (fl (lon a + lon b) / 2) in
  let latSpan := Qmax (fl 0.005) (Qabs (fl (lat a - lat b))) in
  let lonSpan := Qmax (fl 0.005) (Qabs (fl (lon a - lon b))) in
  let dLat := Qmin (fl 0.03) (fl (latSpan * fl 0.6)) in
  let dLon := Qmin (fl 0.03) (fl (lonSpan * fl 0.6)) in
  [ mkCoord (fl (midLat + dLat)) midLon;
    mkCoord (fl (midLat - dLat)) midLon;
    mkCoord midLat (fl (midLon + dLon));
    mkCoord midLat (fl (midLon - dLon));
    mkCoord (fl (midLat + dLat)) (fl (midLon + dLon));
    mkCoord (fl (midLat - dLat)) (fl (midLon + dLon));
    mkCoord (fl (midLat + dLat)) (fl (midLon - dLon));
    mkCoord (fl (midLat - dLat)) (fl (midLon - dLon));
    mkCoord (fl (midLat + fl (dLat * fl 1.5))) midLon;
    mkCoord midLat (fl (midLon + fl (dLon * fl 1.5)));
    mkCoord (fl (midLat - fl (dLat * fl 1.5))) midLon;
    mkCoord midLat (fl (midLon - fl (dLon * fl 1.5))) ]%Q.

(** The middle and the offset on one axis, in binary64. *)
Definition mid64 (x y : num) : num := fl (fl (x + y) / 2).
Definition offset64 (x y : num) : num :=
  Qmin (fl 0.03) (fl (Qmax (fl 0.005) (Qabs (fl (x - y))) * fl 0.6)).

(** End points on the globe: a latitude within 90 degrees, a longitude
    within 180. *)
Definition onGlobe (c : Coord) : Prop :=
  (Qabs (lat c) <= 90 /\ Qabs (lon c) <= 180)%Q.

(** Two numbers, and two points, no more than 10^-12 apart. *)
Definition near (u v : num) : Prop := (Qabs (u - v) <= 1 # 1000000000000)%Q.
Definition nearCoord (v w : Coord) : Prop :=
  near (lat v) (lat w) /\ near (lon v) (lon w).

(** End points far off the globe, where binary64 has no room for the
    offsets. *)
Definition farOff : Coord := mkCoord 100000000000000000 100000000000000000.

(** [Math.floor] and the remainder [x % y], which takes the sign of [x]. *)
Definition Math_floor (x : num) : Z := Qfloor x.

Definition Math_trunc (x : num) : Z :=
  if Qlt_le_dec x 0 then Qceiling x else Qfloor x.

Definition js_rem (x y : num) : num := (x - y * inject_Z (Math_trunc (x / y)))%Q.

Definition durHours (s : num) : Z := Math_floor (s / 3600).
Definition durMinutes (s : num) : Z := Math_round (js_rem s 3600 / 60).

Definition fmtDur (s : num) : string :=
  let h := durHours s in
  let m := durMinutes s in
  if 0 <? h then string_of_Z h +:+ " ч " +:+ string_of_Z m +:+ " мин"
  else string_of_Z m +:+ " мин".

(** ** Statistics for the summary *)

(** All code units of a text, pairs of surrogates for what lies beyond the
    basic plane. *)
Fixpoint codeUnits (s : string) : jsstring :=
  match s with
  | EmptyString => []
  | String a rest =>
      let b := Ascii.N_of_ascii a in
      if (b <? 128)%N then b :: codeUnits rest
      else if (b <? 224)%N then
        match rest with
        | String a2 rest2 =>
            ((b - 192) * 64 + (Ascii.N_of_ascii a2 - 128))%N :: codeUnits rest2
        | EmptyString => []
        end
      else if (b <? 240)%N then
        match rest with
        | String a2 (String a3 rest3) =>
            ((b - 224) * 4096 + (Ascii.N_of_ascii a2 - 128) * 64
             + (Ascii.N_of_ascii a3 - 128))%N :: codeUnits rest3
        | _ => []
        end
      else
        match rest with
        | String a2 (String a3 (String a4 rest4)) =>
            let cp := ((b - 240) * 262144 + (Ascii.N_of_ascii a2 - 128) * 4096
                       + (Ascii.N_of_ascii a3 - 128) * 64
                       + (Ascii.N_of_ascii a4 - 128))%N in
            (55296 + (cp - 65536) / 1024)%N
              :: (56320 + (cp - 65536) mod 1024)%N :: codeUnits rest4
        | _ => []
        end
  end.

(** [toLowerCase] on the Latin and Cyrillic capitals; no other character
    turns into a letter of the two words looked for below. *)
Definition lowerUnit (c : N) : N :=
  if ((65 <=? c) && (c <=? 90))%N then (c + 32)%N
  else if ((1040 <=? c) && (c <=? 1071))%N then (c + 32)%N
  else if ((1024 <=? c) && (c <=? 1039))%N then (c + 80)%N
  else c.

Definition toLowerCase (s : jsstring) : jsstring := lowerUnit <$> s.

Fixpoint startsWith (needle hay : jsstring) : bool :=
  match needle, hay with
  | [], _ => true
  | n :: needle', h :: hay' => (n =? h)%N && startsWith needle' hay'
  | _ :: _, [] => false
  end.

(** [hay.includes(needle)] *)
Fixpoint includes (needle hay : jsstring) : bool :=
  startsWith needle hay
  || match hay with
     | [] => false
     | _ :: hay' => includes needle hay'
     end.

Definition isLeftTurn (t : TurnNode) : bool :=
  includes (codeUnits "left")
    (toLowerCase (codeUnits (match tn_modifier t with
                             | Some m => if truthy m then m else ""
                             | None => ""
                             end))).

Definition isRoundabout (t : TurnNode) : bool :=
  includes (codeUnits "кольцев") (toLowerCase (codeUnits (maneuverType t))).

Record RouteStats := mkStats {
  st_index : Z;
  st_isPrimary : bool;
  distance_m : Z;
  duration_s : Z;
  turns : nat;
  left_turns : nat;
  roundabouts : nat;
  avg_step_m : Z }.

Definition routeStats (r : RouteView) : RouteStats :=
  let turns := length (turnNodes r) in
  let leftTurns := length (List.filter isLeftTurn (turnNodes r)) in
  let roundabouts := length (List.filter isRoundabout (turnNodes r)) in
  let avgStep :=
    match turns with
    | O => 0%Q
    | _ => (foldl (fun s t => s + stepDistance t) 0 (turnNodes r)
            / inject_Z (Z.of_nat turns))%Q
    end in
  mkStats (index r) (isPrimary r) (Math_round (rv_distance r))
          (Math_round (rv_duration r)) turns leftTurns roundabouts
          (Math_round avgStep).



(** [[...stats].sort((a, b) => key(a) - key(b))[0]] *)
Definition firstBy (key : RouteStats -> Z) (l : list RouteStats)
  : option RouteStats :=
  head (js_sort (fun a b => inject_Z (key a - key b)) l).


(** Seven alternatives with five different signatures among the first
    six, and a server that hands them out. *)
Definition fiveAlternatives : list OSRMRoute :=
  [timed 1; timed 2; timed 2; timed 3; timed 4; timed 5; timed 6].

Definition generous : Env :=
  mkEnv (fun _ => Rejected None)
        (fun n _ => match n with
                    | O => Answer 200 (Parsed (mkResponse "Ok" (Some fiveAlternatives) None))
                    | S _ => Answer 200 (Parsed (mkResponse "Ok" (Some [timed 7]) None))
                    end).

(** The key of the drawing order as a number. *)
Definition layerKey (s : UI) (r : RouteView) : num :=
  inject_Z (sortKey (showAllRoutes s) (selectedRoute s) r).

(** The test of the render: [if (!ap.shouldShow) return null]. *)
Definition isShown (s : UI) (r : RouteView) : Prop :=
  shouldShow (getRouteAppearance (showAllRoutes s) (selectedRoute s) r) = true.

Global Instance isShown_dec (s : UI) (r : RouteView) : Decision (isShown s r).
Proof. unfold isShown. apply _. Defined.

(** A marker that lies on the segment before vertex [idx] of the path, in
    the stretch where the covered distance goes from [cum[idx - 1]] to
    [cum[idx]]. *)
Definition onSegment (poly : list XY) (cum : list num) (m : RouteMarker) : Prop :=
  exists (idx : nat) (t : num),
    (1 <= idx < length poly)%nat
    /\ (0 < t <= 1)%Q
    /\ (latitude (coordinate m)
        == latitude (poly !!! (idx - 1)%nat)
           + (latitude (poly !!! idx) - latitude (poly !!! (idx - 1)%nat)) * t)%Q
    /\ (longitude (coordinate m)
        == longitude (poly !!! (idx - 1)%nat)
           + (longitude (poly !!! idx) - longitude (poly !!! (idx - 1)%nat)) * t)%Q
    /\ (cum !!! (idx - 1)%nat < coveredDistance m <= cum !!! idx)%Q.

(** The call to the text model fails: no answer, a status that is not a
    success, or a body that is not JSON. *)
Definition replyFailed (reply : GeminiReply) : bool :=
  match reply with
  | GRejected _ => true
  | GAnswer status _ json =>
      negb (res_ok status) || match json with
                              | Unparsable _ => true
                              | Parsed _ => false
                              end
  end.


(** [f] is the statistics of the first route of [all] that has the least
    [key]. *)
Definition firstLeast (key : RouteStats -> Z) (all : list RouteView)
    (f : RouteStats) : Prop :=
  exists (i : nat) (r : RouteView),
    f = routeStats r
    /\ all !! i = Some r
    /\ (forall j r', all !! j = Some r' -> key f <= key (routeStats r'))
    /\ (forall j r', all !! j = Some r' -> (j < i)%nat -> key f < key (routeStats r')).

(** The maneuver types and modifiers the type of a step names. *)
Definition osrmTypes : list string :=
  ["arrive"; "depart"; "merge"; "turn"; "continue"; "roundabout"; "fork";
   "end of road"; "rotary"; "new name"; "notification"; "exit roundabout";
   "exit rotary"].

Definition osrmModifiers : list string :=
  ["uturn"; "sharp right"; "right"; "slight right"; "straight";
   "slight left"; "left"; "sharp left"].

Definition knownStep (s : OSRMStep) : Prop :=
  mtype (maneuver s) ∈ osrmTypes
  /\ (modifier (maneuver s) = None
      \/ exists m, m ∈ osrmModifiers /\ modifier (maneuver s) = Some m).

(** All steps of a route, leg after leg. *)
Definition stepsOf (r : OSRMRoute) : list OSRMStep := concat (steps <$> legs r).

Definition turnsLeft (s : OSRMStep) : bool :=
  bool_decide (modifier (maneuver s)
               ∈ [Some "slight left"; Some "left"; Some "sharp left"]).

Definition entersRoundabout (s : OSRMStep) : bool :=
  bool_decide (mtype (maneuver s) ∈ ["roundabout"; "rotary"]).

(** The two searches of the statistics, on a modifier and on a label. *)
Definition leftIn (m : option string) : bool :=
  includes (codeUnits "left")
    (toLowerCase (codeUnits (match m with
                             | Some m => if truthy m then m else ""
                             | None => ""
                             end))).

Definition roundaboutIn (label : string) : bool :=
  includes (codeUnits "кольцев") (toLowerCase (codeUnits label)).


(** A route of one leg: off, a left turn, into a roundabout and out of
    it to the right, there. *)
Definition stepOf (t : string) (m : option string) : OSRMStep :=
  mkStep 100 10 "" (mkManeuver (0, 0)%Q t m).

Definition aroundTheBlock : OSRMRoute :=
  mkRoute [] 500 50
    [mkLeg [stepOf "depart" None; stepOf "turn" (Some "left");
            stepOf "roundabout" None; stepOf "exit roundabout" (Some "right");
            stepOf "arrive" None]].

(** A slower route of two legs, on a street with a name and on one with
    none, and a candidate list with it in the second place. *)
Definition twoLegs : OSRMRoute :=
  mkRoute [] 800 90
    [mkLeg [mkStep 300 40 "Абая" (mkManeuver (0, 0)%Q "depart" None);
            stepOf "turn" (Some "left")];
     mkLeg [stepOf "arrive" None]].

Definition withTwoLegs : list OSRMRoute := [timed 60; twoLegs].

(** The characters of a decimal number, and text without a given
    character. *)
Definition decimalChars : list Ascii.ascii :=
  String.list_ascii_of_string "0123456789-".

Definition madeOf (allowed : list Ascii.ascii) (s : string) : Prop :=
  Forall (fun c => c ∈ allowed) (String.list_ascii_of_string s).

Definition without (c : Ascii.ascii) (s : string) : Prop :=
  c ∉ String.list_ascii_of_string s.

(** The two separators of the signature, [:] and [|]. *)
Definition colon : Ascii.ascii := Ascii.ascii_of_nat 58.
Definition bar : Ascii.ascii := Ascii.ascii_of_nat 124.

(** The part of the signature that one route makes. *)
Definition routeKeyText (r : RouteView) : string :=
  string_of_Z (index r) +:+ ":"
    +:+ string_of_Z (Math_round (rv_distance r)) +:+ ":"
    +:+ string_of_Z (Math_round (rv_duration r)) +:+ ":"
    +:+ string_of_nat (length (turnNodes r)).

Definition comma : Ascii.ascii := Ascii.ascii_of_nat 44.

(** The characters of a printed coordinate, [undefined] included. *)
Definition fixedChars : list Ascii.ascii :=
  String.list_ascii_of_string "0123456789-.undefi".

(** Two routes the signature cannot tell apart: the same rounded distance
    and duration, the same first and last point as printed with three
    decimals, and the same number of vertices. *)
Definition sameSigKey (r1 r2 : OSRMRoute) : Prop :=
  Math_round (distance r1) = Math_round (distance r2)
  /\ Math_round (duration r1) = Math_round (duration r2)
  /\ fixedOrUndefined (fst <$> head (coordinates r1))
     = fixedOrUndefined (fst <$> head (coordinates r2))
  /\ fixedOrUndefined (snd <$> head (coordinates r1))
     = fixedOrUndefined (snd <$> head (coordinates r2))
  /\ fixedOrUndefined (fst <$> last (coordinates r1))
     = fixedOrUndefined (fst <$> last (coordinates r2))
  /\ fixedOrUndefined (snd <$> last (coordinates r1))
     = fixedOrUndefined (snd <$> last (coordinates r2))
  /\ length (coordinates r1) = length (coordinates r2).

(** * Properties *)

(** ** Sorting *)

Section SortFacts.
Context {A : Type} (key : A -> num).

Lemma sort_insert_perm (x : A) (l : list A) : sort_insert (byKey key) x l ≡ₚ x :: l.
Proof.
  induction l as [|y ys IH]; simpl; [done|].
  destruct (Qlt_le_dec 0 ((byKey key) x y)); [|done].
  rewrite IH. apply Permutation_swap.
Qed.

Lemma js_sort_perm (l : list A) : js_sort (byKey key) l ≡ₚ l.
Proof.
  induction l as [|x l IH]; simpl; [done|].
  rewrite sort_insert_perm. by rewrite IH.
Qed.

Lemma sort_insert_sorted (x : A) (l : list A) :
  Sorted (keyLe key) l -> Sorted (keyLe key) (sort_insert (byKey key) x l).
Proof.
  induction 1 as [|y ys Hs IH Hhd]; simpl.
  - repeat constructor.
  - destruct (Qlt_le_dec 0 ((byKey key) x y)) as [Hlt|Hle].
    + constructor; [exact IH|].
      destruct Hhd as [|w ws Hw]; simpl.
      * constructor. unfold keyLe, byKey in *. lra.
      * destruct (Qlt_le_dec 0 ((byKey key) x w)); constructor; [exact Hw|].
        unfold keyLe, byKey in *. lra.
    + constructor; [by constructor|]. constructor.
      unfold keyLe, byKey in *. lra.
Qed.

Lemma js_sort_sorted (l : list A) : Sorted (keyLe key) (js_sort (byKey key) l).
Proof.
  induction l as [|x l IH]; simpl; [constructor|].
  by apply sort_insert_sorted.
Qed.
End SortFacts.

(** ** Selection state *)

(** C9.  Whatever the state was, [selectRouteOnly k] leaves the selected
    index at [k] and the show-all flag off, and the toggle of the show-all
    button flips the flag and keeps the selected index. *)
Theorem selectRouteOnly_and_toggleShowAll (k : Z) (s : UI) :
  selectedRoute (selectRouteOnly k s) = k
  /\ showAllRoutes (selectRouteOnly k s) = false
  /\ selectedRoute (toggleShowAll s) = selectedRoute s
  /\ showAllRoutes (toggleShowAll s) = negb (showAllRoutes s).
Proof. repeat split. Qed.

(** Neither transition touches the route set. *)
Lemma selection_keeps_routes (k : Z) (s : UI) :
  routes (selectRouteOnly k s) = routes s /\ routes (toggleShowAll s) = routes s.
Proof. split; reflexivity. Qed.

(** ** Layers *)

(** C3, as worded, fails: with every route shown, route 1 selected and
    route 0 primary, the worded order puts the selected route above the
    primary one, and the z-index of the code puts it below; the drawing
    order agrees with the code. *)
Lemma worded_z_order_counterexample :
  wordedRank 1 primaryOnly < wordedRank 1 selectedOnly
  /\ z (getRouteAppearance true 1 selectedOnly)
     < z (getRouteAppearance true 1 primaryOnly)
  /\ routesSorted (mkUI [primaryOnly; selectedOnly] 1 true false ok "" None [])
     = [selectedOnly; primaryOnly].
Proof. repeat split. Qed.

Lemma Sorted_weaken {A : Type} (R R' : A -> A -> Prop) (l : list A) :
  (forall a b, R a b -> R' a b) -> Sorted R l -> Sorted R' l.
Proof.
  intros HR. induction 1 as [|x l Hs IH Hhd]; constructor; [exact IH|].
  destruct Hhd; constructor. by apply HR.
Qed.

Lemma z_of_appearance (showAll : bool) (selected : Z) (r : RouteView) :
  z (getRouteAppearance showAll selected r)
  = if showAll
    then (if isPrimary r then 2 else if Z.eqb (index r) selected then 1 else 0)
    else 2.
Proof.
  unfold getRouteAppearance; simpl.
  destruct showAll, (isPrimary r), (Z.eqb (index r) selected); reflexivity.
Qed.

(** C3, amended.  With every route shown the z-index is 2 for a primary
    route, selected or not, 1 for a selected route that is not primary and
    0 for the others, so a primary route that is not selected lies above a
    selected one that is not primary, which lies above the rest; the key
    of the drawing order is the same number, and every route is shown.
    In focus mode the z-index is 2 throughout, a route is shown exactly
    when it is the selected one, and the key of the drawing order is 2
    for the selected route and 0 for the others.  The drawing order is
    the route set sorted by its key, lowest first. *)
Theorem z_order_of_the_code (s : UI) (selected : Z) (r1 r2 : RouteView) :
  isPrimary r1 = true ->
  isPrimary r2 = false ->
  z (getRouteAppearance true selected r1) = 2
  /\ z (getRouteAppearance true selected r2)
     = (if Z.eqb (index r2) selected then 1 else 0)
  /\ z (getRouteAppearance true selected r2) < z (getRouteAppearance true selected r1)
  /\ sortKey true selected r1 = z (getRouteAppearance true selected r1)
  /\ sortKey true selected r2 = z (getRouteAppearance true selected r2)
  /\ z (getRouteAppearance false selected r1) = 2
  /\ z (getRouteAppearance false selected r2) = 2
  /\ shouldShow (getRouteAppearance false selected r2) = Z.eqb (index r2) selected
  /\ (forall r : RouteView,
        shouldShow (getRouteAppearance true selected r) = true
        /\ shouldShow (getRouteAppearance false selected r)
           = Z.eqb (index r) selected
        /\ z (getRouteAppearance false selected r) = 2
        /\ sortKey false selected r
           = (if Z.eqb (index r) selected then 2 else 0))
  /\ routesSorted s ≡ₚ routes s
  /\ Sorted (fun a b => sortKey (showAllRoutes s) (selectedRoute s) a
                        <= sortKey (showAllRoutes s) (selectedRoute s) b)
            (routesSorted s).
Proof.
  intros H1 H2. rewrite !z_of_appearance.
  assert (Hk1 : sortKey true selected r1 = 2) by (unfold sortKey; by rewrite H1).
  assert (Hk2 : sortKey true selected r2
                = if Z.eqb (index r2) selected then 1 else 0)
    by (unfold sortKey; by rewrite H2).
  rewrite Hk1, Hk2, H1, H2.
  split; [done|]. split; [done|].
  split; [by destruct (Z.eqb (index r2) selected)|].
  split; [done|]. split; [done|]. split; [done|]. split; [done|].
  split; [reflexivity|].
  split; [intros r; rewrite z_of_appearance; repeat split|].
  pose (key := fun a : RouteView =>
                 inject_Z (sortKey (showAllRoutes s) (selectedRoute s) a)).
  assert (Hfun : routesSorted s
                 = js_sort (fun a b => (key a - key b)%Q) (routes s)).
  { unfold routesSorted. generalize (routes s) as l.
    assert (Hins : forall x l,
      sort_insert (fun a b => inject_Z (sortKey (showAllRoutes s) (selectedRoute s) a
                                        - sortKey (showAllRoutes s) (selectedRoute s) b)) x l
      = sort_insert (fun a b => (key a - key b)%Q) x l).
    { intros x l. induction l as [|y ys IH]; simpl; [done|].
      rewrite IH. unfold key.
      destruct (Qlt_le_dec 0 _) as [Ha|Ha], (Qlt_le_dec 0 _) as [Hb|Hb];
        try reflexivity; exfalso; revert Ha Hb;
        unfold Z.sub; rewrite inject_Z_plus, inject_Z_opp; intros; lra. }
    induction l as [|x l IH]; simpl; [done|]. by rewrite IH, Hins. }
  rewrite Hfun. split; [apply (js_sort_perm key)|].
  eapply Sorted_weaken; [|apply (js_sort_sorted key)].
  intros a b Hab. unfold keyLe, key in Hab. by rewrite Zle_Qle.
Qed.

Lemma z_order_of_the_code_witness :
  isPrimary primaryOnly = true /\ isPrimary selectedOnly = false
  /\ z (getRouteAppearance true 1 selectedOnly)
     < z (getRouteAppearance true 1 primaryOnly).
Proof.
  split; [reflexivity|]. split; [reflexivity|].
  exact (proj1 (proj2 (proj2
    (z_order_of_the_code initialUI 1 primaryOnly selectedOnly eq_refl eq_refl)))).
Defined.

(** ** The primary route *)

Section Fastest.

Lemma head_sort_insert (x : nat * num) (l : list (nat * num)) :
  head (sort_insert (byKey (@snd nat num)) x l)
  = Some (match head l with
          | Some y => if Qlt_le_dec 0 ((byKey (@snd nat num)) x y) then y else x
          | None => x
          end).
Proof.
  destruct l as [|y ys]; simpl; [done|].
  by destruct (Qlt_le_dec 0 ((byKey (@snd nat num)) x y)).
Qed.

(** The head of the sorted pairs: a pair of the list whose duration is
    the least, and the earliest of those. *)
Lemma head_sorted_durations (rs : list OSRMRoute) (n : nat) (r0 : OSRMRoute) :
  exists i r,
    head (js_sort (byKey (@snd nat num)) (imap (fun i r => ((n + i)%nat, duration r)) (r0 :: rs)))
    = Some ((n + i)%nat, duration r)
    /\ (r0 :: rs) !! i = Some r
    /\ (forall j r', (r0 :: rs) !! j = Some r' -> (duration r <= duration r')%Q)
    /\ (forall j r', (r0 :: rs) !! j = Some r' -> (j < i)%nat ->
                     (duration r < duration r')%Q).
Proof.
  revert n r0. induction rs as [|r1 rs IH]; intros n r0.
  - exists 0%nat, r0. simpl. rewrite Nat.add_0_r. split; [done|]. split; [done|].
    split.
    + intros [|j] r' Hj; simpl in Hj; [|done]. injection Hj as <-. lra.
    + intros j r' _ Hlt. lia.
  - destruct (IH (S n) r1) as (i & r & Hhd & Hi & Hmin & Hfirst).
    assert (Hshift :
      imap (fun i r => ((n + i)%nat, duration r)) (r0 :: r1 :: rs)
      = ((n + 0)%nat, duration r0)
          :: imap (fun i r => ((S n + i)%nat, duration r)) (r1 :: rs)).
    { rewrite imap_cons. f_equal. apply imap_ext. intros k x _. simpl.
      f_equal. lia. }
    rewrite Hshift. change (js_sort (byKey (@snd nat num)) (?p :: ?l)) with (sort_insert (byKey (@snd nat num)) p (js_sort (byKey (@snd nat num)) l)).
    rewrite head_sort_insert, Hhd. unfold byKey at 1. simpl snd.
    destruct (Qlt_le_dec 0 (duration r0 - duration r)) as [Hgt|Hle].
    + exists (S i), r. replace (n + S i)%nat with (S n + i)%nat by lia.
      split; [done|]. split; [done|]. split.
      * intros [|j] r' Hj; simpl in Hj.
        -- injection Hj as <-. lra.
        -- by apply (Hmin j).
      * intros [|j] r' Hj Hlt; simpl in Hj.
        -- injection Hj as <-. lra.
        -- apply (Hfirst j); [done|lia].
    + exists 0%nat, r0. split; [done|]. split; [done|]. split.
      * intros [|j] r' Hj; simpl in Hj.
        -- injection Hj as <-. lra.
        -- specialize (Hmin j r' Hj). lra.
      * intros j r' _ Hlt. lia.
Qed.
End Fastest.

Lemma bestIdxOf_fastest (l : list OSRMRoute) :
  l <> [] ->
  exists r,
    l !! bestIdxOf l = Some r
    /\ (forall j r', l !! j = Some r' -> (duration r <= duration r')%Q)
    /\ (forall j r', l !! j = Some r' -> (j < bestIdxOf l)%nat ->
                     (duration r < duration r')%Q).
Proof.
  destruct l as [|r0 rs]; [done|]. intros _.
  destruct (head_sorted_durations rs 0 r0) as (i & r & Hhd & Hi & Hmin & Hfirst).
  unfold bestIdxOf.
  change (fun a b : nat * num => (snd a - snd b)%Q) with (byKey (@snd nat num)).
  assert (Hsame : imap (fun i r => (i, duration r)) (r0 :: rs)
                  = imap (fun i r => ((0 + i)%nat, duration r)) (r0 :: rs))
    by (apply imap_ext; by intros).
  rewrite Hsame, Hhd. simpl. eauto.
Qed.

Lemma primaries_imap (best n : nat) (l : list OSRMRoute) :
  primaries (imap (fun i => viewOf best (n + i)) l)
  = match l !! (best - n)%nat with
    | Some r => if decide (n <= best)%nat then [viewOf best best r] else []
    | None => []
    end.
Proof.
  revert n. induction l as [|x l IH]; intros n; [done|].
  rewrite imap_cons. unfold primaries in *. rewrite filter_cons.
  assert (Hshift : imap ((fun i => viewOf best (n + i)) ∘ S) l
                   = imap (fun i => viewOf best (S n + i)) l).
  { apply imap_ext. intros k y _. simpl. f_equal. lia. }
  rewrite Hshift, IH. simpl isPrimary. rewrite Nat.add_0_r.
  destruct (decide (n = best)) as [->|Hne].
  - rewrite Nat.eqb_refl, Nat.sub_diag. simpl.
    rewrite (decide_True (P := (best <= best)%nat)) by lia.
    destruct (l !! _); [rewrite decide_False by lia|]; done.
  - apply Nat.eqb_neq in Hne as Hne'. rewrite Hne'. simpl.
    destruct (decide (S n <= best)%nat) as [Hle|Hgt].
    + replace (best - n)%nat with (S (best - S n)) by lia. simpl.
      destruct (l !! (best - S n)%nat); [|done]. by rewrite decide_True by lia.
    + destruct (l !! (best - S n)%nat), ((x :: l) !! (best - n)%nat);
        try done; by rewrite decide_False by lia.
Qed.

(** Where the limit of five matters: the fastest route is looked for in
    the whole list and the views are made of its first five routes, so of
    six candidates with the last one the fastest none would be primary. *)
Example six_candidates_no_primary :
  sixCandidates <> []
  /\ snd (mapToViews sixCandidates) = 5%nat
  /\ primaries (fst (mapToViews sixCandidates)) = [].
Proof. repeat split; done. Qed.

(** For a candidate list that is not empty and has at most five routes,
    exactly one view is primary: the view of the route at [bestIdx], whose
    duration is the least of all and strictly less than that of every
    route before it; an index with these two properties is [bestIdx]. *)
Lemma one_primary_among_five (l : list OSRMRoute) :
  l <> [] ->
  (length l <= 5)%nat ->
  exists r,
    l !! snd (mapToViews l) = Some r
    /\ primaries (fst (mapToViews l))
       = [viewOf (snd (mapToViews l)) (snd (mapToViews l)) r]
    /\ index (viewOf (snd (mapToViews l)) (snd (mapToViews l)) r)
       = Z.of_nat (snd (mapToViews l))
    /\ (forall j r', l !! j = Some r' -> (duration r <= duration r')%Q)
    /\ (forall j r', l !! j = Some r' -> (j < snd (mapToViews l))%nat ->
                     (duration r < duration r')%Q)
    /\ (forall k rk, l !! k = Some rk ->
          (forall j r', l !! j = Some r' -> (duration rk <= duration r')%Q) ->
          (forall j r', l !! j = Some r' -> (j < k)%nat ->
                        (duration rk < duration r')%Q) ->
          k = snd (mapToViews l)).
Proof.
  intros Hne Hlen.
  destruct (bestIdxOf_fastest l Hne) as (r & Hr & Hmin & Hfirst).
  exists r. simpl. split; [exact Hr|]. split.
  - rewrite take_ge by exact Hlen.
    pose proof (primaries_imap (bestIdxOf l) 0 l) as Hp.
    simpl in Hp. rewrite Nat.sub_0_r, Hr in Hp. exact Hp.
  - split; [done|]. split; [exact Hmin|]. split; [exact Hfirst|].
    intros k rk Hk Hkmin Hkfirst.
    destruct (Nat.lt_trichotomy k (bestIdxOf l)) as [Hlt|[Heq|Hgt]]; [|done|].
    + specialize (Hfirst k rk Hk Hlt). specialize (Hkmin _ _ Hr). lra.
    + specialize (Hkfirst _ _ Hr Hgt). specialize (Hmin _ _ Hk). lra.
Qed.

(** The examples of the specification: durations 600 and 650 make index 0
    primary; of two routes tied for the fastest the earlier is primary. *)
Example primary_of_two : snd (mapToViews twoCandidates) = 0%nat.
Proof. reflexivity. Qed.

Example primary_of_tie :
  snd (mapToViews tiedCandidates) = 1%nat
  /\ isPrimary <$> fst (mapToViews tiedCandidates) = [false; true; false].
Proof. split; reflexivity. Qed.

(** ** Via points *)

(** C5, as worded, fails: between (0,0) and (0,1) the two latitudes are
    the same, 0.6 of their distance is 0, and yet the first via point lies
    0.003 north of the middle. *)
Lemma worded_offset_counterexample :
  exists v,
    head (makeViaCandidates originA northB) = Some v
    /\ (wordedOffset (lat originA) (lat northB) == 0)%Q
    /\ (lat v - (lat originA + lat northB) / 2 == 0.003)%Q
    /\ ~ (lat v - (lat originA + lat northB) / 2
          == wordedOffset (lat originA) (lat northB))%Q.
Proof.
  eexists. split; [reflexivity|]. split; [reflexivity|]. split; [reflexivity|].
  vm_compute. discriminate.
Qed.

(** C5, amended.  For all end points there are exactly twelve via points:
    the middle of the two, moved by the twelve directions (four along the
    axes, four diagonal, four along the axes at one and a half), where the
    offset on an axis is the lesser of 0.03 and 0.6 of the distance of the
    two coordinates on that axis, that distance counting as 0.005 at
    least.  Between (0,0) and (0,1) the twelve points all differ from both
    end points. *)
Theorem via_candidates_of_the_code (a b : Coord) :
  length (makeViaCandidates a b) = 12%nat
  /\ Forall2
       (fun v d =>
          (lat v == (lat a + lat b) / 2 + fst d * offsetMagnitude (lat a) (lat b)
           /\ lon v == (lon a + lon b) / 2 + snd d * offsetMagnitude (lon a) (lon b))%Q)
       (makeViaCandidates a b) directions
  /\ length (makeViaCandidates originA northB) = 12%nat
  /\ Forall (fun v => ~ sameCoord v originA /\ ~ sameCoord v northB)
            (makeViaCandidates originA northB).
Proof.
  split; [reflexivity|]. split.
  - unfold makeViaCandidates, directions, offsetMagnitude.
    repeat (constructor; [simpl; split; lra|]). constructor.
  - split; [reflexivity|].
    unfold sameCoord.
    repeat (constructor;
            [split; intros [H1 H2]; vm_compute in H1, H2; discriminate|]).
    constructor.
Qed.

(** ** Markers *)

Section SamplerFacts.
Variable haversine : XY -> XY -> num.

Lemma cumulative_length (acc : num) (prev : XY) (rest : list XY) :
  length (cumulative haversine acc prev rest) = length rest.
Proof.
  revert acc prev. induction rest as [|p ps IH]; intros; simpl; [done|].
  by rewrite IH.
Qed.

Lemma cumOf_length (poly : list XY) : length (cumOf haversine poly) = length poly.
Proof. destruct poly; simpl; [done|]. by rewrite cumulative_length. Qed.

Lemma skipBelow_lt (target : num) (rest : list num) (idx : nat) (c : num) :
  last rest = Some c -> (target <= c)%Q ->
  (skipBelow target rest idx < idx + length rest)%nat.
Proof.
  revert idx. induction rest as [|x rest IH]; intros idx Hlast Hle; [done|].
  simpl. destruct (Qlt_le_dec x target) as [Hlt|Hge]; [|lia].
  destruct rest as [|y rest].
  - simpl in Hlast. injection Hlast as ->. lra.
  - rewrite last_cons_cons in Hlast. specialize (IH (S idx) Hlast Hle).
    simpl in *. lia.
Qed.

Lemma advance_lt (cum : list num) (target total : num) (idx : nat) :
  last cum = Some total -> (target <= total)%Q -> (idx < length cum)%nat ->
  (advance cum target idx < length cum)%nat.
Proof.
  intros Hlast Hle Hidx. unfold advance.
  assert (Hd : last (drop idx cum) = Some total).
  { rewrite last_lookup, lookup_drop, length_drop.
    rewrite last_lookup in Hlast.
    by replace (idx + pred (length cum - idx))%nat with (pred (length cum)) by lia. }
  pose proof (skipBelow_lt target _ idx total Hd Hle) as H.
  rewrite length_drop in H. lia.
Qed.

(** The loop never runs out of turns: all amounts of fuel that cover the
    markers still allowed give the same result. *)
Lemma sampleLoop_fuel (poly : list XY) (cum : list num) (total spacing : num)
    (maxCount fuel fuel' : nat) (target : num) (idx : nat) (out : list RouteMarker) :
  (maxCount - length out <= fuel)%nat ->
  (maxCount - length out <= fuel')%nat ->
  sampleLoop fuel poly cum total spacing maxCount target idx out
  = sampleLoop fuel' poly cum total spacing maxCount target idx out.
Proof.
  revert fuel' target idx out.
  induction fuel as [|fuel IH]; intros fuel' target idx out H1 H2.
  - destruct fuel' as [|fuel']; simpl; [done|].
    destruct (Qlt_le_dec target total); [|done].
    destruct (Nat.ltb_spec (length out) maxCount); [lia|done].
  - destruct fuel' as [|fuel']; simpl.
    + destruct (Qlt_le_dec target total); [|done].
      destruct (Nat.ltb_spec (length out) maxCount); [lia|done].
    + destruct (Qlt_le_dec target total); [|done].
      destruct (Nat.ltb_spec (length out) maxCount); [|done].
      destruct (length poly <=? _)%nat; [done|].
      apply IH; rewrite length_app; simpl; lia.
Qed.

Lemma targetList_total (fuel : nat) (total total' spacing : num) (room : nat)
    (target : num) :
  (total == total')%Q ->
  targetList fuel total spacing room target
  = targetList fuel total' spacing room target.
Proof.
  intros Heq. revert room target.
  induction fuel as [|fuel IH]; intros room target; simpl; [done|].
  destruct (Qlt_le_dec target total), (Qlt_le_dec target total');
    try (exfalso; lra); [|done].
  destruct room; [done|]. by rewrite IH.
Qed.

(** The covered distances of the markers are the targets below the total
    length, one after the other. *)
Lemma sampleLoop_covered (poly : list XY) (cum : list num) (total spacing : num)
    (maxCount : nat) :
  length cum = length poly ->
  last cum = Some total ->
  forall fuel target idx out,
    (idx < length cum)%nat ->
    coveredDistance <$> sampleLoop fuel poly cum total spacing maxCount
                          target idx out
    = (coveredDistance <$> out)
        ++ targetList fuel total spacing (maxCount - length out) target.
Proof.
  intros Hlen Hlast.
  induction fuel as [|fuel IH]; intros target idx out Hidx; simpl.
  - by rewrite app_nil_r.
  - destruct (Qlt_le_dec target total) as [Hlt|Hge]; [|by rewrite app_nil_r].
    destruct (Nat.ltb_spec (length out) maxCount) as [Hroom|Hfull].
    + pose proof (advance_lt cum target total idx Hlast (Qlt_le_weak _ _ Hlt) Hidx)
        as Hadv.
      destruct (Nat.leb_spec (length poly) (advance cum target idx)); [lia|].
      rewrite IH by exact Hadv.
      rewrite fmap_app, length_app. simpl.
      replace (maxCount - length out)%nat
        with (S (maxCount - (length out + 1))) by lia.
      by rewrite <- app_assoc.
    + replace (maxCount - length out)%nat with 0%nat by lia.
      by rewrite app_nil_r.
Qed.

(** C6.  For a path whose length (the sum of the haversine distances of
    its segments) is 1000, a straight one or not, spacing 100 and the cap
    of 400 give exactly nine markers, at the covered distances 100, 200,
    ..., 900: none beyond 900, none at 1000. *)
Theorem sampleEveryMeters_1000 (poly : list XY) :
  (totalOf haversine poly == 1000)%Q ->
  coveredDistance <$> sampleEveryMeters haversine poly 100 400
  = [100; 200; 300; 400; 500; 600; 700; 800; 900]%Q
  /\ length (sampleEveryMeters haversine poly 100 400) = 9%nat
  /\ Forall (fun m => (coveredDistance m <= 900)%Q)
            (sampleEveryMeters haversine poly 100 400).
Proof.
  intros Htotal.
  assert (Hcov : coveredDistance <$> sampleEveryMeters haversine poly 100 400
                 = [100; 200; 300; 400; 500; 600; 700; 800; 900]%Q).
  { unfold sampleEveryMeters. destruct poly as [|p0 ps].
    - unfold totalOf in Htotal. simpl in Htotal. vm_compute in Htotal. discriminate.
    - destruct (Qeq_dec _ 0) as [H0|_]; [rewrite H0 in Htotal; vm_compute in Htotal; discriminate|].
      rewrite (sampleLoop_covered (p0 :: ps) (cumOf haversine (p0 :: ps))
                 (totalOf haversine (p0 :: ps)) 100 400).
      + rewrite (targetList_total _ _ 1000 _ _ _ Htotal). reflexivity.
      + apply cumOf_length.
      + unfold totalOf. destruct (last _) eqn:E; [done|].
        apply last_None in E. discriminate.
      + rewrite cumOf_length. simpl.
        destruct ps as [|p1 ps]; [|simpl; lia].
        unfold totalOf in Htotal. simpl in Htotal. vm_compute in Htotal. discriminate. }
  split; [exact Hcov|]. split.
  - rewrite <- (length_fmap coveredDistance), Hcov. reflexivity.
  - apply (proj1 (Forall_fmap coveredDistance (fun d : num => (d <= 900)%Q) _)).
    rewrite Hcov. repeat (constructor; [simpl; lra|]). constructor.
Qed.
End SamplerFacts.

Lemma sampleEveryMeters_1000_witness :
  (totalOf northing straightPath == 1000)%Q
  /\ coveredDistance <$> sampleEveryMeters northing straightPath 100 400
     = [100; 200; 300; 400; 500; 600; 700; 800; 900]%Q.
Proof.
  split; [reflexivity|].
  apply (sampleEveryMeters_1000 northing straightPath). reflexivity.
Defined.

(** A path of no vertex, of one vertex, or of length 0 has no markers. *)
Lemma sampleEveryMeters_degenerate (haversine : XY -> XY -> num) (p : XY)
    (poly : list XY) (spacing : num) (maxCount : nat) :
  sampleEveryMeters haversine [] spacing maxCount = []
  /\ sampleEveryMeters haversine [p] spacing maxCount = []
  /\ ((totalOf haversine poly == 0)%Q ->
      sampleEveryMeters haversine poly spacing maxCount = []).
Proof.
  split; [done|]. split; [done|].
  intros H0. unfold sampleEveryMeters. destruct poly; [done|].
  by destruct (Qeq_dec _ 0).
Qed.

(** ** Up to five distinct routes *)

#[local] Arguments Nat.leb : simpl never.
#[local] Arguments Nat.ltb : simpl never.

Lemma feed_full (rs out : list OSRMRoute) (seen : gset string) :
  (LIMIT <= length out)%nat -> feed rs out seen = (out, seen).
Proof.
  intros H. destruct rs; simpl; [done|].
  by destruct (Nat.leb_spec LIMIT (length out)); [|lia].
Qed.

Lemma stage1Loop_feed (rs out : list OSRMRoute) (seen : gset string) :
  (length out < LIMIT)%nat -> stage1Loop rs out seen = feed rs out seen.
Proof.
  revert out seen. induction rs as [|r rs IH]; intros out seen Hlt; simpl; [done|].
  destruct (Nat.leb_spec LIMIT (length out)); [lia|].
  destruct (decide (sigForRoute r ∈ seen)); [by apply IH|].
  destruct (Nat.leb_spec LIMIT (length (out ++ [r]))) as [Hfull|Hroom].
  - by rewrite feed_full.
  - by apply IH.
Qed.

Lemma viaLoop_feed (env : Env) (a b : Coord) (callno : nat) (vias : list Coord)
    (out : list OSRMRoute) (seen : gset string) :
  viaLoop env a b callno vias out seen
  = feed (viaArrivals env a b callno vias) out seen.
Proof.
  revert callno out seen.
  induction vias as [|via rest IH]; intros callno out seen; simpl; [done|].
  destruct (Nat.leb_spec LIMIT (length out)) as [Hfull|Hroom].
  - by rewrite feed_full.
  - destruct (viaRoute _) as [r|]; [|apply IH]. simpl.
    destruct (Nat.leb_spec LIMIT (length out)); [lia|].
    destruct (decide (sigForRoute r ∈ seen)); apply IH.
Qed.

Lemma feed_app (l1 l2 out : list OSRMRoute) (seen : gset string) :
  feed (l1 ++ l2) out seen = feed l2 (fst (feed l1 out seen)) (snd (feed l1 out seen)).
Proof.
  revert out seen. induction l1 as [|r l1 IH]; intros out seen; simpl; [done|].
  destruct (Nat.leb_spec LIMIT (length out)) as [Hfull|Hroom].
  - simpl. by rewrite feed_full.
  - destruct (decide (sigForRoute r ∈ seen)); apply IH.
Qed.

Lemma feed_firstSeen (rs out : list OSRMRoute) (seen : gset string) :
  fst (feed rs out seen) = out ++ take (LIMIT - length out) (firstSeen seen rs).
Proof.
  revert out seen. induction rs as [|r rs IH]; intros out seen; simpl.
  - by rewrite take_nil, app_nil_r.
  - destruct (Nat.leb_spec LIMIT (length out)) as [Hfull|Hroom].
    + replace (LIMIT - length out)%nat with 0%nat by lia. by rewrite app_nil_r.
    + destruct (decide (sigForRoute r ∈ seen)); [apply IH|].
      rewrite IH, length_app. simpl.
      replace (LIMIT - length out)%nat with (S (LIMIT - (length out + 1))) by lia.
      by rewrite <- app_assoc.
Qed.

Lemma firstSeen_fresh (seen : gset string) (l : list OSRMRoute) (r : OSRMRoute) :
  r ∈ firstSeen seen l -> sigForRoute r ∉ seen.
Proof.
  revert seen. induction l as [|x l IH]; intros seen; simpl.
  - by intros ?%elem_of_nil.
  - destruct (decide (sigForRoute x ∈ seen)) as [Hin|Hnew]; [apply IH|].
    intros [->|Hr]%elem_of_cons; [done|].
    apply IH in Hr. set_solver.
Qed.

Lemma firstSeen_NoDup (seen : gset string) (l : list OSRMRoute) :
  NoDup (sigForRoute <$> firstSeen seen l).
Proof.
  revert seen. induction l as [|x l IH]; intros seen; simpl; [constructor|].
  destruct (decide (sigForRoute x ∈ seen)); [apply IH|].
  rewrite fmap_cons. constructor; [|apply IH].
  intros (r & Heq & Hr)%list_elem_of_fmap.
  apply firstSeen_fresh in Hr. rewrite <- Heq in Hr. set_solver.
Qed.

Lemma firstSeen_sublist (seen : gset string) (l : list OSRMRoute) :
  firstSeen seen l `sublist_of` l.
Proof.
  revert seen. induction l as [|x l IH]; intros seen; simpl; [done|].
  destruct (decide (sigForRoute x ∈ seen)).
  - by apply sublist_cons.
  - by apply sublist_skip.
Qed.

(** A route that is kept is the first arrival with its signature. *)
Lemma firstSeen_first (seen : gset string) (l : list OSRMRoute) (r : OSRMRoute) :
  r ∈ firstSeen seen l ->
  exists l1 l2, l = l1 ++ r :: l2 /\ sigForRoute r ∉ sigForRoute <$> l1.
Proof.
  revert seen. induction l as [|x l IH]; intros seen; simpl.
  - by intros ?%elem_of_nil.
  - destruct (decide (sigForRoute x ∈ seen)) as [Hin|Hnew].
    + intros Hr. pose proof (firstSeen_fresh _ _ _ Hr) as Hfresh.
      destruct (IH _ Hr) as (l1 & l2 & -> & Hl1).
      exists (x :: l1), l2. split; [done|].
      rewrite fmap_cons. intros [Heq|?]%elem_of_cons; [|done].
      by rewrite Heq in Hfresh.
    + intros [->|Hr]%elem_of_cons.
      * exists [], l. split; [done|]. by intros ?%elem_of_nil.
      * pose proof (firstSeen_fresh _ _ _ Hr) as Hfresh.
        destruct (IH _ Hr) as (l1 & l2 & -> & Hl1).
        exists (x :: l1), l2. split; [done|].
        rewrite fmap_cons. intros [Heq|?]%elem_of_cons; [|done].
        set_solver.
Qed.

(** The routes of a fetch: the first five of the arrivals with a new
    signature.  The state of the screen has no part in them. *)
Lemma fetchFiveRoutes_routes (env : Env) (A0 B0 : Coord) (ui : UI) :
  fst (fetchFiveRoutes env A0 B0 ui)
  = take LIMIT (firstSeen ∅ (arrivals env A0 B0)).
Proof.
  unfold arrivals, fetchFiveRoutes.
  set (a := coord (nearestHint env A0)). set (b := coord (nearestHint env B0)).
  change (1 + length (makeViaCandidates a b))%nat with 13%nat.
  set (v2 := viaArrivals env a b 1 (makeViaCandidates a b)).
  set (v3 := viaArrivals env a b 13 _).
  set (first := stage1Result _).
  assert (Hall : forall rs,
    take LIMIT (fst (feed (rs ++ v2 ++ v3) [] ∅))
    = take LIMIT (firstSeen ∅ (rs ++ v2 ++ v3))).
  { intros rs. rewrite feed_firstSeen. simpl. by rewrite take_take, Nat.min_id. }
  assert (Hstage3 : forall out seen,
    (if (length out <? LIMIT)%nat
     then viaLoop env a b 13
            (makeViaCandidates (fst (farEndpoints a b)) (snd (farEndpoints a b)))
            out seen
     else (out, seen))
    = feed v3 out seen).
  { intros out seen. destruct (Nat.ltb_spec (length out) LIMIT).
    - by rewrite viaLoop_feed.
    - by rewrite feed_full. }
  rewrite <- Hall. clear Hall.
  destruct first as [msg|rs].
  - change (LIMIT <=? length (@nil OSRMRoute))%nat with false. cbv iota.
    rewrite viaLoop_feed. fold v2. rewrite app_nil_l, feed_app.
    destruct (feed v2 [] ∅) as [out seen]. cbn [fst snd].
    rewrite Hstage3. by destruct (feed v3 out seen).
  - rewrite stage1Loop_feed by (simpl; unfold LIMIT; lia).
    rewrite !feed_app.
    destruct (feed rs [] ∅) as [out seen]. cbn [fst snd].
    destruct (Nat.leb_spec LIMIT (length out)) as [Hfull|Hroom].
    + rewrite (feed_full v2 out seen Hfull). cbn [fst snd].
      by rewrite (feed_full v3 out seen Hfull).
    + rewrite viaLoop_feed. fold v2.
      destruct (feed v2 out seen) as [out2 seen2].
      cbn [fst snd]. rewrite Hstage3.
      by destruct (feed v3 out2 seen2).
Qed.

(** C1.  Whatever the two end points and whatever the servers answer, the
    list [fetchFiveRoutes] returns has at most five routes, no two of them
    with the same signature, and they stand in the order of arrival: the
    list is the first five arrivals with a new signature, each one the
    first arrival that has its signature. *)
Theorem fetchFiveRoutes_five_unique_in_order (env : Env) (A0 B0 : Coord) (ui : UI) :
  (length (fst (fetchFiveRoutes env A0 B0 ui)) <= 5)%nat
  /\ NoDup (sigForRoute <$> fst (fetchFiveRoutes env A0 B0 ui))
  /\ fst (fetchFiveRoutes env A0 B0 ui)
     = take 5 (firstSeen ∅ (arrivals env A0 B0))
  /\ fst (fetchFiveRoutes env A0 B0 ui) `sublist_of` arrivals env A0 B0
  /\ (forall r, r ∈ fst (fetchFiveRoutes env A0 B0 ui) ->
        exists l1 l2, arrivals env A0 B0 = l1 ++ r :: l2
                      /\ sigForRoute r ∉ sigForRoute <$> l1).
Proof.
  rewrite fetchFiveRoutes_routes. unfold LIMIT.
  split; [rewrite length_take; lia|]. split.
  - rewrite fmap_take. eapply sublist_NoDup; [apply firstSeen_NoDup|apply sublist_take].
  - split; [done|]. split.
    + etransitivity; [apply sublist_take|apply firstSeen_sublist].
    + intros r Hr. apply (firstSeen_first ∅).
      by apply (subseteq_take 5).
Qed.

(** ** The primary route among the views *)

(** C2.  For every candidate list that [mapToViews] is given (a list that
    [fetchFiveRoutes] returned and that is not empty), exactly one view
    is primary: the view of the route at [bestIdx], whose duration is the
    least of all and strictly less than that of every route before it.
    An index with these two properties is [bestIdx], so the choice
    depends on the candidate list alone. *)
Theorem mapToViews_one_primary (l : list OSRMRoute) :
  givenToMapToViews l ->
  exists r,
    l !! snd (mapToViews l) = Some r
    /\ primaries (fst (mapToViews l))
       = [viewOf (snd (mapToViews l)) (snd (mapToViews l)) r]
    /\ index (viewOf (snd (mapToViews l)) (snd (mapToViews l)) r)
       = Z.of_nat (snd (mapToViews l))
    /\ (forall j r', l !! j = Some r' -> (duration r <= duration r')%Q)
    /\ (forall j r', l !! j = Some r' -> (j < snd (mapToViews l))%nat ->
                     (duration r < duration r')%Q)
    /\ (forall k rk, l !! k = Some rk ->
          (forall j r', l !! j = Some r' -> (duration rk <= duration r')%Q) ->
          (forall j r', l !! j = Some r' -> (j < k)%nat ->
                        (duration rk < duration r')%Q) ->
          k = snd (mapToViews l)).
Proof.
  intros [Hne (env & A0 & B0 & ui & ->)].
  apply one_primary_among_five; [exact Hne|].
  rewrite fetchFiveRoutes_routes, length_take. unfold LIMIT. lia.
Qed.

Lemma mapToViews_one_primary_witness :
  givenToMapToViews (fst (fetchFiveRoutes generous originA northB initialUI))
  /\ exists r,
       primaries (fst (mapToViews
                         (fst (fetchFiveRoutes generous originA northB initialUI))))
       = [viewOf 0 0 r].
Proof.
  assert (H : givenToMapToViews
                (fst (fetchFiveRoutes generous originA northB initialUI))).
  { split; [vm_compute; discriminate|]. by exists generous, originA, northB, initialUI. }
  split; [exact H|].
  destruct (mapToViews_one_primary _ H) as (r & _ & Hp & _).
  exists r. exact Hp.
Defined.

(** ** The error text after a failed fetch *)

Lemma fetchFiveRoutes_errorText (env : Env) (A0 B0 : Coord) (ui : UI) (msg : string) :
  stage1Of env A0 B0 = inl msg ->
  errorText (snd (fetchFiveRoutes env A0 B0 ui)) = Some msg.
Proof.
  unfold stage1Of, fetchFiveRoutes. intros ->.
  change (LIMIT <=? length (@nil OSRMRoute))%nat with false. cbv iota.
  destruct (viaLoop _ _ _ _ _ _ _) as [out seen].
  by destruct (if (length out <? LIMIT)%nat then _ else _).
Qed.

(** C4, as worded, fails: the server answers 429 to the request with
    alternatives and no via request gets through; the text left on the
    screen is the fixed no-route message, not the message of the 429. *)
Lemma stage1_error_counterexample :
  stage1Of overloaded originA northB
  = inl "Демо-сервер перегружен (429). Повторите позже."
  /\ stage2Arrivals overloaded originA northB = []
  /\ stage3Arrivals overloaded originA northB = []
  /\ errorText (fetchRoutes overloaded (Some originA) (Some northB) initialUI)
     = Some noRouteMessage
  /\ errorText (fetchRoutes overloaded (Some originA) (Some northB) initialUI)
     <> Some "Демо-сервер перегружен (429). Повторите позже.".
Proof.
  split; [reflexivity|]. split; [reflexivity|]. split; [reflexivity|].
  split; [reflexivity|]. vm_compute. discriminate.
Qed.

(** C4, amended.  When the request with alternatives fails and the second
    and third stage bring no route, [fetchFiveRoutes] returns no route and
    leaves the message of that failure in the error text; [fetchRoutes]
    then replaces it: after the fetch the error text, and the alert, is
    the fixed no-route message, the status is the error status and the
    loading flag is off. *)
Theorem stage1_error_then_no_route (env : Env) (a b : Coord) (ui : UI) (msg : string) :
  stage1Of env a b = inl msg ->
  stage2Arrivals env a b = [] ->
  stage3Arrivals env a b = [] ->
  (forall ui', fst (fetchFiveRoutes env a b ui') = []
               /\ errorText (snd (fetchFiveRoutes env a b ui')) = Some msg)
  /\ errorText (fetchRoutes env (Some a) (Some b) ui) = Some noRouteMessage
  /\ last (alerts (fetchRoutes env (Some a) (Some b) ui))
     = Some ("OSRM", noRouteMessage)
  /\ statusKey (fetchRoutes env (Some a) (Some b) ui) = error
  /\ loading (fetchRoutes env (Some a) (Some b) ui) = false.
Proof.
  intros H1 H2 H3.
  assert (Hnone : forall ui', fst (fetchFiveRoutes env a b ui') = []).
  { intros ui'. rewrite fetchFiveRoutes_routes. unfold arrivals.
    fold (stage1Of env a b) (stage2Arrivals env a b) (stage3Arrivals env a b).
    by rewrite H1, H2, H3. }
  split.
  - intros ui'. split; [apply Hnone|]. by apply fetchFiveRoutes_errorText.
  - unfold fetchRoutes.
    destruct (fetchFiveRoutes env a b _) as [got ui1] eqn:E.
    pose proof (Hnone (setRoutes []
                  (setStatusKey loadingKey
                     (setStatusText "Строим до 5 вариантов…"
                        (setErrorText None (setLoading true ui)))))) as Hgot.
    rewrite E in Hgot. simpl in Hgot. subst got. simpl.
    split; [done|]. split; [by rewrite last_snoc|]. done.
Qed.

Lemma stage1_error_then_no_route_witness :
  stage1Of overloaded originA northB
  = inl "Демо-сервер перегружен (429). Повторите позже."
  /\ stage2Arrivals overloaded originA northB = []
  /\ stage3Arrivals overloaded originA northB = []
  /\ errorText (fetchRoutes overloaded (Some originA) (Some northB) initialUI)
     = Some noRouteMessage.
Proof.
  split; [reflexivity|]. split; [reflexivity|]. split; [reflexivity|].
  exact (proj1 (proj2 (stage1_error_then_no_route overloaded originA northB
                         initialUI _ eq_refl eq_refl eq_refl))).
Defined.

(** When a later stage does bring a route, the message of the failed
    request stays in the error text next to the routes. *)
Lemma stage1_error_kept_with_routes (env : Env) (a b : Coord) (ui : UI)
    (msg : string) :
  stage1Of env a b = inl msg ->
  fst (fetchFiveRoutes env a b
         (setRoutes []
            (setStatusKey loadingKey
               (setStatusText "Строим до 5 вариантов…"
                  (setErrorText None (setLoading true ui)))))) <> [] ->
  errorText (fetchRoutes env (Some a) (Some b) ui) = Some msg.
Proof.
  intros H1 Hsome. unfold fetchRoutes.
  pose proof (fetchFiveRoutes_errorText env a b
                (setRoutes []
                  (setStatusKey loadingKey
                     (setStatusText "Строим до 5 вариантов…"
                        (setErrorText None (setLoading true ui))))) msg H1) as He.
  destruct (fetchFiveRoutes env a b _) as [got ui1].
  simpl in Hsome, He. destruct got as [|r got]; [done|].
  by destruct (mapToViews (r :: got)).
Qed.

(** ** The suggested index *)

Lemma many_digits (q : quantifier) (k : jsstring -> option jsstring) (s : jsstring) :
  (forall s', k s' = Some []) ->
  many (mkTerm q Digit true) k s = Some (digitsPrefix s).
Proof.
  intros Hk. induction s as [|c s IH]; simpl; [apply Hk|].
  destruct (isDigit c); [|apply Hk].
  unfold keep. simpl. by rewrite IH.
Qed.

(** A search goes past a stretch of text in which no match begins. *)
Lemma search_skip (p : list term) (pre rest : jsstring) :
  (forall k, (k < length pre)%nat -> matchHere p (drop k (pre ++ rest)) = None) ->
  search p (pre ++ rest) = search p rest.
Proof.
  induction pre as [|c pre IH]; intros Hnone; [done|].
  change (search p ((c :: pre) ++ rest))
    with (match matchHere p (c :: pre ++ rest) with
          | Some g => Some g
          | None => search p (pre ++ rest)
          end).
  pose proof (Hnone 0%nat ltac:(simpl; lia)) as H0. simpl in H0. rewrite H0.
  apply IH. intros k Hk. apply (Hnone (S k)). simpl. lia.
Qed.

Lemma search_here (p : list term) (s g : jsstring) :
  matchHere p s = Some g -> search p s = Some g.
Proof. intros H. destruct s; simpl; by rewrite H. Qed.

(** The token [route_index = 7]: the group is the 7 and the digits that
    follow it. *)
Lemma matchHere_token_7 (post : jsstring) :
  matchHere reRouteIndex (utf16 "route_index = 7" ++ post)
  = Some (55%N :: digitsPrefix post).
Proof.
  pose proof (many_digits Plus (matchHere []) post (fun _ => eq_refl)) as H.
  vm_compute in H. vm_compute. rewrite H. reflexivity.
Qed.

Ltac by_digit c H :=
  apply andb_true_iff in H; destruct H as [?Hlo ?Hhi];
  apply N.leb_le in Hlo; apply N.leb_le in Hhi;
  assert (c = 48 \/ c = 49 \/ c = 50 \/ c = 51 \/ c = 52 \/ c = 53 \/ c = 54
          \/ c = 55 \/ c = 56 \/ c = 57)%N as Hc by lia;
  clear Hlo Hhi;
  repeat (destruct Hc as [->|Hc]); [..|subst c].

Ltac by_digits_after post :=
  let H := fresh in
  pose proof (many_digits Plus (matchHere []) post (fun _ => eq_refl)) as H;
  vm_compute in H; vm_compute; rewrite H; reflexivity.

(** The token [route_index = N]: the group is the run of digits. *)
Lemma matchHere_token (c : N) (post : jsstring) :
  isDigit c = true ->
  matchHere reRouteIndex (utf16 "route_index = " ++ c :: post)
  = Some (c :: digitsPrefix post).
Proof. intros H. by_digit c H; by_digits_after post. Qed.

(** The phrase in Russian, "route #N": again the run of digits. *)
Lemma matchHere_phrase (c : N) (post : jsstring) :
  isDigit c = true ->
  matchHere reMarshrut (utf16 "маршрут #" ++ c :: post)
  = Some (c :: digitsPrefix post).
Proof. intros H. by_digit c H; by_digits_after post. Qed.

Lemma digitsPrefix_digits (s : jsstring) : Forall (fun c => isDigit c = true) (digitsPrefix s).
Proof.
  induction s as [|c s IH]; simpl; [constructor|].
  destruct (isDigit c) eqn:E; by constructor.
Qed.

Lemma digitsValue_grows (acc : Z) (ds : jsstring) :
  0 <= acc -> Forall (fun c => isDigit c = true) ds ->
  acc <= foldl (fun a d => a * 10 + (Z.of_N d - 48)) acc ds.
Proof.
  intros Hacc Hds. revert acc Hacc.
  induction Hds as [|d ds Hd _ IH]; intros acc Hacc; simpl; [lia|].
  apply andb_true_iff in Hd as [Hlo%N.leb_le Hhi%N.leb_le].
  etransitivity; [|apply IH]; lia.
Qed.

(** Rounding to binary64 leaves the whole numbers below 2^53 as they
    are. *)
Lemma roundToBinary64_small (n : Z) :
  Z.abs n < 2 ^ 53 -> roundToBinary64 n = n.
Proof.
  intros Hn. unfold roundToBinary64.
  destruct (Z.leb_spec (Z.log2 (Z.abs n) - 52) 0) as [_|He]; [done|].
  exfalso.
  assert (Hpos : 0 < Z.abs n).
  { destruct (Z.eq_dec (Z.abs n) 0) as [E|E]; [rewrite E in He; simpl in He|]; lia. }
  pose proof (Z.log2_lt_pow2 (Z.abs n) 53 Hpos) as [Hlt _]. specialize (Hlt Hn). lia.
Qed.

(** What the rounding of a number from 2^53 on is made of: the 53 leading
    bits [q], rounded up or not, times the weight [2^e] of the last of
    them; the rest [r] is what the rounding drops. *)
Lemma roundToBinary64_large (n : Z) :
  2 ^ 53 <= n ->
  exists e q r q',
    1 <= e /\ n = q * 2 ^ e + r /\ 0 <= r < 2 ^ e /\ 2 ^ 52 <= q
    /\ roundToBinary64 n = q' * 2 ^ e
    /\ (q' = q /\ 2 * r <= 2 ^ e \/ q' = q + 1 /\ 2 ^ e <= 2 * r).
Proof.
  intros Hn. assert (Hpos : 0 < n) by lia.
  unfold roundToBinary64. rewrite (Z.abs_eq n) by lia.
  pose proof (Z.log2_spec n Hpos) as [Hlo Hhi].
  assert (Hl : 53 <= Z.log2 n) by (apply Z.log2_le_pow2; lia).
  set (e := Z.log2 n - 52) in *.
  destruct (Z.leb_spec e 0) as [He|He]; [lia|].
  assert (H2e : 0 < 2 ^ e) by (apply Z.pow_pos_nonneg; lia).
  assert (Hhalf : 2 * 2 ^ (e - 1) = 2 ^ e).
  { rewrite <- Z.pow_succ_r by lia. f_equal. lia. }
  assert (Hq : 2 ^ 52 <= n / 2 ^ e).
  { apply Z.div_le_lower_bound; [lia|].
    rewrite Z.mul_comm, <- Z.pow_add_r by lia.
    replace (52 + e) with (Z.log2 n) by lia. exact Hlo. }
  pose proof (Z.mod_pos_bound n (2 ^ e) H2e) as Hr.
  pose proof (Z.div_mod n (2 ^ e) ltac:(lia)) as Hdm.
  rewrite (Z.sgn_pos n) by lia. rewrite Z.mul_1_l.
  eexists e, (n / 2 ^ e), (n mod 2 ^ e), _.
  split; [lia|]. split; [lia|]. split; [lia|]. split; [lia|].
  split; [reflexivity|].
  destruct (Z.ltb_spec (2 ^ (e - 1)) (n mod 2 ^ e)) as [Hgt|Hle]; simpl.
  - right. lia.
  - destruct (Z.eqb_spec (n mod 2 ^ e) (2 ^ (e - 1))) as [Heq|Hne]; simpl.
    + destruct (Z.odd (n / 2 ^ e)); [right|left]; lia.
    + left. lia.
Qed.


Lemma roundToBinary64_ge (k n : Z) :
  0 <= k <= 2 ^ 53 -> k <= n -> k <= roundToBinary64 n.
Proof.
  intros Hk Hn. destruct (Z.lt_ge_cases n (2 ^ 53)) as [Hs|Hl].
  - rewrite roundToBinary64_small by lia. lia.
  - destruct (roundToBinary64_large n Hl)
      as (e & q & r & q' & He & Hnq & Hr & Hq & -> & Hq').
    assert (H2e : 2 <= 2 ^ e).
    { change 2 with (2 ^ 1) at 1. apply Z.pow_le_mono_r; lia. }
    assert (2 ^ 53 = 2 * 2 ^ 52) as E by reflexivity. rewrite E in Hk.
    destruct Hq' as [[-> Hh]|[-> Hh]]; nia.
Qed.

(** A suggestion is kept for no number that is 7 or more when there are
    three routes. *)
Lemma inRange_Number_from (k : Z) (routeCount : nat) (ds : jsstring) :
  Z.of_nat routeCount <= k <= 2 ^ 53 ->
  k <= digitsValue ds ->
  inRange routeCount (Number ds) = None.
Proof.
  intros Hk Hds. unfold Number, inRange.
  pose proof (roundToBinary64_ge k (digitsValue ds) ltac:(lia) Hds) as Hge.
  destruct (_ <? 2 ^ 1024); [|done].
  destruct (Z.ltb_spec (roundToBinary64 (digitsValue ds)) (Z.of_nat routeCount));
    [lia|]. by rewrite andb_false_r.
Qed.

(** What the call leaves as suggestion when the model answered with a
    text: the parsed index if it is the index of a route. *)
Lemma callGeminiAuto_suggestion (r : Render) (s : AI) (status : Z) (raw : string)
    (parts : option (list (option jsstring))) :
  res_ok status = true ->
  r_routes r <> [] ->
  aiSuggestedIndex (callGeminiAuto (GAnswer status raw (Parsed parts)) r s)
  = parseSuggestedIndex (extractText parts) ≫= inRange (length (r_routes r)).
Proof.
  intros Hok Hne. unfold callGeminiAuto.
  destruct (r_routes r) as [|v vs] eqn:E; [done|].
  rewrite Hok. simpl negb. cbv iota.
  destruct (parseSuggestedIndex (extractText parts)) as [[idx|]|]; [|done|done].
  simpl. unfold inRange.
  by destruct ((0 <=? idx) && _).
Qed.

(** C7, as worded, fails: a text can contain [route_index = 7] and leave
    a suggestion all the same.  With three routes, of the two tokens of
    "route_index = 1, then route_index = 7" the first is the one that is
    read, and route 1 is suggested. *)
Lemma later_token_counterexample :
  length (r_routes threeRoutes) = 3%nat
  /\ utf16 "route_index = 1, then route_index = 7"
     = utf16 "route_index = 1, then " ++ utf16 "route_index = 7" ++ []
  /\ aiSuggestedIndex
       (callGeminiAuto
          (GAnswer 200 ""
             (Parsed (Some [Some (utf16 "route_index = 1, then route_index = 7")])))
          threeRoutes initialAI)
     = Some 1.
Proof. repeat split; vm_compute; reflexivity. Qed.

(** C7, amended.  An answer of the model that can be read leaves as
    suggestion the parsed index if it is the index of a route, and none
    otherwise.  Each expression is matched at the leftmost place where it
    matches: a text whose leftmost [route_index = N] token has the digits
    N yields N as binary64 holds it, whatever else the text holds; a text
    without such a token whose leftmost "route #N" phrase in Russian has
    the digits N yields that number less 1; a text with neither yields
    nothing.  So with three routes a text whose leftmost token reads
    [route_index = 7] leaves no suggestion. *)
Theorem suggested_index_parsed_and_checked (r : Render) (s : AI) (status : Z)
    (raw : string) (parts : option (list (option jsstring))) :
  res_ok status = true ->
  r_routes r <> [] ->
  aiSuggestedIndex (callGeminiAuto (GAnswer status raw (Parsed parts)) r s)
  = parseSuggestedIndex (extractText parts) ≫= inRange (length (r_routes r))
  /\ (forall routeCount idx i,
        inRange routeCount idx = Some i <->
        idx = Finite i /\ 0 <= i < Z.of_nat routeCount)
  /\ (forall pre c post,
        isDigit c = true ->
        (forall k, (k < length pre)%nat ->
           matchHere reRouteIndex
             (drop k (pre ++ utf16 "route_index = " ++ c :: post)) = None) ->
        parseSuggestedIndex (pre ++ utf16 "route_index = " ++ c :: post)
        = Some (Number (c :: digitsPrefix post)))
  /\ (forall pre c post,
        isDigit c = true ->
        search reRouteIndex (pre ++ utf16 "маршрут #" ++ c :: post) = None ->
        (forall k, (k < length pre)%nat ->
           matchHere reMarshrut
             (drop k (pre ++ utf16 "маршрут #" ++ c :: post)) = None) ->
        parseSuggestedIndex (pre ++ utf16 "маршрут #" ++ c :: post)
        = Some (minusOne (Number (c :: digitsPrefix post))))
  /\ (forall ds,
        digitsValue ds < 2 ^ 53 ->
        Forall (fun c => isDigit c = true) ds ->
        Number ds = Finite (digitsValue ds)
        /\ minusOne (Number ds) = Finite (digitsValue ds - 1))
  /\ (forall txt,
        search reRouteIndex txt = None -> search reMarshrut txt = None ->
        parseSuggestedIndex txt = None)
  /\ (forall pre post,
        length (r_routes r) = 3%nat ->
        extractText parts = pre ++ utf16 "route_index = 7" ++ post ->
        (forall k, (k < length pre)%nat ->
           matchHere reRouteIndex
             (drop k (pre ++ utf16 "route_index = 7" ++ post)) = None) ->
        aiSuggestedIndex (callGeminiAuto (GAnswer status raw (Parsed parts)) r s)
        = None).
Proof.
  intros Hok Hne.
  assert (Htoken : forall pre c post,
        isDigit c = true ->
        (forall k, (k < length pre)%nat ->
           matchHere reRouteIndex
             (drop k (pre ++ utf16 "route_index = " ++ c :: post)) = None) ->
        parseSuggestedIndex (pre ++ utf16 "route_index = " ++ c :: post)
        = Some (Number (c :: digitsPrefix post))).
  { intros pre c post Hc Hpre. unfold parseSuggestedIndex.
    rewrite (search_skip _ _ _ Hpre).
    by rewrite (search_here _ _ _ (matchHere_token c post Hc)). }
  split; [by apply callGeminiAuto_suggestion|]. split.
  { intros routeCount [i'|] i; simpl; [|split; [done|by intros [? _]]].
    destruct (Z.leb_spec 0 i'), (Z.ltb_spec i' (Z.of_nat routeCount)); simpl;
      split; try done; try (intros [[= ->] ?]; lia).
    - by intros [= ->].
    - by intros [[= ->] _]. }
  split; [exact Htoken|]. split.
  { intros pre c post Hc Hnone Hpre. unfold parseSuggestedIndex.
    rewrite Hnone, (search_skip _ _ _ Hpre).
    by rewrite (search_here _ _ _ (matchHere_phrase c post Hc)). }
  split.
  { intros ds Hsmall Hds.
    pose proof (digitsValue_grows 0 ds ltac:(lia) Hds) as Hge.
    fold (digitsValue ds) in Hge.
    assert (HN : Number ds = Finite (digitsValue ds)).
    { unfold Number. rewrite roundToBinary64_small by lia.
      destruct (Z.ltb_spec (digitsValue ds) (2 ^ 1024)) as [_|Hbig]; [done|].
      exfalso. assert (2 ^ 53 < 2 ^ 1024) by (apply Z.pow_lt_mono_r; lia). lia. }
    split; [exact HN|]. rewrite HN. simpl.
    by rewrite roundToBinary64_small by lia. }
  split.
  - intros txt H1 H2. unfold parseSuggestedIndex. by rewrite H1, H2.
  - intros pre post Hlen Htxt Hpre.
    rewrite callGeminiAuto_suggestion by done. rewrite Htxt, Hlen.
    change (utf16 "route_index = 7" ++ post)
      with (utf16 "route_index = " ++ 55%N :: post) in *.
    rewrite (Htoken pre 55%N post eq_refl Hpre). simpl.
    apply (inRange_Number_from 7); [split; [simpl; lia|done]|].
    apply (digitsValue_grows 7 (digitsPrefix post) ltac:(lia)
             (digitsPrefix_digits post)).
Qed.

Lemma suggested_index_parsed_and_checked_witness :
  res_ok 200 = true /\ r_routes threeRoutes <> []
  /\ aiSuggestedIndex
       (callGeminiAuto
          (GAnswer 200 "" (Parsed (Some [Some (utf16 "Совет: route_index = 7.")])))
          threeRoutes initialAI)
     = None.
Proof.
  split; [reflexivity|]. split; [done|].
  refine (proj2 (proj2 (proj2 (proj2 (proj2 (proj2
    (suggested_index_parsed_and_checked threeRoutes initialAI 200 ""
       (Some [Some (utf16 "Совет: route_index = 7.")]) eq_refl _))))))
    (utf16 "Совет: ") (utf16 ".") eq_refl eq_refl _).
  - done.
  - intros k Hk.
    do 7 (destruct k as [|k]; [reflexivity|]).
    simpl in Hk. lia.
Defined.

(** The patterns at work: the token with other spacing and in capitals,
    the token before and after the phrase, the phrase alone, a phrase
    that counts from 0, a text with neither; an old letter form that the
    [i] flag takes for the last letter of the Russian word, so that the
    first phrase is the one read; and a run of digits that binary64 does
    not hold. *)
Example parse_examples :
  parseSuggestedIndex (utf16 "ROUTE-INDEX=2") = Some (Finite 2)
  /\ parseSuggestedIndex (utf16 "Маршрут #3 (route index = 1)") = Some (Finite 1)
  /\ parseSuggestedIndex (utf16 "route_index = 0, маршрут #3") = Some (Finite 0)
  /\ parseSuggestedIndex (utf16 "Лучший: МАРШРУТ # 2.") = Some (Finite 1)
  /\ parseSuggestedIndex (utf16 "маршрут #0") = Some (Finite (-1))
  /\ parseSuggestedIndex (utf16 "route index: 2") = None
  /\ parseSuggestedIndex (utf16 "маршруᲄ #1 маршрут #3") = Some (Finite 0)
  /\ parseSuggestedIndex (utf16 "route_index=9007199254740993")
     = Some (Finite 9007199254740992).
Proof. repeat split; vm_compute; reflexivity. Qed.

(** ** Suppression of repeated summaries *)

Lemma routesSignature_sameKey (rs1 rs2 : list RouteView) :
  Forall2 sameSummaryKey rs1 rs2 -> routesSignature rs1 = routesSignature rs2.
Proof.
  intros H. unfold routesSignature. f_equal.
  induction H as [|r1 r2 rs1 rs2 (Hi & Hd & Ht & Hn) _ IH]; [done|].
  rewrite !fmap_cons, IH, Hi, Hd, Ht, Hn. done.
Qed.

Lemma append_nonempty (s1 s2 : string) : s2 <> "" -> s1 +:+ s2 <> "".
Proof. destruct s1; simpl; [done|discriminate]. Qed.

Lemma append_nonempty_l (s1 s2 : string) : s1 <> "" -> s1 +:+ s2 <> "".
Proof. destruct s1; simpl; [done|discriminate]. Qed.

(** The signature of a route set that is not empty is not the empty
    text, the signature recorded at the start. *)
Lemma routesSignature_nonempty (rs : list RouteView) :
  rs <> [] -> routesSignature rs <> "".
Proof.
  destruct rs as [|r rs]; [done|]. intros _. unfold routesSignature.
  rewrite fmap_cons. simpl String.concat.
  destruct (_ <$> rs).
  - apply append_nonempty. discriminate.
  - apply append_nonempty_l, append_nonempty. discriminate.
Qed.

Lemma autoAiEffect_records (r : Render) (s : AI) :
  autoAiEnabled r = true -> r_routes r <> [] ->
  lastAiSignatureRef (autoAiEffect r s) = routesSignature (r_routes r).
Proof.
  intros Hen Hne. unfold autoAiEffect. rewrite Hen.
  destruct (r_routes r) as [|v vs] eqn:E; [done|]. simpl.
  destruct (String.eqb_spec (routesSignature (v :: vs)) (lastAiSignatureRef s));
    [done|reflexivity].
Qed.

(** An effect whose signature is the recorded one changes nothing. *)
Lemma autoAiEffect_skip (r : Render) (s : AI) :
  lastAiSignatureRef s = routesSignature (r_routes r) -> autoAiEffect r s = s.
Proof.
  intros H. unfold autoAiEffect.
  destruct (negb (autoAiEnabled r) || _); [done|].
  by rewrite H, String.eqb_refl.
Qed.

Lemma fire_outbound (replies : nat -> GeminiReply) (pending : list Render)
    (n : nat) (s : AI) :
  Forall (fun r => r_routes r <> []) pending ->
  length (outbound (fire replies n pending s))
  = (length (outbound s) + length pending)%nat.
Proof.
  intros H. revert n s.
  induction H as [|r pending Hr _ IH]; intros n s; simpl; [lia|].
  rewrite IH.
  assert (Hcall : length (outbound (callGeminiAuto (replies n) r s))
                  = S (length (outbound s))).
  { unfold callGeminiAuto. destruct (r_routes r) eqn:E; [done|].
    destruct (replies n) as [msg|status raw json]; simpl.
    - rewrite length_app. simpl. lia.
    - destruct (negb (res_ok status)); simpl; [rewrite length_app; simpl; lia|].
      destruct json as [msg|parts]; simpl; [rewrite length_app; simpl; lia|].
      destruct (parseSuggestedIndex _) as [[idx|]|]; simpl.
      + destruct (_ && _); simpl; rewrite length_app; simpl; lia.
      + rewrite length_app; simpl; lia.
      + rewrite length_app; simpl; lia. }
  lia.
Qed.

(** C8.  Two runs of the effect on route sets that agree, route by route,
    in index, rounded distance, rounded duration and number of turns: the
    first one, whose signature differs from the recorded one, records the
    signature and schedules one call; the second one finds its signature
    recorded and does nothing.  When the timers have fired, exactly one
    request has gone out. *)
Theorem one_request_for_unchanged_routes (replies : nat -> GeminiReply)
    (r1 r2 : Render) (s : AI) :
  autoAiEnabled r1 = true ->
  autoAiEnabled r2 = true ->
  r_routes r1 <> [] ->
  Forall2 sameSummaryKey (r_routes r1) (r_routes r2) ->
  timers s = [] ->
  lastAiSignatureRef s <> routesSignature (r_routes r1) ->
  routesSignature (r_routes r2) = lastAiSignatureRef (autoAiEffect r1 s)
  /\ autoAiEffect r2 (autoAiEffect r1 s) = autoAiEffect r1 s
  /\ timers (autoAiEffect r2 (autoAiEffect r1 s)) = [r1]
  /\ length (outbound (runTimers replies (autoAiEffect r2 (autoAiEffect r1 s))))
     = S (length (outbound s)).
Proof.
  intros Hen1 Hen2 Hne Hsame Htimers Hfresh.
  pose proof (routesSignature_sameKey _ _ Hsame) as Hsig.
  pose proof (autoAiEffect_records r1 s Hen1 Hne) as Hrec.
  assert (Hskip : autoAiEffect r2 (autoAiEffect r1 s) = autoAiEffect r1 s)
    by (apply autoAiEffect_skip; congruence).
  assert (Hfirst : autoAiEffect r1 s
                   = setTimers (timers s ++ [r1])
                       (setLastAiSignature (routesSignature (r_routes r1)) s)).
  { unfold autoAiEffect. rewrite Hen1.
    destruct (r_routes r1) as [|v vs] eqn:E; [done|]. simpl.
    destruct (String.eqb_spec (routesSignature (v :: vs)) (lastAiSignatureRef s));
      [congruence|done]. }
  split; [congruence|]. split; [exact Hskip|].
  rewrite Hskip, Hfirst, Htimers. split; [done|].
  unfold runTimers. simpl timers. rewrite fire_outbound; [simpl; lia|].
  by constructor.
Qed.

Lemma one_request_for_unchanged_routes_witness :
  length (outbound (runTimers (fun _ => GRejected None)
                      (autoAiEffect threeRoutes (autoAiEffect threeRoutes initialAI))))
  = 1%nat.
Proof.
  refine (proj2 (proj2 (proj2
    (one_request_for_unchanged_routes (fun _ => GRejected None)
       threeRoutes threeRoutes initialAI eq_refl eq_refl _ _ eq_refl _)))).
  - done.
  - repeat constructor.
  - vm_compute. discriminate.
Defined.

(** On a freshly mounted screen the first run is never skipped. *)
Lemma first_run_is_fresh (r : Render) :
  r_routes r <> [] -> lastAiSignatureRef initialAI <> routesSignature (r_routes r).
Proof. intros H Heq. by apply (routesSignature_nonempty _ H). Qed.

(** C10.  The signature is made of the routes alone: two renders with the
    same routes and different selections have the same signature, and
    after a run of the effect a run on a render that differs in the
    selection only, or on the screen after [selectRouteOnly], changes
    nothing: no call is scheduled and no request goes out. *)
Theorem selection_change_sends_nothing (replies : nat -> GeminiReply)
    (enabled : bool) (rs : list RouteView) (sel1 sel2 k : Z) (ui : UI) (s : AI) :
  routesSignature (r_routes (mkRender enabled rs sel1))
  = routesSignature (r_routes (mkRender enabled rs sel2))
  /\ autoAiEffect (mkRender enabled rs sel2) (autoAiEffect (mkRender enabled rs sel1) s)
     = autoAiEffect (mkRender enabled rs sel1) s
  /\ autoAiEffect (renderOf enabled (selectRouteOnly k ui))
                  (autoAiEffect (renderOf enabled ui) s)
     = autoAiEffect (renderOf enabled ui) s
  /\ outbound (runTimers replies
                 (autoAiEffect (mkRender enabled rs sel2)
                    (autoAiEffect (mkRender enabled rs sel1) s)))
     = outbound (runTimers replies (autoAiEffect (mkRender enabled rs sel1) s)).
Proof.
  assert (Hskip : forall rs' a b,
    autoAiEffect (mkRender enabled rs' b) (autoAiEffect (mkRender enabled rs' a) s)
    = autoAiEffect (mkRender enabled rs' a) s).
  { intros rs' a b. destruct enabled.
    - destruct rs' as [|v vs]; [done|].
      apply autoAiEffect_skip. simpl.
      by rewrite (autoAiEffect_records (mkRender true (v :: vs) a) s).
    - reflexivity. }
  split; [reflexivity|]. split; [apply Hskip|]. split.
  - unfold renderOf. simpl. apply Hskip.
  - by rewrite Hskip.
Qed.
(** * Binary64 rounding *)

Lemma roundEven_close (y : Q) : (Qabs (inject_Z (roundEven y) - y) <= 1 # 2)%Q.
Proof.
  unfold roundEven.
  pose proof (Qfloor_le y) as Hlo. pose proof (Qlt_floor y) as Hhi.
  rewrite inject_Z_plus in Hhi. change (inject_Z 1) with 1%Q in Hhi.
  destruct (y - inject_Z (Qfloor y) ?= 1 # 2)%Q eqn:E.
  - apply Qeq_alt in E.
    destruct (Z.even (Qfloor y));
      [|rewrite inject_Z_plus; change (inject_Z 1) with 1%Q];
      apply Qabs_case; intros; lra.
  - apply Qlt_alt in E. apply Qabs_case; intros; lra.
  - apply Qgt_alt in E. rewrite inject_Z_plus. change (inject_Z 1) with 1%Q.
    apply Qabs_case; intros; lra.
Qed.

Lemma Qpower2_pos (e : Z) : (0 < 2 ^ e)%Q.
Proof. apply Qpower_0_lt. lra. Qed.

Lemma Qpower2_inject (n : Z) : 0 <= n -> (inject_Z (2 ^ n) == 2 ^ n)%Q.
Proof. intros Hn. by rewrite Zpower_Qpower. Qed.

Lemma Qpower2_succ (e : Z) : (2 ^ (e + 1) == 2 * 2 ^ e)%Q.
Proof. rewrite Qpower_plus by lra. change (2 ^ 1)%Q with 2%Q. ring. Qed.

(** The leading bit: [2^(ilog2 a) <= a < 2^(ilog2 a + 1)]. *)
Lemma ilog2_spec (a : Q) :
  (0 < a)%Q -> (2 ^ ilog2 a <= a /\ a < 2 ^ (ilog2 a + 1))%Q.
Proof.
  intros Ha. unfold ilog2.
  destruct a as [p q]. simpl Qnum. simpl Qden.
  assert (Hp : 0 < p) by (unfold Qlt in Ha; simpl in Ha; lia).
  pose proof (Z.log2_spec p Hp) as [Hp1 Hp2].
  pose proof (Z.log2_spec (Z.pos q) ltac:(lia)) as [Hq1 Hq2].
  pose proof (Z.log2_nonneg p) as Hlp. pose proof (Z.log2_nonneg (Z.pos q)) as Hlq.
  set (lp := Z.log2 p) in *. set (lq := Z.log2 (Z.pos q)) in *.
  assert (Ea : (p # q == inject_Z p / inject_Z (Z.pos q))%Q) by apply Qmake_Qdiv.
  assert (HqQ : (0 < inject_Z (Z.pos q))%Q) by (change 0%Q with (inject_Z 0); rewrite <- Zlt_Qlt; lia).
  assert (P1 : (2 ^ lp <= inject_Z p)%Q)
    by (rewrite <- Qpower2_inject by lia; by rewrite <- Zle_Qle).
  assert (P2 : (inject_Z p < 2 ^ (lp + 1))%Q).
  { rewrite <- Qpower2_inject by lia. rewrite <- Zlt_Qlt.
    by replace (lp + 1) with (Z.succ lp) by lia. }
  assert (Q1 : (2 ^ lq <= inject_Z (Z.pos q))%Q)
    by (rewrite <- Qpower2_inject by lia; by rewrite <- Zle_Qle).
  assert (Q2 : (inject_Z (Z.pos q) < 2 ^ (lq + 1))%Q).
  { rewrite <- Qpower2_inject by lia. rewrite <- Zlt_Qlt.
    by replace (lq + 1) with (Z.succ lq) by lia. }
  assert (Hlow : (2 ^ (lp - lq - 1) <= p # q)%Q).
  { rewrite Ea. apply Qle_shift_div_l; [exact HqQ|].
    replace (lp - lq - 1) with (lp - (lq + 1)) by lia.
    rewrite Qpower_minus by lra.
    pose proof (Qpower2_pos (lq + 1)) as Hpos. pose proof (Qpower2_pos lp) as Hpos'.
    assert (E : (2 ^ lp / 2 ^ (lq + 1) * 2 ^ (lq + 1) == 2 ^ lp)%Q)
      by (field; lra).
    apply Qle_trans with (2 ^ lp / 2 ^ (lq + 1) * 2 ^ (lq + 1))%Q; [|lra].
    apply Qmult_le_l; [|lra]. apply Qlt_shift_div_l; lra. }
  assert (Hhigh : (p # q < 2 ^ (lp - lq + 1))%Q).
  { rewrite Ea. apply Qlt_shift_div_r; [exact HqQ|].
    replace (lp - lq + 1) with (lp + 1 - lq) by lia.
    rewrite Qpower_minus by lra.
    pose proof (Qpower2_pos lq) as Hpos. pose proof (Qpower2_pos (lp + 1)) as Hpos'.
    assert (E : (2 ^ (lp + 1) / 2 ^ lq * 2 ^ lq == 2 ^ (lp + 1))%Q)
      by (field; lra).
    apply Qlt_le_trans with (2 ^ (lp + 1) / 2 ^ lq * 2 ^ lq)%Q; [lra|].
    apply Qmult_le_l; [|lra]. apply Qlt_shift_div_l; lra. }
  destruct (Qle_bool (2 ^ (lp - lq)) (p # q)) eqn:E.
  - apply Qle_bool_iff in E. split; [exact E|exact Hhigh].
  - assert (Hlt : (p # q < 2 ^ (lp - lq))%Q).
    { apply Qnot_le_lt. intros H. apply Qle_bool_iff in H. congruence. }
    split; [exact Hlow|]. by replace (lp - lq - 1 + 1) with (lp - lq) by lia.
Qed.

(** Rounding is off by half the weight of the last bit at most. *)
Lemma fl_close (x : Q) : (Qabs (fl x - x) <= 2 ^ lastBit (Qabs x) / 2)%Q.
Proof.
  unfold fl. set (e := lastBit (Qabs x)).
  pose proof (Qpower2_pos e) as Ht. set (t := (2 ^ e)%Q) in *.
  pose proof (roundEven_close (Qabs x / t)) as Hm.
  set (m := inject_Z (roundEven (Qabs x / t))) in *.
  assert (Ey : (Qabs x == Qabs x / t * t)%Q) by (field; lra).
  set (y := (Qabs x / t)%Q) in *.
  apply Qabs_Qle_condition in Hm as [Hm1 Hm2].
  clearbody m y t. clear e.
  assert (N1 : (0 <= ((1 # 2) - (m - y)) * t)%Q)
    by (apply Qmult_le_0_compat; lra).
  assert (N2 : (0 <= ((m - y) + (1 # 2)) * t)%Q)
    by (apply Qmult_le_0_compat; lra).
  apply Qabs_Qle_condition.
  destruct (Qle_bool 0 x) eqn:Es.
  - apply Qle_bool_iff in Es. rewrite Qabs_pos in Ey by exact Es.
    assert (E : (1 * m * t - x == (m - y) * t)%Q) by (rewrite Ey at 1; ring).
    assert (E1 : (((1 # 2) - (m - y)) * t == t / 2 - (1 * m * t - x))%Q)
      by (rewrite E; field).
    assert (E2 : (((m - y) + (1 # 2)) * t == (1 * m * t - x) + t / 2)%Q)
      by (rewrite E; field).
    rewrite E1 in N1. rewrite E2 in N2. revert N1 N2.
    generalize (1 * m * t - x)%Q. intros u N1 N2. lra.
  - assert (Hneg : (x < 0)%Q).
    { apply Qnot_le_lt. intros H. apply Qle_bool_iff in H. congruence. }
    rewrite Qabs_neg in Ey by lra.
    assert (E : (-1 * m * t - x == - ((m - y) * t))%Q).
    { assert (E' : (x == - (y * t))%Q) by lra. rewrite E' at 1. ring. }
    assert (E1 : (((1 # 2) - (m - y)) * t == t / 2 + (-1 * m * t - x))%Q)
      by (rewrite E; field).
    assert (E2 : (((m - y) + (1 # 2)) * t == t / 2 - (-1 * m * t - x))%Q)
      by (rewrite E; field).
    rewrite E1 in N1. rewrite E2 in N2. revert N1 N2.
    generalize (-1 * m * t - x)%Q. intros u N1 N2. lra.
Qed.

Lemma ilog2_below (a : Q) (k : Z) :
  (0 < a)%Q -> (a < 2 ^ (k + 1))%Q -> ilog2 a <= k.
Proof.
  intros Ha Hk. destruct (ilog2_spec a Ha) as [Hlo _].
  assert (H : (2 ^ ilog2 a < 2 ^ (k + 1))%Q) by lra.
  apply Qpower_lt_compat_l_inv in H; [lia|lra].
Qed.

Lemma ilog2_above (a : Q) (k : Z) :
  (2 ^ k <= a)%Q -> k <= ilog2 a.
Proof.
  intros Hk. pose proof (Qpower2_pos k) as Hpos.
  destruct (ilog2_spec a ltac:(lra)) as [_ Hhi].
  assert (H : (2 ^ k < 2 ^ (ilog2 a + 1))%Q) by lra.
  apply Qpower_lt_compat_l_inv in H; [lia|lra].
Qed.

Lemma fl_of_zero (x : Q) : (x == 0)%Q -> (fl x == 0)%Q.
Proof.
  intros Hx. unfold fl.
  assert (Ha : (Qabs x == 0)%Q) by (rewrite Hx; reflexivity).
  generalize (2 ^ lastBit (Qabs x))%Q. intros t.
  assert (E : (Qabs x / t == 0)%Q) by (rewrite Ha; unfold Qdiv; ring).
  assert (Hr : roundEven (Qabs x / t) = 0).
  { unfold roundEven. rewrite (Qfloor_comp _ _ E).
    change (Qfloor 0) with 0. rewrite E. reflexivity. }
  rewrite Hr. ring.
Qed.

(** Below [2^(k+1)] in magnitude, a number is rounded to one no more than
    [2^(k-53)] away. *)
Lemma fl_absolute (x : Q) (k : Z) :
  -1022 <= k -> (Qabs x < 2 ^ (k + 1))%Q ->
  (Qabs (fl x - x) <= 2 ^ (k - 53))%Q.
Proof.
  intros Hk Hx. pose proof (Qpower2_pos (k - 53)) as Hpos.
  destruct (Qeq_dec x 0) as [E|Hne].
  - rewrite (fl_of_zero x E), E. change (Qabs (0 - 0)) with 0%Q. lra.
  - assert (Hpos' : (0 < Qabs x)%Q).
    { pose proof (Qabs_nonneg x).
      destruct (Qeq_dec (Qabs x) 0) as [E|E]; [|lra].
      exfalso. apply Hne. revert E. apply Qabs_case; intros; lra. }
    pose proof (fl_close x) as Hc.
    pose proof (ilog2_below _ _ Hpos' Hx) as Hl.
    assert (He : lastBit (Qabs x) <= k - 52) by (unfold lastBit; lia).
    assert (Hle : (2 ^ lastBit (Qabs x) <= 2 ^ (k - 52))%Q)
      by (apply Qpower_le_compat_l; [exact He|lra]).
    assert (E2 : (2 ^ (k - 52) == 2 * 2 ^ (k - 53))%Q).
    { replace (k - 52) with (k - 53 + 1) by lia. apply Qpower2_succ. }
    unfold Qdiv in Hc. change (/ 2)%Q with (1 # 2)%Q in Hc.
    revert Hc Hle E2. clear.
    generalize (2 ^ lastBit (Qabs x))%Q, (2 ^ (k - 52))%Q, (2 ^ (k - 53))%Q,
      (Qabs (fl x - x)).
    intros; lra.
Qed.

(** From [2^-1022] on in magnitude, it is off by one part in 2^53 at
    most. *)
Lemma fl_relative (x : Q) :
  (2 ^ (-1022) <= Qabs x)%Q -> (Qabs (fl x - x) <= Qabs x / 2 ^ 53)%Q.
Proof.
  intros Hx. pose proof (fl_close x) as Hc.
  pose proof (ilog2_above _ _ Hx) as Hl.
  pose proof (Qpower2_pos (-1022)) as Hpos.
  destruct (ilog2_spec (Qabs x) ltac:(lra)) as [Hlo _].
  assert (He : lastBit (Qabs x) = ilog2 (Qabs x) - 52) by (unfold lastBit; lia).
  rewrite He in Hc.
  assert (E : (2 ^ (ilog2 (Qabs x) - 52) / 2 == 2 ^ ilog2 (Qabs x) / 2 ^ 53)%Q).
  { replace (ilog2 (Qabs x) - 52) with (ilog2 (Qabs x) - 53 + 1) by lia.
    rewrite Qpower2_succ, Qpower_minus by lra. field. }
  rewrite E in Hc.
  apply Qle_trans with (1 := Hc).
  apply Qmult_le_compat_r; [exact Hlo|].
  apply Qlt_le_weak, Qinv_lt_0_compat, Qpower2_pos.
Qed.

(** * Further properties *)

(** ** Durations as text *)

Lemma Qfloor_bounds (x : Q) : (inject_Z (Qfloor x) <= x < inject_Z (Qfloor x) + 1)%Q.
Proof.
  split; [apply Qfloor_le|].
  pose proof (Qlt_floor x) as H. by rewrite inject_Z_plus in H.
Qed.

(** X1.  A duration that is not negative prints as whole hours and whole
    minutes that miss it by half a minute at most; the hours are printed
    from 3600 seconds on.  The minutes are rounded after the hours are
    split off, so they go up to 60 (3599 seconds print as 60 minutes). *)
Theorem fmtDur_within_half_a_minute (s : num) :
  (0 <= s)%Q ->
  0 <= durHours s
  /\ 0 <= durMinutes s <= 60
  /\ (s - 30 <= inject_Z (3600 * durHours s + 60 * durMinutes s) <= s + 30)%Q
  /\ ((s < 3600)%Q -> fmtDur s = string_of_Z (durMinutes s) +:+ " мин")
  /\ ((3600 <= s)%Q ->
      fmtDur s = string_of_Z (durHours s) +:+ " ч "
                   +:+ string_of_Z (durMinutes s) +:+ " мин").
Proof.
  unfold num in s. intros Hs.
  assert (Hdiv : (0 <= s / 3600)%Q).
  { unfold Qdiv. apply Qmult_le_0_compat; [exact Hs|]. by vm_compute. }
  assert (Htrunc : Math_trunc (s / 3600) = durHours s).
  { unfold Math_trunc, durHours, Math_floor.
    destruct (Qlt_le_dec (s / 3600) 0); [lra|done]. }
  pose proof (Qfloor_bounds (s / 3600)) as [Hh1 Hh2].
  fold (Math_floor (s / 3600)) in Hh1, Hh2. fold (durHours s) in Hh1, Hh2.
  assert (Hs_eq : (s == 3600 * (s / 3600))%Q) by (field; discriminate).
  set (h := durHours s) in *.
  assert (Hrem : (js_rem s 3600 == s - 3600 * inject_Z h)%Q).
  { unfold js_rem. by rewrite Htrunc. }
  pose proof (Qfloor_bounds (js_rem s 3600 / 60 + (1 # 2))) as [Hm1 Hm2].
  fold (Math_round (js_rem s 3600 / 60)) in Hm1, Hm2.
  fold (durMinutes s) in Hm1, Hm2.
  set (m := durMinutes s) in *.
  assert (Hq : (js_rem s 3600 / 60 == (s - 3600 * inject_Z h) / 60)%Q)
    by (by rewrite Hrem).
  rewrite Hq in Hm1, Hm2.
  assert (Hdiv60 : ((s - 3600 * inject_Z h) / 60 * 60 == s - 3600 * inject_Z h)%Q)
    by (field; discriminate).
  set (q := ((s - 3600 * inject_Z h) / 60)%Q) in *.
  assert (Hh0 : 0 <= h).
  { apply Z.lt_succ_r. rewrite Zlt_Qlt. unfold Z.succ.
    rewrite inject_Z_plus. change (inject_Z 0) with 0%Q.
    change (inject_Z 1) with 1%Q. lra. }
  assert (Hm0 : 0 <= m).
  { apply Z.lt_succ_r. rewrite Zlt_Qlt. unfold Z.succ.
    rewrite inject_Z_plus. change (inject_Z 0) with 0%Q.
    change (inject_Z 1) with 1%Q. lra. }
  assert (Hm60 : m <= 60).
  { apply Z.lt_succ_r. rewrite Zlt_Qlt. change (inject_Z (Z.succ 60)) with 61%Q.
    lra. }
  split; [exact Hh0|]. split; [lia|]. split.
  - rewrite inject_Z_plus, !inject_Z_mult. change (inject_Z 3600) with 3600%Q.
    change (inject_Z 60) with 60%Q. lra.
  - unfold fmtDur. fold h m. split; intros Hcmp.
    + destruct (Z.ltb_spec 0 h) as [Hpos|_]; [|done].
      exfalso. assert (Hone : (1 <= inject_Z h)%Q).
      { change 1%Q with (inject_Z 1). rewrite <- Zle_Qle. lia. }
      lra.
    + destruct (Z.ltb_spec 0 h) as [_|Hzero]; [done|].
      exfalso. assert (Hnone : (inject_Z h <= 0)%Q).
      { change 0%Q with (inject_Z 0). by rewrite <- Zle_Qle. }
      lra.
Qed.

Lemma fmtDur_within_half_a_minute_witness :
  (0 <= 3599)%Q /\ 0 <= durMinutes 3599 <= 60.
Proof.
  split; [by vm_compute|].
  exact (proj1 (proj2 (fmtDur_within_half_a_minute 3599 ltac:(by vm_compute)))).
Defined.

(** The minutes do reach 60. *)
Example fmtDur_sixty_minutes : fmtDur 3599 = "60 мин" /\ fmtDur 7195 = "1 ч 60 мин".
Proof. split; reflexivity. Qed.

(** ** The views of a fetch *)

Lemma imap_viewOf_lookup (best n : nat) (l : list OSRMRoute) (i : nat) :
  imap (fun k => viewOf best (n + k)) l !! i = viewOf best (n + i) <$> l !! i.
Proof. by rewrite list_lookup_imap. Qed.

Lemma COLORS_NoDup : NoDup COLORS.
Proof.
  compute_done.
Qed.

(** X2.  The views are the first five candidates in their order: view [i]
    has index [i], the id [route-i], the distance and duration of
    candidate [i], and is primary exactly when [i] is [bestIdx]; no two
    views have the same colour. *)
Theorem mapToViews_shape (l : list OSRMRoute) :
  length (fst (mapToViews l)) = Nat.min 5 (length l)
  /\ (forall i v, fst (mapToViews l) !! i = Some v ->
        exists r, l !! i = Some r
                  /\ index v = Z.of_nat i
                  /\ rv_id v = "route-" +:+ string_of_nat i
                  /\ rv_distance v = distance r
                  /\ rv_duration v = duration r
                  /\ coords v = toXY <$> coordinates r
                  /\ isPrimary v = Nat.eqb i (snd (mapToViews l)))
  /\ NoDup (color <$> fst (mapToViews l)).
Proof.
  unfold mapToViews. cbn [fst snd]. split; [|split].
  - by rewrite length_imap, length_take.
  - intros i v Hv. rewrite list_lookup_imap in Hv.
    destruct (take 5 l !! i) as [r|] eqn:Hr; [|done].
    injection Hv as <-. apply lookup_take_Some in Hr as [Hr _].
    exists r. by repeat split.
  - apply NoDup_alt. intros i j c Hi Hj.
    rewrite list_lookup_fmap, list_lookup_imap in Hi, Hj.
    destruct (take 5 l !! i) as [ri|] eqn:Hri; [|done].
    destruct (take 5 l !! j) as [rj|] eqn:Hrj; [|done].
    apply lookup_take_Some in Hri as [_ Hi5], Hrj as [_ Hj5].
    injection Hi as Hi. injection Hj as Hj.
    change (COLORS !!! (i mod length COLORS)%nat = c) in Hi.
    change (COLORS !!! (j mod length COLORS)%nat = c) in Hj.
    assert (Hcol : forall k, (k < 5)%nat ->
              COLORS !! k = Some (COLORS !!! (k mod length COLORS)%nat)).
    { intros k Hk. do 5 (destruct k as [|k]; [reflexivity|]). lia. }
    pose proof (Hcol i Hi5) as Hci. pose proof (Hcol j Hj5) as Hcj.
    rewrite Hi in Hci. rewrite Hj in Hcj.
    by apply (NoDup_lookup COLORS i j c COLORS_NoDup).
Qed.

Lemma imap_steps_nodes (idx legIndex : nat) (ss : list OSRMStep) (n : nat) :
  Forall (fun t => routeIndex t = Z.of_nat idx /\ street t <> "")
    (imap (fun stepIndex s =>
      mkTurnNode
        ("r" +:+ string_of_nat idx +:+ "-l" +:+ string_of_nat legIndex
             +:+ "-s" +:+ string_of_nat (n + stepIndex))
        (toXY (location (maneuver s)))
        (if truthy (step_name s) then step_name s else "Без названия")
        (buildInstruction s)
        (modifier (maneuver s))
        (step_distance s)
        (step_duration s)
        (Z.of_nat idx)) ss).
Proof.
  revert n. induction ss as [|s ss IH]; intros n; [constructor|].
  rewrite imap_cons. constructor.
  - simpl. split; [done|].
    unfold truthy. destruct (String.eqb_spec (step_name s) ""); simpl; [done|done].
  - erewrite imap_ext; [apply (IH (S n))|].
    intros k x _. simpl. do 3 f_equal. by rewrite Nat.add_succ_r.
Qed.

(** X3.  The turn nodes of a view: one per step of the route, all legs
    taken together; each carries the index of its view and a street name
    that is not empty (a step without a name gets the fallback label). *)
Theorem turnNodes_of_views (l : list OSRMRoute) (i : nat) (v : RouteView) :
  fst (mapToViews l) !! i = Some v ->
  exists r, l !! i = Some r
    /\ length (turnNodes v) = sum_list (length ∘ steps <$> legs r)
    /\ Forall (fun t => routeIndex t = index v /\ street t <> "") (turnNodes v).
Proof.
  unfold mapToViews. cbn [fst]. intros Hv. rewrite list_lookup_imap in Hv.
  destruct (take 5 l !! i) as [r|] eqn:Hr; [|done].
  injection Hv as <-. apply lookup_take_Some in Hr as [Hr _].
  exists r. split; [done|]. simpl. unfold turnNodesOf.
  assert (Hgen : forall (ls : list OSRMLeg) (n : nat),
    length (concat (imap (fun legIndex leg =>
      imap (fun stepIndex s =>
        mkTurnNode
          ("r" +:+ string_of_nat i +:+ "-l" +:+ string_of_nat (n + legIndex)
               +:+ "-s" +:+ string_of_nat stepIndex)
          (toXY (location (maneuver s)))
          (if truthy (step_name s) then step_name s else "Без названия")
          (buildInstruction s) (modifier (maneuver s))
          (step_distance s) (step_duration s) (Z.of_nat i)) (steps leg)) ls))
    = sum_list (length ∘ steps <$> ls)
    /\ Forall (fun t => routeIndex t = Z.of_nat i /\ street t <> "")
         (concat (imap (fun legIndex leg =>
      imap (fun stepIndex s =>
        mkTurnNode
          ("r" +:+ string_of_nat i +:+ "-l" +:+ string_of_nat (n + legIndex)
               +:+ "-s" +:+ string_of_nat stepIndex)
          (toXY (location (maneuver s)))
          (if truthy (step_name s) then step_name s else "Без названия")
          (buildInstruction s) (modifier (maneuver s))
          (step_distance s) (step_duration s) (Z.of_nat i)) (steps leg)) ls))).
  { induction ls as [|leg ls IH]; intros n; [by split; [|constructor]|].
    rewrite imap_cons. cbn [concat]. rewrite length_app, Forall_app.
    rewrite fmap_cons. cbn [sum_list sum_list_with].
    destruct (IH (S n)) as [IHlen IHall].
    erewrite (imap_ext _ (fun legIndex leg => imap _ (steps leg)) ls) in IHlen.
    2:{ intros k x _. simpl. reflexivity. }
    split.
    - rewrite length_imap. simpl. f_equal.
      etransitivity; [|exact IHlen]. f_equal. f_equal.
      apply imap_ext. intros k x _. simpl.
      apply imap_ext. intros k' s _. do 3 f_equal. by rewrite Nat.add_succ_r.
    - split.
      + pose proof (imap_steps_nodes i (n + 0) (steps leg) 0) as H.
        erewrite imap_ext; [exact H|]. intros k s _. reflexivity.
      + erewrite imap_ext; [exact IHall|].
        intros k x _. simpl.
        apply imap_ext. intros k' s _. do 3 f_equal. by rewrite Nat.add_succ_r. }
  destruct (Hgen (legs r) 0%nat) as [Hlen Hall]. by split.
Qed.

Lemma turnNodes_of_views_witness :
  fst (mapToViews withTwoLegs) !! 1%nat = Some (viewOf 0 1 twoLegs)
  /\ length (turnNodes (viewOf 0 1 twoLegs)) = 3%nat
  /\ Forall (fun t => routeIndex t = 1 /\ street t <> "")
            (turnNodes (viewOf 0 1 twoLegs))
  /\ street <$> turnNodes (viewOf 0 1 twoLegs)
     = ["Абая"; "Без названия"; "Без названия"].
Proof.
  destruct (turnNodes_of_views withTwoLegs 1 (viewOf 0 1 twoLegs) eq_refl)
    as (r & Hr & Hlen & Hall).
  injection Hr as <-.
  split; [reflexivity|]. split; [exact Hlen|]. split; [exact Hall|]. reflexivity.
Defined.

(** ** What a fetch does and does not do *)

Lemma firstSeen_prefix_enough (seen : gset string) (l1 l2 : list OSRMRoute) (n : nat) :
  (n <= length (firstSeen seen l1))%nat ->
  take n (firstSeen seen (l1 ++ l2)) = take n (firstSeen seen l1).
Proof.
  revert seen n. induction l1 as [|r l1 IH]; intros seen n Hn; simpl in *.
  - replace n with 0%nat by lia. done.
  - destruct (decide (sigForRoute r ∈ seen)); [by apply IH|].
    destruct n as [|n]; [done|]. simpl in *. f_equal. apply IH. lia.
Qed.

Lemma firstSeen_app (seen : gset string) (l1 l2 : list OSRMRoute) :
  exists seen', firstSeen seen (l1 ++ l2) = firstSeen seen l1 ++ firstSeen seen' l2.
Proof.
  revert seen. induction l1 as [|r l1 IH]; intros seen; simpl; [by exists seen|].
  destruct (decide (sigForRoute r ∈ seen)); [apply IH|].
  destruct (IH (seen ∪ {[sigForRoute r]})) as [seen' ->]. by exists seen'.
Qed.

Lemma firstSeen_nil (l : list OSRMRoute) : firstSeen ∅ l = [] <-> l = [].
Proof.
  split; [|by intros ->]. destruct l as [|r l]; [done|]. simpl.
  destruct (decide (sigForRoute r ∈ ∅)) as [Hin|]; [|done].
  by apply not_elem_of_empty in Hin.
Qed.

Lemma no_route_iff_no_arrival (env : Env) (a b : Coord) :
  take 5 (firstSeen ∅ (arrivals env a b)) = [] <-> arrivals env a b = [].
Proof.
  rewrite <- (firstSeen_nil (arrivals env a b)).
  destruct (firstSeen ∅ (arrivals env a b)); by split.
Qed.

(** X4.  The alternatives come first: the result begins with the
    alternatives of different signatures, up to five of them, and the
    via requests only add to these.  When the request with alternatives
    brings five, they are the result, whatever the via requests would
    have answered. *)
Theorem five_alternatives_suffice (env : Env) (A0 B0 : Coord) (ui : UI)
    (rs : list OSRMRoute) :
  stage1Of env A0 B0 = inr rs ->
  take 5 (firstSeen ∅ rs) `prefix_of` fst (fetchFiveRoutes env A0 B0 ui)
  /\ ((5 <= length (firstSeen ∅ rs))%nat ->
      fst (fetchFiveRoutes env A0 B0 ui) = take 5 (firstSeen ∅ rs)).
Proof.
  intros Hrs. rewrite fetchFiveRoutes_routes. unfold arrivals.
  fold (stage1Of env A0 B0). rewrite Hrs. unfold LIMIT. split.
  - destruct (firstSeen_app ∅ rs
                (viaArrivals env (coord (nearestHint env A0)) (coord (nearestHint env B0)) 1
                   (makeViaCandidates (coord (nearestHint env A0))
                      (coord (nearestHint env B0)))
                 ++ viaArrivals env (coord (nearestHint env A0))
                      (coord (nearestHint env B0)) 13
                      (makeViaCandidates
                         (fst (farEndpoints (coord (nearestHint env A0))
                                 (coord (nearestHint env B0))))
                         (snd (farEndpoints (coord (nearestHint env A0))
                                 (coord (nearestHint env B0)))))))
      as [seen' ->].
    rewrite take_app. apply prefix_app_r. done.
  - intros Hfive. by apply firstSeen_prefix_enough.
Qed.

Lemma five_alternatives_suffice_witness :
  stage1Of generous originA northB = inr fiveAlternatives
  /\ (5 <= length (firstSeen ∅ fiveAlternatives))%nat
  /\ fst (fetchFiveRoutes generous originA northB initialUI)
     = take 5 (firstSeen ∅ fiveAlternatives).
Proof.
  split; [reflexivity|]. split; [vm_compute; lia|].
  apply (proj2 (five_alternatives_suffice generous originA northB initialUI
                  fiveAlternatives eq_refl)).
  vm_compute. lia.
Defined.

Lemma fetchFiveRoutes_ui (env : Env) (A0 B0 : Coord) (ui : UI) :
  errorText (snd (fetchFiveRoutes env A0 B0 ui))
  = match stage1Of env A0 B0 with
    | inl msg => Some msg
    | inr _ => errorText ui
    end
  /\ alerts (snd (fetchFiveRoutes env A0 B0 ui)) = alerts ui
  /\ statusKey (snd (fetchFiveRoutes env A0 B0 ui)) = loadingKey
  /\ routes (snd (fetchFiveRoutes env A0 B0 ui)) = routes ui
  /\ selectedRoute (snd (fetchFiveRoutes env A0 B0 ui)) = selectedRoute ui
  /\ showAllRoutes (snd (fetchFiveRoutes env A0 B0 ui)) = showAllRoutes ui.
Proof.
  unfold fetchFiveRoutes. fold (stage1Of env A0 B0).
  destruct (stage1Of env A0 B0) as [msg|rs].
  - change (LIMIT <=? length (@nil OSRMRoute))%nat with false. cbv iota.
    destruct (viaLoop _ _ _ _ _ _ _) as [out seen].
    by destruct (if (length out <? LIMIT)%nat then _ else _).
  - destruct (stage1Loop rs [] ∅) as [out seen].
    destruct (LIMIT <=? length out)%nat; [done|].
    destruct (viaLoop _ _ _ _ _ _ _) as [out2 seen2].
    by destruct (if (length out2 <? LIMIT)%nat then _ else _).
Qed.

(** X5.  Inside [fetchFiveRoutes] only the request with alternatives can
    put a message on the screen: afterwards the error text is the message
    of its failure, or what it was before when it did not fail.  A via
    request that fails leaves no trace, and no alert is raised. *)
Theorem via_failures_are_silent (env : Env) (A0 B0 : Coord) (ui : UI) :
  errorText (snd (fetchFiveRoutes env A0 B0 ui))
  = match stage1Of env A0 B0 with
    | inl msg => Some msg
    | inr _ => errorText ui
    end
  /\ alerts (snd (fetchFiveRoutes env A0 B0 ui)) = alerts ui
  /\ statusKey (snd (fetchFiveRoutes env A0 B0 ui)) = loadingKey
  /\ routes (snd (fetchFiveRoutes env A0 B0 ui)) = routes ui
  /\ selectedRoute (snd (fetchFiveRoutes env A0 B0 ui)) = selectedRoute ui
  /\ showAllRoutes (snd (fetchFiveRoutes env A0 B0 ui)) = showAllRoutes ui.
Proof. apply fetchFiveRoutes_ui. Qed.

Lemma find_view (best k n : nat) (l : list OSRMRoute) :
  List.find (fun r => Z.eqb (index r) (Z.of_nat k))
            (imap (fun i => viewOf best (n + i)) l)
  = if decide (n <= k)%nat then viewOf best k <$> l !! (k - n)%nat else None.
Proof.
  revert n. induction l as [|r l IH]; intros n.
  - simpl. by destruct (decide _).
  - rewrite imap_cons. cbn [List.find]. cbn [index viewOf]. rewrite Nat.add_0_r.
    erewrite imap_ext; [rewrite (IH (S n))|].
    2:{ intros i x _. simpl. f_equal. lia. }
    destruct (Z.eqb_spec (Z.of_nat n) (Z.of_nat k)) as [Heq|Hne].
    + apply Nat2Z.inj in Heq as ->. rewrite decide_True by lia.
      by rewrite Nat.sub_diag.
    + destruct (decide (n <= k)%nat) as [Hle|Hgt].
      * assert (n < k)%nat by lia. rewrite decide_True by lia.
        by replace (k - n)%nat with (S (k - S n)) by lia.
      * by rewrite decide_False by lia.
Qed.

(** X6.  A fetch in which at least one request brings a route ends with the views of
    the routes on the screen, at most five, exactly one of them primary
    and that one selected, every route shown, the status ok, loading off
    and no alert.  The error text is empty unless the request with
    alternatives had failed: then its message stays next to the routes. *)
Theorem fetchRoutes_success (env : Env) (a b : Coord) (ui : UI) :
  arrivals env a b <> [] ->
  routes (fetchRoutes env (Some a) (Some b) ui)
  = fst (mapToViews (take 5 (firstSeen ∅ (arrivals env a b))))
  /\ (0 < length (routes (fetchRoutes env (Some a) (Some b) ui)) <= 5)%nat
  /\ (exists v,
        primaries (routes (fetchRoutes env (Some a) (Some b) ui)) = [v]
        /\ selectedOf (fetchRoutes env (Some a) (Some b) ui) = Some v)
  /\ showAllRoutes (fetchRoutes env (Some a) (Some b) ui) = true
  /\ statusKey (fetchRoutes env (Some a) (Some b) ui) = ok
  /\ loading (fetchRoutes env (Some a) (Some b) ui) = false
  /\ alerts (fetchRoutes env (Some a) (Some b) ui) = alerts ui
  /\ errorText (fetchRoutes env (Some a) (Some b) ui)
     = match stage1Of env a b with
       | inl msg => Some msg
       | inr _ => None
       end.
Proof.
  intros Harr.
  assert (Hsome : take 5 (firstSeen ∅ (arrivals env a b)) <> [])
    by (by rewrite no_route_iff_no_arrival).
  unfold fetchRoutes.
  set (ui0 := setRoutes [] _).
  pose proof (fetchFiveRoutes_routes env a b ui0) as Hgot.
  pose proof (fetchFiveRoutes_ui env a b ui0) as (He & Ha & _).
  destruct (fetchFiveRoutes env a b ui0) as [got ui1].
  cbn [fst snd] in *. unfold LIMIT in Hgot. rewrite <- Hgot in *.
  destruct got as [|r0 got]; [done|].
  set (l := r0 :: got) in *.
  assert (Hlen : (length l <= 5)%nat) by (rewrite Hgot, length_take; lia).
  destruct (bestIdxOf_fastest l) as (r & Hr & _); [done|].
  unfold mapToViews. cbn [fst snd].
  rewrite take_ge by exact Hlen.
  pose proof (primaries_imap (bestIdxOf l) 0 l) as Hp.
  rewrite Nat.sub_0_r, Hr in Hp. cbn [Nat.add] in Hp.
  split; [done|]. split; [cbn [routes setRoutes setLoading setStatusKey setStatusText
                               setShowAllRoutes setSelectedRoute];
                          rewrite length_imap; subst l; simpl; simpl in Hlen; lia|].
  split.
  - exists (viewOf (bestIdxOf l) (bestIdxOf l) r). split; [exact Hp|].
    unfold selectedOf.
    cbn [routes selectedRoute setRoutes setLoading setStatusKey setStatusText
         setShowAllRoutes setSelectedRoute].
    pose proof (find_view (bestIdxOf l) (bestIdxOf l) 0 l) as Hf.
    rewrite decide_True in Hf by lia. rewrite Nat.sub_0_r, Hr in Hf. exact Hf.
  - cbn. repeat split; try done.
Qed.

Lemma fetchRoutes_success_witness :
  arrivals generous originA northB <> []
  /\ statusKey (fetchRoutes generous (Some originA) (Some northB) initialUI) = ok.
Proof.
  assert (H : arrivals generous originA northB <> [])
    by (vm_compute; discriminate).
  split; [exact H|].
  exact (proj1 (proj2 (proj2 (proj2 (proj2
    (fetchRoutes_success generous originA northB initialUI H)))))).
Defined.

(** X7.  A fetch in which no request brings a route, whatever went
    wrong, ends with no
    routes on the screen, the error status, the fixed no-route message as
    error text and as alert, and loading off; the selection and the
    show-all flag are as before.  Without both points the only effect is
    the alert that asks for them. *)
Theorem fetchRoutes_failure (env : Env) (a b : Coord) (A B : option Coord) (ui : UI) :
  (arrivals env a b = [] ->
     routes (fetchRoutes env (Some a) (Some b) ui) = []
     /\ statusKey (fetchRoutes env (Some a) (Some b) ui) = error
     /\ errorText (fetchRoutes env (Some a) (Some b) ui) = Some noRouteMessage
     /\ alerts (fetchRoutes env (Some a) (Some b) ui)
        = alerts ui ++ [("OSRM", noRouteMessage)]
     /\ loading (fetchRoutes env (Some a) (Some b) ui) = false
     /\ selectedRoute (fetchRoutes env (Some a) (Some b) ui) = selectedRoute ui
     /\ showAllRoutes (fetchRoutes env (Some a) (Some b) ui) = showAllRoutes ui)
  /\ (A = None \/ B = None ->
     fetchRoutes env A B ui
     = Alert_alert "Маршрут" "Сначала выберите точки A и B." ui).
Proof.
  split.
  - intros Harr.
    assert (Hnone : take 5 (firstSeen ∅ (arrivals env a b)) = [])
      by (by rewrite no_route_iff_no_arrival).
    unfold fetchRoutes.
    set (ui0 := setRoutes [] _).
    pose proof (fetchFiveRoutes_routes env a b ui0) as Hgot.
    pose proof (fetchFiveRoutes_ui env a b ui0) as (_ & Ha & _ & Hr & Hs & Hall).
    destruct (fetchFiveRoutes env a b ui0) as [got ui1].
    cbn [fst snd] in *. unfold LIMIT in Hgot. rewrite Hnone in Hgot. subst got.
    cbn. rewrite Ha, Hr, Hs, Hall. by repeat split.
  - intros [-> | ->]; [done|]. by destruct A.
Qed.

Lemma fetchRoutes_failure_witness :
  arrivals overloaded originA northB = []
  /\ routes (fetchRoutes overloaded (Some originA) (Some northB) initialUI) = [].
Proof.
  split; [reflexivity|].
  exact (proj1 (proj1 (fetchRoutes_failure overloaded originA northB None None
                         initialUI) eq_refl)).
Defined.

(** ** What is drawn *)

Lemma routesSorted_by_layerKey (s : UI) :
  routesSorted s = js_sort (byKey (layerKey s)) (routes s).
Proof.
  unfold routesSorted. generalize (routes s) as l.
  assert (Hins : forall x l,
    sort_insert (fun a b => inject_Z (sortKey (showAllRoutes s) (selectedRoute s) a
                                      - sortKey (showAllRoutes s) (selectedRoute s) b)) x l
    = sort_insert (byKey (layerKey s)) x l).
  { intros x l. induction l as [|y ys IH]; simpl; [done|].
    rewrite IH. unfold byKey, layerKey.
    destruct (Qlt_le_dec 0 _) as [Ha|Ha], (Qlt_le_dec 0 _) as [Hb|Hb];
      try reflexivity; exfalso; revert Ha Hb;
      unfold Z.sub; rewrite inject_Z_plus, inject_Z_opp; intros; lra. }
  induction l as [|x l IH]; simpl; [done|]. by rewrite IH, Hins.
Qed.

Lemma routesSorted_perm (s : UI) : routesSorted s ≡ₚ routes s.
Proof. rewrite routesSorted_by_layerKey. apply js_sort_perm. Qed.

Lemma StronglySorted_lookup_le {A : Type} (R : A -> A -> Prop) (l : list A)
    (i j : nat) (x y : A) :
  StronglySorted R l -> (i < j)%nat -> l !! i = Some x -> l !! j = Some y -> R x y.
Proof.
  intros Hs. revert i j. induction Hs as [|a l Hs IH Hall]; intros i j Hij Hi Hj.
  - done.
  - destruct j as [|j]; [lia|]. simpl in Hj. destruct i as [|i].
    + simpl in Hi. injection Hi as <-.
      rewrite Forall_forall in Hall. apply Hall.
      by eapply list_elem_of_lookup_2.
    + simpl in Hi. apply (IH i j); [lia|done|done].
Qed.

Lemma keyLe_transitive {A : Type} (key : A -> num) : Transitive (keyLe key).
Proof. intros x y z. unfold keyLe. lra. Qed.

Lemma routesSorted_ascending (s : UI) (i j : nat) (ri rj : RouteView) :
  (i < j)%nat -> routesSorted s !! i = Some ri -> routesSorted s !! j = Some rj ->
  sortKey (showAllRoutes s) (selectedRoute s) ri
  <= sortKey (showAllRoutes s) (selectedRoute s) rj.
Proof.
  intros Hij Hi Hj. rewrite Zle_Qle.
  apply (StronglySorted_lookup_le (keyLe (layerKey s)) (routesSorted s) i j);
    [|done..].
  pose proof (keyLe_transitive (layerKey s)) as Htrans.
  apply Sorted_StronglySorted; [exact Htrans|].
  rewrite routesSorted_by_layerKey. apply js_sort_sorted.
Qed.

(** X8.  The routes handed to the map are exactly those the render lets
    through: [visibleRoutes] is a rearrangement of the routes whose
    appearance says [shouldShow], so the render skips none of them. *)
Theorem visibleRoutes_are_the_shown (s : UI) :
  visibleRoutes s ≡ₚ filter (isShown s) (routes s)
  /\ Forall (isShown s) (visibleRoutes s).
Proof.
  assert (Hshown : forall r, isShown s r
            <-> (showAllRoutes s = true \/ index r = selectedRoute s)).
  { intros r. unfold isShown, getRouteAppearance. cbn [shouldShow].
    destruct (showAllRoutes s); [by split; [left|]|].
    rewrite Z.eqb_eq. split; [by right|by intros [?|?]]. }
  assert (Hperm : visibleRoutes s ≡ₚ filter (isShown s) (routes s)).
  { unfold visibleRoutes. destruct (showAllRoutes s) eqn:E.
    - rewrite routesSorted_perm.
      induction (routes s) as [|r l IH]; [done|].
      rewrite filter_cons_True by (apply Hshown; by left). by constructor.
    - rewrite routesSorted_perm.
      erewrite (list_filter_iff _ (isShown s)); [done|].
      intros r. rewrite Hshown. split; [by right|by intros [?|?]]. }
  split; [exact Hperm|].
  rewrite Hperm. apply Forall_forall. intros r Hr.
  by apply list_elem_of_filter in Hr as [Hr _].
Qed.

(** X9.  In every state the drawing order goes up in rank: a route drawn
    later never has a lower rank than one drawn earlier.  With every
    route shown and a primary route in the set, the route drawn last, on
    top of all, is primary; in focus mode, with the selected route in the
    set, the route drawn last has the selected index. *)
Theorem primary_is_drawn_last (s : UI) :
  (forall i j ri rj, (i < j)%nat ->
     routesSorted s !! i = Some ri -> routesSorted s !! j = Some rj ->
     sortKey (showAllRoutes s) (selectedRoute s) ri
     <= sortKey (showAllRoutes s) (selectedRoute s) rj)
  /\ (forall p, showAllRoutes s = true -> p ∈ routes s -> isPrimary p = true ->
        exists top, last (routesSorted s) = Some top /\ isPrimary top = true)
  /\ (forall p, showAllRoutes s = false -> p ∈ routes s ->
        index p = selectedRoute s ->
        exists top, last (routesSorted s) = Some top
                    /\ index top = selectedRoute s).
Proof.
  split; [apply routesSorted_ascending|].
  assert (Htop : forall p, p ∈ routes s ->
            exists top, last (routesSorted s) = Some top
              /\ sortKey (showAllRoutes s) (selectedRoute s) p
                 <= sortKey (showAllRoutes s) (selectedRoute s) top).
  { intros p Hp.
    assert (Hin : p ∈ routesSorted s) by (by rewrite routesSorted_perm).
    destruct (last (routesSorted s)) as [top|] eqn:Htop.
    2:{ apply last_None in Htop. rewrite Htop in Hin. by apply elem_of_nil in Hin. }
    exists top. split; [done|].
    apply list_elem_of_lookup in Hin as [i Hi].
    rewrite last_lookup in Htop.
    apply lookup_lt_Some in Hi as Hlt.
    destruct (decide (i = pred (length (routesSorted s)))) as [->|Hne].
    - rewrite Hi in Htop. injection Htop as <-. lia.
    - apply (routesSorted_ascending s i (pred (length (routesSorted s))));
        [lia|done|done]. }
  split.
  - intros p Hall Hp Hprim. destruct (Htop p Hp) as (top & Hlast & Hle).
    exists top. split; [done|].
    revert Hle. unfold sortKey. rewrite Hall, Hprim.
    destruct (isPrimary top); [done|].
    destruct (index top =? selectedRoute s); lia.
  - intros p Hfocus Hp Hsel. destruct (Htop p Hp) as (top & Hlast & Hle).
    exists top. split; [done|].
    revert Hle. unfold sortKey. rewrite Hfocus, Hsel, Z.eqb_refl.
    destruct (Z.eqb_spec (index top) (selectedRoute s)); [done|lia].
Qed.

Lemma primary_is_drawn_last_witness :
  exists top,
    last (routesSorted (mkUI [primaryOnly; selectedOnly] 1 true false ok "" None []))
    = Some top /\ isPrimary top = true.
Proof.
  refine (proj1 (proj2 (primary_is_drawn_last
            (mkUI [primaryOnly; selectedOnly] 1 true false ok "" None [])))
            primaryOnly eq_refl _ eq_refl).
  set_solver.
Defined.

(** X10.  Focus and back.  After [selectRouteOnly k] the map gets the
    routes with index [k] and no other; the last selection stands;
    pressing the show-all button afterwards shows every route again with
    [k] still selected; pressing it twice changes nothing. *)
Theorem focus_and_back (k j : Z) (s : UI) :
  Forall (fun r => index r = k) (visibleRoutes (selectRouteOnly k s))
  /\ (forall r, r ∈ routes s -> index r = k ->
        r ∈ visibleRoutes (selectRouteOnly k s))
  /\ selectRouteOnly k (selectRouteOnly j s) = selectRouteOnly k s
  /\ visibleRoutes (toggleShowAll (selectRouteOnly k s)) ≡ₚ routes s
  /\ selectedRoute (toggleShowAll (selectRouteOnly k s)) = k
  /\ toggleShowAll (toggleShowAll s) = s.
Proof.
  split; [|split; [|split; [|split; [|split]]]].
  - unfold visibleRoutes. cbn [showAllRoutes selectRouteOnly setStatusText
      setShowAllRoutes setSelectedRoute selectedRoute].
    apply Forall_forall. intros r Hr.
    by apply list_elem_of_filter in Hr as [Hr _].
  - intros r Hr Hk. unfold visibleRoutes.
    cbn [showAllRoutes selectRouteOnly setStatusText
      setShowAllRoutes setSelectedRoute selectedRoute].
    apply list_elem_of_filter. split; [done|].
    rewrite routesSorted_perm. done.
  - reflexivity.
  - unfold visibleRoutes.
    cbn [showAllRoutes toggleShowAll selectRouteOnly setStatusText
      setShowAllRoutes setSelectedRoute negb].
    by rewrite routesSorted_perm.
  - reflexivity.
  - destruct s as [rs sel all ld sk st et al]. unfold toggleShowAll, setShowAllRoutes.
    simpl. by rewrite negb_involutive.
Qed.

(** ** Markers along any path *)

Lemma targetList_facts (total spacing : num) :
  (0 < spacing)%Q ->
  forall fuel room target,
    (length (targetList fuel total spacing room target) <= Nat.min fuel room)%nat
    /\ (forall k c, targetList fuel total spacing room target !! k = Some c ->
          (c == target + inject_Z (Z.of_nat k) * spacing /\ c < total)%Q)
    /\ ((length (targetList fuel total spacing room target) < Nat.min fuel room)%nat ->
          (total <= target
                    + inject_Z (Z.of_nat (length (targetList fuel total spacing
                                                     room target))) * spacing)%Q).
Proof.
  unfold num in *.
  intros Hsp. induction fuel as [|fuel IH]; intros room target.
  - simpl. split; [lia|]. split; [done|]. lia.
  - simpl. destruct (Qlt_le_dec target total) as [Hlt|Hge].
    + destruct room as [|room].
      * simpl. split; [lia|]. split; [done|]. lia.
      * destruct (IH room (target + spacing)%Q) as (Hlen & Hnth & Hmax).
        split; [cbn [length]; lia|]. split.
        -- intros [|k] c Hk; simpl in Hk.
           ++ injection Hk as <-. simpl. split; [ring|done].
           ++ destruct (Hnth k c Hk) as [Hc Hct]. split; [|done].
              rewrite Hc. rewrite Nat2Z.inj_succ. unfold Z.succ.
              rewrite inject_Z_plus. change (inject_Z 1) with 1%Q. ring.
        -- intros Hshort. cbn [length] in Hshort |- *.
           assert (Hs' : (length (targetList fuel total spacing room
                                    (target + spacing)%Q) < Nat.min fuel room)%nat)
             by (unfold num; lia).
           specialize (Hmax Hs').
           rewrite Nat2Z.inj_succ. unfold Z.succ.
           rewrite inject_Z_plus. change (inject_Z 1) with 1%Q.
           set (n := inject_Z _) in *.
           assert (E : ((n + 1) * spacing == n * spacing + spacing)%Q) by ring.
           rewrite E. lra.
    + simpl. split; [lia|]. split; [done|]. intros _.
      change (inject_Z (Z.of_nat 0)) with 0%Q. lra.
Qed.

Lemma sampleLoop_made (P : RouteMarker -> Prop) (poly : list XY) (cum : list num)
    (total spacing : num) (maxCount : nat) :
  (forall target idx outLen, P (markerAt poly cum total target idx outLen)) ->
  forall fuel target idx out,
    Forall P out ->
    Forall P (sampleLoop fuel poly cum total spacing maxCount target idx out).
Proof.
  intros HP. induction fuel as [|fuel IH]; intros target idx out Hout; simpl; [done|].
  destruct (Qlt_le_dec target total); [|done].
  destruct (length out <? maxCount)%nat; [|done].
  destruct (length poly <=? advance cum target idx)%nat; [done|].
  apply IH. apply Forall_app. split; [done|]. by constructor.
Qed.

Section SamplerAnyPath.
Variable haversine : XY -> XY -> num.

Lemma sampleEveryMeters_covered (poly : list XY) (spacing : num) (maxCount : nat) :
  (0 < spacing)%Q ->
  coveredDistance <$> sampleEveryMeters haversine poly spacing maxCount
  = targetList maxCount (totalOf haversine poly) spacing maxCount spacing.
Proof.
  intros Hsp. unfold sampleEveryMeters.
  assert (Hzero : (totalOf haversine poly == 0)%Q ->
            targetList maxCount (totalOf haversine poly) spacing maxCount spacing = []).
  { intros H0. destruct maxCount; simpl; [done|].
    destruct (Qlt_le_dec spacing (totalOf haversine poly)); [lra|done]. }
  destruct poly as [|p0 ps].
  - symmetry. by apply Hzero.
  - destruct (Qeq_dec _ 0) as [H0|Hne]; [symmetry; by apply Hzero|].
    destruct ps as [|p1 ps]; [by destruct Hne|].
    rewrite (sampleLoop_covered (p0 :: p1 :: ps) (cumOf haversine (p0 :: p1 :: ps))
               (totalOf haversine (p0 :: p1 :: ps)) spacing maxCount).
    + simpl. by rewrite Nat.sub_0_r.
    + apply cumOf_length.
    + unfold totalOf. destruct (last _) eqn:E; [done|].
      apply last_None in E. discriminate.
    + rewrite cumOf_length. simpl. lia.
Qed.

(** X11.  For a positive spacing the markers are at the covered distances
    spacing, twice the spacing, and so on, all of them short of the length
    of the path; what each marker has left is the length less what it
    has covered, and its time left is still 0.  There are at most
    [maxCount] of them, and when there are fewer, the next multiple of
    the spacing is not short of the length: none is left out. *)
Theorem sampleEveryMeters_markers (poly : list XY) (spacing : num) (maxCount : nat) :
  (0 < spacing)%Q ->
  (length (sampleEveryMeters haversine poly spacing maxCount) <= maxCount)%nat
  /\ (forall k m, sampleEveryMeters haversine poly spacing maxCount !! k = Some m ->
        (coveredDistance m == inject_Z (Z.of_nat (S k)) * spacing)%Q
        /\ (coveredDistance m < totalOf haversine poly)%Q
        /\ remainDistance m = (totalOf haversine poly - coveredDistance m)%Q
        /\ remainDuration m = 0%Q)
  /\ ((length (sampleEveryMeters haversine poly spacing maxCount) < maxCount)%nat ->
        (totalOf haversine poly
         <= inject_Z (Z.of_nat (S (length (sampleEveryMeters haversine poly
                                             spacing maxCount)))) * spacing)%Q).
Proof.
  unfold num in *. intros Hsp.
  pose proof (sampleEveryMeters_covered poly spacing maxCount Hsp) as Hcov.
  destruct (targetList_facts (totalOf haversine poly) spacing Hsp
              maxCount maxCount spacing) as (Hlen & Hnth & Hmax).
  rewrite <- Hcov, length_fmap in Hlen, Hmax. rewrite <- Hcov in Hnth.
  rewrite Nat.min_id in Hlen, Hmax.
  assert (Hsucc : forall n, (inject_Z (Z.of_nat (S n)) * spacing
                             == spacing + inject_Z (Z.of_nat n) * spacing)%Q).
  { intros n. rewrite Nat2Z.inj_succ. unfold Z.succ.
    rewrite inject_Z_plus. change (inject_Z 1) with 1%Q. ring. }
  split; [exact Hlen|]. split.
  - intros k m Hk.
    destruct (Hnth k (coveredDistance m)) as [Hc Hct];
      [by rewrite list_lookup_fmap, Hk|].
    split; [by rewrite Hsucc|]. split; [exact Hct|].
    assert (Hall : Forall (fun m => remainDistance m
                             = (totalOf haversine poly - coveredDistance m)%Q
                             /\ remainDuration m = 0%Q)
                     (sampleEveryMeters haversine poly spacing maxCount)).
    { unfold sampleEveryMeters. destruct poly as [|p0 ps]; [constructor|].
      destruct (Qeq_dec _ 0); [constructor|].
      apply sampleLoop_made; [|constructor]. by intros. }
    rewrite Forall_forall in Hall. apply Hall. by eapply list_elem_of_lookup_2.
  - intros Hshort. rewrite Hsucc. by apply Hmax.
Qed.
End SamplerAnyPath.

Lemma sampleEveryMeters_markers_witness :
  (0 < 100)%Q
  /\ (length (sampleEveryMeters northing straightPath 100 400) <= 400)%nat.
Proof.
  split; [by vm_compute|].
  exact (proj1 (sampleEveryMeters_markers northing straightPath 100 400
                  ltac:(by vm_compute))).
Defined.

Lemma skipBelow_spec (target : num) (rest : list num) (idx : nat) :
  (idx <= skipBelow target rest idx <= idx + length rest)%nat
  /\ (forall i c, (i < skipBelow target rest idx - idx)%nat ->
        rest !! i = Some c -> (c < target)%Q)
  /\ (forall c, rest !! (skipBelow target rest idx - idx)%nat = Some c ->
        (target <= c)%Q).
Proof.
  revert idx. induction rest as [|x rest IH]; intros idx; simpl.
  - split; [lia|]. split; [intros; lia|]. intros c. by rewrite Nat.sub_diag.
  - destruct (Qlt_le_dec x target) as [Hlt|Hge].
    + destruct (IH (S idx)) as (Hb & Hbelow & Hat).
      split; [lia|]. split.
      * intros [|i] c Hi Hc; simpl in Hc.
        -- by injection Hc as <-.
        -- apply (Hbelow i); [lia|done].
      * intros c Hc.
        replace (skipBelow target rest (S idx) - idx)%nat
          with (S (skipBelow target rest (S idx) - S idx)) in Hc by lia.
        by apply Hat.
    + split; [lia|]. split; [intros; lia|].
      intros c. rewrite Nat.sub_diag. simpl. by intros [= <-].
Qed.

Lemma advance_spec (cum : list num) (target : num) (idx : nat) :
  (idx <= advance cum target idx)%nat
  /\ (forall j c, (idx <= j < advance cum target idx)%nat ->
        cum !! j = Some c -> (c < target)%Q)
  /\ (forall c, cum !! advance cum target idx = Some c -> (target <= c)%Q).
Proof.
  unfold advance.
  destruct (skipBelow_spec target (drop idx cum) idx) as (Hb & Hbelow & Hat).
  split; [lia|]. split.
  - intros j c Hj Hc. apply (Hbelow (j - idx)%nat); [lia|].
    rewrite lookup_drop. by replace (idx + (j - idx))%nat with j by lia.
  - intros c Hc. apply Hat. rewrite lookup_drop.
    by replace (idx + (skipBelow target (drop idx cum) idx - idx))%nat
      with (skipBelow target (drop idx cum) idx) by lia.
Qed.

Lemma sampleLoop_onSegment (poly : list XY) (cum : list num) (total spacing : num)
    (maxCount : nat) :
  length cum = length poly ->
  (0 < spacing)%Q ->
  forall fuel target idx out,
    (1 <= idx)%nat ->
    (exists c, cum !! (idx - 1)%nat = Some c /\ (c < target)%Q) ->
    Forall (onSegment poly cum) out ->
    Forall (onSegment poly cum)
      (sampleLoop fuel poly cum total spacing maxCount target idx out).
Proof.
  unfold num in *. intros Hlen Hsp.
  induction fuel as [|fuel IH]; intros target idx out Hidx Hprev Hout; simpl; [done|].
  destruct (Qlt_le_dec target total); [|done].
  destruct (length out <? maxCount)%nat; [|done].
  destruct (advance_spec cum target idx) as (Hge & Hbelow & Hat).
  set (idx' := advance cum target idx) in *.
  destruct (Nat.leb_spec (length poly) idx') as [|Hin]; [done|].
  assert (Hprev' : exists c, cum !! (idx' - 1)%nat = Some c /\ (c < target)%Q).
  { destruct (decide (idx' = idx)) as [->|Hne]; [done|].
    destruct (lookup_lt_is_Some_2 cum (idx' - 1)%nat) as [c Hc]; [lia|].
    exists c. split; [done|]. apply (Hbelow (idx' - 1)%nat); [lia|done]. }
  apply IH; [lia| |].
  - destruct Hprev' as (c & Hc & Hlt). exists c. split; [done|]. lra.
  - apply Forall_app. split; [done|]. constructor; [|constructor].
    destruct Hprev' as (c & Hc & Hlt).
    destruct (lookup_lt_is_Some_2 cum idx') as [c' Hc']; [lia|].
    pose proof (Hat c' Hc') as Hle.
    unfold onSegment, markerAt. cbn [coordinate coveredDistance latitude longitude].
    rewrite (list_lookup_total_correct _ _ _ Hc), (list_lookup_total_correct _ _ _ Hc').
    destruct (Qlt_le_dec 0 (c' - c)) as [Hseg|Hseg]; [|lra].
    exists idx', ((target - c) / (c' - c))%Q.
    split; [lia|]. split.
    + split.
      * apply Qlt_shift_div_l; [done|]. lra.
      * apply Qle_shift_div_r; [done|]. lra.
    + split; [reflexivity|]. split; [reflexivity|].
      rewrite (list_lookup_total_correct _ _ _ Hc), (list_lookup_total_correct _ _ _ Hc').
      lra.
Qed.

Section MarkersOnThePath.
Variable haversine : XY -> XY -> num.

(** X12.  For a positive spacing every marker lies on the path: on the
    segment between two neighbouring vertices, at a fraction [t] of it
    with 0 < t <= 1, and it is the segment in which the covered distance
    of the marker is reached. *)
Theorem markers_lie_on_the_path (poly : list XY) (spacing : num) (maxCount : nat) :
  (0 < spacing)%Q ->
  Forall (onSegment poly (cumOf haversine poly))
         (sampleEveryMeters haversine poly spacing maxCount).
Proof.
  intros Hsp. unfold sampleEveryMeters.
  destruct poly as [|p0 ps]; [constructor|].
  destruct (Qeq_dec _ 0); [constructor|].
  apply sampleLoop_onSegment; [apply cumOf_length|done|lia| |constructor].
  exists 0%Q. split; [done|]. exact Hsp.
Qed.
End MarkersOnThePath.

Lemma markers_lie_on_the_path_witness :
  (0 < 100)%Q
  /\ Forall (onSegment straightPath (cumOf northing straightPath))
            (sampleEveryMeters northing straightPath 100 400).
Proof.
  split; [by vm_compute|].
  apply (markers_lie_on_the_path northing straightPath 100 400). by vm_compute.
Defined.

(** ** The call to the text model *)

(** X13.  A call with no routes does nothing.  Any other call sends one
    request and ends with the loading flag off, whatever the answer; it
    leaves the recorded signature and the pending timers alone; a
    suggestion it leaves is the index of one of its routes.  When the
    call fails there is one more alert, no text and no suggestion; when
    it succeeds there is a text and no alert. *)
Theorem callGeminiAuto_outcome (reply : GeminiReply) (r : Render) (s : AI) :
  (r_routes r = [] -> callGeminiAuto reply r s = s)
  /\ (r_routes r <> [] ->
      aiLoading (callGeminiAuto reply r s) = false
      /\ outbound (callGeminiAuto reply r s) = outbound s ++ [r]
      /\ lastAiSignatureRef (callGeminiAuto reply r s) = lastAiSignatureRef s
      /\ timers (callGeminiAuto reply r s) = timers s
      /\ (forall idx, aiSuggestedIndex (callGeminiAuto reply r s) = Some idx ->
            0 <= idx < Z.of_nat (length (r_routes r)))
      /\ (replyFailed reply = true ->
            aiText (callGeminiAuto reply r s) = []
            /\ aiSuggestedIndex (callGeminiAuto reply r s) = None
            /\ exists msg, aiAlerts (callGeminiAuto reply r s) = aiAlerts s ++ [msg])
      /\ (replyFailed reply = false ->
            aiText (callGeminiAuto reply r s) <> []
            /\ aiAlerts (callGeminiAuto reply r s) = aiAlerts s)).
Proof.
  split.
  - intros Hnone. unfold callGeminiAuto. by rewrite Hnone.
  - intros Hsome. unfold callGeminiAuto.
    destruct (r_routes r) as [|v vs] eqn:E; [done|].
    assert (Htext : forall parts, extractText parts <> []).
    { intros parts. unfold extractText. destruct parts as [ps|]; [|done].
      by destruct (trim _). }
    destruct reply as [msg|status raw json]; cbn [replyFailed].
    + cbn. repeat split; try done. by eexists.
    + destruct (res_ok status); cbn [negb orb].
      * destruct json as [msg|parts].
        -- cbn. repeat split; try done. by eexists.
        -- cbv iota.
           destruct (parseSuggestedIndex (extractText parts)) as [[idx|]|] eqn:Hp.
           ++ destruct ((0 <=? idx) && (idx <? Z.of_nat (length (v :: vs)))) eqn:Hr.
              ** apply andb_true_iff in Hr as [H0%Z.leb_le H1%Z.ltb_lt].
                 cbn. repeat split; try done; try apply Htext;
                   intros; simplify_eq; simpl in *; lia.
              ** cbn. repeat split; try done; apply Htext.
           ++ cbn. repeat split; try done; apply Htext.
           ++ cbn. repeat split; try done; apply Htext.
      * cbn. repeat split; try done. by eexists.
Qed.

Lemma callGeminiAuto_outcome_witness :
  r_routes threeRoutes <> []
  /\ aiLoading (callGeminiAuto (GRejected None) threeRoutes initialAI) = false.
Proof.
  split; [done|].
  exact (proj1 (proj2 (callGeminiAuto_outcome (GRejected None) threeRoutes initialAI)
                  ltac:(done))).
Defined.





(** ** What a parsed index can be *)









(** ** The hints for the summary *)

Lemma sort_insert_same_sign {A : Type} (cmp1 cmp2 : A -> A -> num) (x : A) (l : list A) :
  (forall a b, (0 < cmp1 a b)%Q <-> (0 < cmp2 a b)%Q) ->
  sort_insert cmp1 x l = sort_insert cmp2 x l.
Proof.
  intros Hsame. induction l as [|y ys IH]; simpl; [done|]. rewrite IH.
  destruct (Qlt_le_dec 0 (cmp1 x y)) as [H1|H1], (Qlt_le_dec 0 (cmp2 x y)) as [H2|H2];
    try done.
  - apply Hsame in H1. lra.
  - apply Hsame in H2. lra.
Qed.

Lemma js_sort_same_sign {A : Type} (cmp1 cmp2 : A -> A -> num) (l : list A) :
  (forall a b, (0 < cmp1 a b)%Q <-> (0 < cmp2 a b)%Q) ->
  js_sort cmp1 l = js_sort cmp2 l.
Proof.
  intros Hsame. induction l as [|x l IH]; simpl; [done|].
  by rewrite IH, (sort_insert_same_sign cmp1 cmp2).
Qed.

Lemma head_sort_insert_any {A : Type} (cmp : A -> A -> num) (x : A) (l : list A) :
  head (sort_insert cmp x l)
  = Some (match head l with
          | Some y => if Qlt_le_dec 0 (cmp x y) then y else x
          | None => x
          end).
Proof.
  destruct l as [|y ys]; simpl; [done|]. by destruct (Qlt_le_dec 0 (cmp x y)).
Qed.

(** The head of a list sorted by a key: the first element with the least
    key. *)
Lemma head_js_sort_first_least {A : Type} (key : A -> Z) (x0 : A) (l : list A) :
  exists i m,
    head (js_sort (fun a b => inject_Z (key a - key b)) (x0 :: l)) = Some m
    /\ (x0 :: l) !! i = Some m
    /\ (forall j x, (x0 :: l) !! j = Some x -> key m <= key x)
    /\ (forall j x, (x0 :: l) !! j = Some x -> (j < i)%nat -> key m < key x).
Proof.
  revert x0. induction l as [|x1 l IH]; intros x0.
  - exists 0%nat, x0. split; [done|]. split; [done|]. split.
    + intros [|j] x Hj; simpl in Hj; [|done]. injection Hj as <-. lia.
    + intros. lia.
  - destruct (IH x1) as (i & m & Hhd & Hi & Hmin & Hfirst).
    change (js_sort ?c (x0 :: x1 :: l)) with (sort_insert c x0 (js_sort c (x1 :: l))).
    rewrite head_sort_insert_any, Hhd.
    destruct (Qlt_le_dec 0 (inject_Z (key x0 - key m))) as [Hgt|Hle].
    + assert (key m < key x0).
      { change 0%Q with (inject_Z 0) in Hgt. rewrite <- Zlt_Qlt in Hgt. lia. }
      exists (S i), m. split; [done|]. split; [done|]. split.
      * intros [|j] x Hj; simpl in Hj.
        -- injection Hj as <-. lia.
        -- by apply (Hmin j).
      * intros [|j] x Hj Hlt; simpl in Hj.
        -- injection Hj as <-. lia.
        -- apply (Hfirst j); [done|lia].
    + assert (key x0 <= key m).
      { change 0%Q with (inject_Z 0) in Hle. rewrite <- Zle_Qle in Hle. lia. }
      exists 0%nat, x0. split; [done|]. split; [done|]. split.
      * intros [|j] x Hj; simpl in Hj.
        -- injection Hj as <-. lia.
        -- specialize (Hmin j x Hj). lia.
      * intros. lia.
Qed.

Lemma firstBy_firstLeast (key : RouteStats -> Z) (all : list RouteView) :
  all <> [] -> exists f, firstBy key (routeStats <$> all) = Some f
                         /\ firstLeast key all f.
Proof.
  destruct all as [|r0 rs]; [done|]. intros _. unfold firstBy.
  rewrite fmap_cons.
  destruct (head_js_sort_first_least key (routeStats r0) (routeStats <$> rs))
    as (i & m & Hhd & Hi & Hmin & Hfirst).
  exists m. split; [exact Hhd|].
  rewrite <- fmap_cons in Hi, Hmin, Hfirst.
  rewrite list_lookup_fmap in Hi.
  destruct ((r0 :: rs) !! i) as [r|] eqn:Hr; [|done]. injection Hi as <-.
  exists i, r. split; [done|]. split; [done|]. split.
  - intros j r' Hj. apply (Hmin j). by rewrite list_lookup_fmap, Hj.
  - intros j r' Hj Hlt. apply (Hfirst j); [|done]. by rewrite list_lookup_fmap, Hj.
Qed.



Lemma Math_round_mono (x y : num) : (x <= y)%Q -> Math_round x <= Math_round y.
Proof. intros H. unfold Math_round. apply Qfloor_resp_le. lra. Qed.

(** X17.  The hint for the fastest route goes by durations rounded to
    seconds, the primary route by the durations themselves.  The two can
    differ, but the hinted route is never later in the list than the
    primary one and has the same rounded duration. *)
Theorem fastest_hint_and_primary (l : list OSRMRoute) :
  l <> [] ->
  (length l <= 5)%nat ->
  exists f r,
    firstBy duration_s (routeStats <$> fst (mapToViews l)) = Some f
    /\ l !! snd (mapToViews l) = Some r
    /\ duration_s f = Math_round (duration r)
    /\ 0 <= st_index f <= Z.of_nat (snd (mapToViews l)).
Proof.
  intros Hne Hlen.
  destruct (bestIdxOf_fastest l Hne) as (r & Hr & Hmin & _).
  unfold mapToViews. cbn [fst snd]. rewrite take_ge by exact Hlen.
  set (best := bestIdxOf l) in *.
  assert (Hviews : imap (viewOf best) l <> []) by (by destruct l).
  destruct (firstBy_firstLeast duration_s _ Hviews)
    as (f & Hf & i & v & -> & Hi & Hleast & Hfirst).
  exists (routeStats v), r. split; [exact Hf|]. split; [exact Hr|].
  rewrite list_lookup_imap in Hi.
  destruct (l !! i) as [ri|] eqn:Hri; [|done]. injection Hi as <-.
  cbn [routeStats duration_s st_index viewOf rv_duration index] in *.
  assert (Hbest : imap (viewOf best) l !! best = Some (viewOf best best r))
    by (by rewrite list_lookup_imap, Hr).
  pose proof (Hleast best _ Hbest) as Hle.
  cbn [viewOf rv_duration] in Hle.
  pose proof (Math_round_mono _ _ (Hmin i ri Hri)) as Hge.
  split; [lia|]. split; [lia|].
  destruct (decide (best < i)%nat) as [Hlt|]; [|lia].
  specialize (Hfirst best _ Hbest Hlt). cbn [viewOf rv_duration] in Hfirst. lia.
Qed.

Lemma fastest_hint_and_primary_witness :
  tiedCandidates <> [] /\ (length tiedCandidates <= 5)%nat
  /\ exists f r, firstBy duration_s (routeStats <$> fst (mapToViews tiedCandidates))
                 = Some f
                 /\ tiedCandidates !! snd (mapToViews tiedCandidates) = Some r
                 /\ duration_s f = Math_round (duration r).
Proof.
  split; [done|]. split; [vm_compute; lia|].
  destruct (fastest_hint_and_primary tiedCandidates) as (f & r & H1 & H2 & H3 & _).
  - done.
  - vm_compute; lia.
  - exists f, r. by repeat split.
Defined.

(** ** What the statistics count *)

Lemma turnNodesOf_steps (idx : nat) (r : OSRMRoute) :
  (fun t => (maneuverType t, tn_modifier t)) <$> turnNodesOf idx r
  = (fun s => (buildInstruction s, modifier (maneuver s))) <$> stepsOf r.
Proof.
  unfold turnNodesOf, stepsOf.
  assert (Hleg : forall (legIndex : nat) (ss : list OSRMStep) (n : nat),
    (fun t => (maneuverType t, tn_modifier t))
      <$> imap (fun stepIndex s =>
            mkTurnNode
              ("r" +:+ string_of_nat idx +:+ "-l" +:+ string_of_nat legIndex
                   +:+ "-s" +:+ string_of_nat (n + stepIndex))
              (toXY (location (maneuver s)))
              (if truthy (step_name s) then step_name s else "Без названия")
              (buildInstruction s) (modifier (maneuver s))
              (step_distance s) (step_duration s) (Z.of_nat idx)) ss
    = (fun s => (buildInstruction s, modifier (maneuver s))) <$> ss).
  { intros legIndex ss. induction ss as [|s ss IH]; intros n; [done|].
    rewrite imap_cons, !fmap_cons. f_equal.
    erewrite imap_ext; [apply (IH (S n))|].
    intros k x _. simpl. do 3 f_equal. by rewrite Nat.add_succ_r. }
  assert (Hlegs : forall (ls : list OSRMLeg) (n : nat),
    (fun t => (maneuverType t, tn_modifier t))
      <$> concat (imap (fun legIndex leg =>
            imap (fun stepIndex s =>
              mkTurnNode
                ("r" +:+ string_of_nat idx +:+ "-l" +:+ string_of_nat (n + legIndex)
                     +:+ "-s" +:+ string_of_nat stepIndex)
                (toXY (location (maneuver s)))
                (if truthy (step_name s) then step_name s else "Без названия")
                (buildInstruction s) (modifier (maneuver s))
                (step_distance s) (step_duration s) (Z.of_nat idx)) (steps leg)) ls)
    = (fun s => (buildInstruction s, modifier (maneuver s)))
        <$> concat (steps <$> ls)).
  { induction ls as [|leg ls IH]; intros n; [done|].
    rewrite imap_cons, fmap_cons. cbn [concat]. rewrite !fmap_app. f_equal.
    - apply (Hleg (n + 0)%nat (steps leg) 0%nat).
    - erewrite imap_ext; [apply (IH (S n))|].
      intros k x _. simpl. apply imap_ext. intros k' s _.
      do 3 f_equal. by rewrite Nat.add_succ_r. }
  apply (Hlegs (legs r) 0%nat).
Qed.

Lemma filter_length_fmap {A B : Type} (f : A -> B) (p : B -> bool) (l : list A) :
  length (List.filter (fun x => p (f x)) l) = length (List.filter p (f <$> l)).
Proof.
  induction l as [|x l IH]; [done|]. rewrite fmap_cons. simpl.
  destruct (p (f x)); simpl; by rewrite IH.
Qed.

Lemma filter_length_ext {A : Type} (p q : A -> bool) (l : list A) :
  Forall (fun x => p x = q x) l ->
  length (List.filter p l) = length (List.filter q l).
Proof.
  induction 1 as [|x l Hx _ IH]; [done|]. simpl. rewrite Hx.
  destruct (q x); simpl; by rewrite IH.
Qed.

Lemma known_modifiers_left :
  Forall (fun m => leftIn (Some m)
                   = bool_decide (Some m ∈ [Some "slight left"; Some "left";
                                            Some "sharp left"]))
         osrmModifiers.
Proof. repeat (constructor; [by vm_compute|]). constructor. Qed.

Lemma known_labels_roundabout :
  Forall (fun t =>
    Forall (fun m =>
      roundaboutIn (buildInstruction (mkStep 0 0 "" (mkManeuver (0, 0)%Q t m)))
      = bool_decide (t ∈ ["roundabout"; "rotary"]))
      (None :: (Some <$> osrmModifiers)))
    osrmTypes.
Proof.
  repeat (constructor; [repeat (constructor; [by vm_compute|]); constructor|]).
  constructor.
Qed.

Lemma buildInstruction_reads (s : OSRMStep) :
  buildInstruction s
  = buildInstruction (mkStep 0 0 "" (mkManeuver (0, 0)%Q (mtype (maneuver s))
                                                 (modifier (maneuver s)))).
Proof. reflexivity. Qed.

(** X18.  For a route whose steps use the maneuver types and modifiers
    named in the type of a step, the statistics of its view count every
    step as a turn, the steps with modifier "slight left", "left" or
    "sharp left" as left turns, and the steps of type "roundabout" or
    "rotary" as roundabouts; leaving a roundabout ("exit roundabout",
    "exit rotary") is not counted. *)
Theorem routeStats_counts (best idx : nat) (r : OSRMRoute) :
  Forall knownStep (stepsOf r) ->
  turns (routeStats (viewOf best idx r)) = length (stepsOf r)
  /\ left_turns (routeStats (viewOf best idx r))
     = length (List.filter turnsLeft (stepsOf r))
  /\ roundabouts (routeStats (viewOf best idx r))
     = length (List.filter entersRoundabout (stepsOf r)).
Proof.
  intros Hknown. cbn [routeStats turns left_turns roundabouts viewOf turnNodes].
  pose proof (turnNodesOf_steps idx r) as Hmap.
  split; [|split].
  - rewrite <- (length_fmap (fun t => (maneuverType t, tn_modifier t))), Hmap.
    by rewrite length_fmap.
  - change isLeftTurn with (fun t => leftIn (tn_modifier t)).
    rewrite (filter_length_fmap (fun t => (maneuverType t, tn_modifier t))
               (fun p => leftIn (snd p))).
    rewrite Hmap, <- filter_length_fmap. cbn [snd].
    apply filter_length_ext. eapply Forall_impl; [exact Hknown|].
    intros s [_ [Hnone|(m & Hm & Hsome)]]; unfold turnsLeft.
    + by rewrite Hnone.
    + rewrite Hsome. pose proof known_modifiers_left as Hall.
      rewrite Forall_forall in Hall. by apply Hall.
  - change isRoundabout with (fun t => roundaboutIn (maneuverType t)).
    rewrite (filter_length_fmap (fun t => (maneuverType t, tn_modifier t))
               (fun p => roundaboutIn (fst p))).
    rewrite Hmap, <- filter_length_fmap. cbn [fst].
    apply filter_length_ext. eapply Forall_impl; [exact Hknown|].
    intros s [Ht Hm]. unfold entersRoundabout. rewrite buildInstruction_reads.
    pose proof known_labels_roundabout as Hall.
    rewrite Forall_forall in Hall. specialize (Hall _ Ht).
    rewrite Forall_forall in Hall. apply Hall.
    destruct Hm as [->|(m & Hm & ->)]; [by left|].
    right. by apply list_elem_of_fmap_2.
Qed.

Lemma routeStats_counts_witness :
  Forall knownStep (stepsOf aroundTheBlock)
  /\ roundabouts (routeStats (viewOf 0 0 aroundTheBlock)) = 1%nat
  /\ left_turns (routeStats (viewOf 0 0 aroundTheBlock)) = 1%nat.
Proof.
  assert (H : Forall knownStep (stepsOf aroundTheBlock)).
  { unfold knownStep. repeat (constructor; [split; [set_solver|]|]).
    - by left.
    - right. eexists. split; [|reflexivity]. set_solver.
    - by left.
    - right. eexists. split; [|reflexivity]. set_solver.
    - by left.
    - constructor. }
  split; [exact H|].
  destruct (routeStats_counts 0 0 aroundTheBlock H) as (_ & Hl & Hr).
  split; [rewrite Hr|rewrite Hl]; reflexivity.
Defined.

(** ** Distances as text *)

Lemma append_assoc3 (s1 s2 s3 : string) : (s1 +:+ s2) +:+ s3 = s1 +:+ s2 +:+ s3.
Proof.
  induction s1 as [|c s1 IH]; [done|].
  change (String c ((s1 +:+ s2) +:+ s3) = String c (s1 +:+ s2 +:+ s3)).
  by rewrite IH.
Qed.

Lemma Math_round_bounds (x : num) :
  (x - (1 # 2) < inject_Z (Math_round x) <= x + (1 # 2))%Q.
Proof.
  unfold Math_round. pose proof (Qfloor_bounds (x + (1 # 2))) as [H1 H2].
  split; lra.
Qed.

(** X19.  A distance below 1000 prints as whole metres, half a metre off
    at most (so 999.5 prints as 1000 metres).  From 1000 on it prints as
    kilometres with one decimal: the multiple of 1/10 nearest to the
    quotient as binary64 holds it, which is off from the exact quotient
    by one part in 2^53 at most; so the text is 50 metres off and that
    small part of the distance more at most.  (The rounded quotient can
    fall on the other side of a tie: 1150 prints as 1.1 km.) *)
Theorem fmtDist_rounding (m : num) :
  ((m < 1000)%Q ->
     fmtDist m = string_of_Z (Math_round m) +:+ " м"
     /\ (m - (1 # 2) < inject_Z (Math_round m) <= m + (1 # 2))%Q
     /\ Math_round m <= 1000)
  /\ ((1000 <= m)%Q -> (m < inject_Z (10 ^ 24))%Q ->
     exists n,
       fmtDist m = string_of_Z (n / 10) +:+ "." +:+ string_of_Z (n mod 10) +:+ " км"
       /\ 0 <= n mod 10 <= 9
       /\ 1 <= n / 10
       /\ (10 * fl (m / 1000) - (1 # 2) < inject_Z n
           <= 10 * fl (m / 1000) + (1 # 2))%Q
       /\ (Qabs (1000 * fl (m / 1000) - m) <= m / 2 ^ 53)%Q
       /\ (m - 50 - m / 2 ^ 53 < 100 * inject_Z n <= m + 50 + m / 2 ^ 53)%Q).
Proof.
  unfold num in m. split; [intros Hm|intros Hm _]; unfold fmtDist.
  - destruct (Qlt_le_dec m 1000) as [_|?]; [|lra].
    split; [done|]. pose proof (Math_round_bounds m) as [H1 H2].
    split; [done|].
    apply Z.lt_succ_r. rewrite Zlt_Qlt.
    change (inject_Z (Z.succ 1000)) with 1001%Q. lra.
  - destruct (Qlt_le_dec m 1000) as [?|_]; [lra|].
    unfold toFixed1.
    assert (Ex : (m == 1000 * (m / 1000))%Q) by (field; discriminate).
    set (x := (m / 1000)%Q) in *.
    assert (Hx : (1 <= x)%Q) by lra.
    assert (Hnormal : (2 ^ (-1022) <= Qabs x)%Q).
    { rewrite Qabs_pos by lra. apply Qle_trans with (2 := Hx).
      change 1%Q with (2 ^ 0)%Q. apply Qpower_le_compat_l; [lia|lra]. }
    pose proof (fl_relative x Hnormal) as Hrel.
    rewrite (Qabs_pos x) in Hrel by lra.
    change (x / 2 ^ 53)%Q with (x * (1 # 9007199254740992))%Q in Hrel.
    change (m / 2 ^ 53)%Q with (m * (1 # 9007199254740992))%Q.
    apply Qabs_Qle_condition in Hrel as [Hr1 Hr2].
    set (q := fl x) in *.
    destruct (Qlt_le_dec q 0) as [?|_]; [lra|].
    assert (Hfloor : Qfloor (Qabs q * 10 + (1 # 2)) = Qfloor (q * 10 + (1 # 2))).
    { apply Qfloor_comp. rewrite Qabs_pos; [reflexivity|lra]. }
    rewrite Hfloor.
    set (n := Qfloor (q * 10 + (1 # 2))).
    exists n. split; [cbn [String.append]; by rewrite !append_assoc3|].
    pose proof (Qfloor_bounds (q * 10 + (1 # 2))) as [H1 H2]. fold n in H1, H2.
    assert (Hn : 10 <= n).
    { apply Z.lt_succ_r. rewrite Zlt_Qlt. unfold Z.succ.
      rewrite inject_Z_plus. change (inject_Z 10) with 10%Q.
      change (inject_Z 1) with 1%Q. lra. }
    split; [pose proof (Z.mod_pos_bound n 10 ltac:(lia)); lia|].
    split; [apply Z.div_le_lower_bound; lia|].
    split; [lra|]. split; [apply Qabs_Qle_condition; lra|]. lra.
Qed.

Lemma fmtDist_rounding_witness :
  (1000 <= 1150)%Q /\ (1150 < inject_Z (10 ^ 24))%Q
  /\ exists n,
       fmtDist 1150
       = string_of_Z (n / 10) +:+ "." +:+ string_of_Z (n mod 10) +:+ " км"
       /\ 1 <= n / 10.
Proof.
  assert (H1 : (1000 <= 1150)%Q) by (by vm_compute).
  assert (H2 : (1150 < inject_Z (10 ^ 24))%Q) by (by vm_compute).
  split; [exact H1|]. split; [exact H2|].
  destruct (proj2 (fmtDist_rounding 1150) H1 H2) as (n & Hn & _ & Hd & _).
  exists n. split; assumption.
Defined.

(** The distances at work: metres up to the half, a tie of the decimal
    that goes up, and two quotients that binary64 holds a little below
    the tie, so that they go down. *)
Example fmtDist_examples :
  fmtDist 640 = "640 м"
  /\ fmtDist (9995 # 10) = "1000 м"
  /\ fmtDist 1250 = "1.3 км"
  /\ fmtDist 1150 = "1.1 км"
  /\ fmtDist 1450 = "1.4 км"
  /\ fmtDist 12345 = "12.3 км".
Proof. repeat split; vm_compute; reflexivity. Qed.

(** ** The twelve via points *)

Lemma Qabs_spec (u : Q) :
  (0 <= u /\ Qabs u == u \/ u <= 0 /\ Qabs u == - u)%Q.
Proof.
  destruct (Qlt_le_dec u 0) as [H|H].
  - right. split; [lra|]. apply Qabs_neg. lra.
  - left. split; [exact H|]. by apply Qabs_pos.
Qed.

(** Below 512 in magnitude, rounding moves a number by 2^-45 at most. *)
Lemma fl_near (t : Q) :
  (-512 < t < 512)%Q ->
  (- (1 # 35184372088832) <= fl t - t <= 1 # 35184372088832)%Q.
Proof.
  intros Ht. apply Qabs_Qle_condition.
  apply (fl_absolute t 8); [lia|].
  apply Qabs_Qlt_condition. exact Ht.
Qed.

(** One axis: for coordinates within 180 degrees, the middle and the four
    offsets from it are, in binary64, near what they are in exact
    arithmetic; the exact offset is between 0.003 and 0.03. *)
Lemma axis64_near (x y : Q) :
  (Qabs x <= 180)%Q -> (Qabs y <= 180)%Q ->
  (0.003 <= offsetMagnitude x y <= 0.03)%Q
  /\ near (mid64 x y) ((x + y) / 2)
  /\ near (fl (mid64 x y + offset64 x y)) ((x + y) / 2 + offsetMagnitude x y)
  /\ near (fl (mid64 x y - offset64 x y)) ((x + y) / 2 - offsetMagnitude x y)
  /\ near (fl (mid64 x y + fl (offset64 x y * fl 1.5)))
          ((x + y) / 2 + offsetMagnitude x y * 1.5)
  /\ near (fl (mid64 x y - fl (offset64 x y * fl 1.5)))
          ((x + y) / 2 - offsetMagnitude x y * 1.5).
Proof.
  intros Hx Hy. apply Qabs_Qle_condition in Hx, Hy.
  unfold near, mid64, offset64, offsetMagnitude, Qdiv.
  change (/ 2)%Q with (1 # 2)%Q.
  assert (E1 : fl 0.005 = ltac:(let v := eval vm_compute in (fl 0.005) in exact v))
    by (vm_compute; reflexivity).
  assert (E2 : fl 0.6 = ltac:(let v := eval vm_compute in (fl 0.6) in exact v))
    by (vm_compute; reflexivity).
  assert (E3 : fl 0.03 = ltac:(let v := eval vm_compute in (fl 0.03) in exact v))
    by (vm_compute; reflexivity).
  assert (E4 : fl 1.5 = ltac:(let v := eval vm_compute in (fl 1.5) in exact v))
    by (vm_compute; reflexivity).
  rewrite E1, E2, E3, E4. clear E1 E2 E3 E4.
  pose proof (fl_near (x + y) ltac:(lra)) as F1.
  set (s1 := fl (x + y)) in *. clearbody s1.
  pose proof (fl_near (s1 * (1 # 2)) ltac:(lra)) as F2.
  set (mid := fl (s1 * (1 # 2))) in *. clearbody mid.
  pose proof (fl_near (x - y) ltac:(lra)) as F3.
  set (s3 := fl (x - y)) in *. clearbody s3.
  destruct (Qabs_spec s3) as [[A1 A2]|[A1 A2]];
    set (a3 := Qabs s3) in *; clearbody a3;
    (destruct (Qabs_spec (x - y)) as [[B1 B2]|[B1 B2]];
     set (a0 := Qabs (x - y)) in *; clearbody a0; [try lra|try lra]).
  all: destruct (Q.max_spec 0.005 a0) as [[D1 D2]|[D1 D2]];
       set (span0 := Qmax 0.005 a0) in *; clearbody span0.
  all: destruct (Q.min_spec 0.03 (span0 * 0.6)) as [[K1 K2]|[K1 K2]];
       set (d0 := Qmin 0.03 (span0 * 0.6)) in *; clearbody d0.
  all: match goal with
       | |- context [Qmax ?c ?a] =>
           destruct (Q.max_spec c a) as [[M1 M2]|[M1 M2]];
           set (span := Qmax c a) in *; clearbody span
       end.
  all: match goal with
       | |- context [Qmin ?c (fl (?sp * ?k))] =>
           pose proof (fl_near (sp * k) ltac:(lra)) as F4;
           set (p := fl (sp * k)) in *; clearbody p;
           destruct (Q.min_spec c p) as [[G1 G2]|[G1 G2]];
           set (d := Qmin c p) in *; clearbody d
       end.
  all: pose proof (fl_near (mid + d) ltac:(lra)) as F5;
       pose proof (fl_near (mid - d) ltac:(lra)) as F6.
  all: match goal with
       | |- context [fl (?u * ?c)] =>
           pose proof (fl_near (u * c) ltac:(lra)) as F7;
           set (s6 := fl (u * c)) in *; clearbody s6
       end.
  all: pose proof (fl_near (mid + s6) ltac:(lra)) as F8;
       pose proof (fl_near (mid - s6) ltac:(lra)) as F9.
  all: split; [lra|];
       repeat (split; [apply Qabs_Qle_condition; lra|]);
       apply Qabs_Qle_condition; lra.
Qed.

#[local] Opaque fl.

(** X20.  With the arithmetic of the code, binary64, and end points on
    the globe: there are twelve via points, each no more than 10^-12
    from the point that exact arithmetic gives, and they are pairwise
    different.  (Far off the globe binary64 has no room for the offsets
    and via points coincide.) *)
Theorem via_candidates_apart (a b : Coord) :
  onGlobe a -> onGlobe b ->
  length (makeViaCandidates64 a b) = 12%nat
  /\ Forall2 nearCoord (makeViaCandidates64 a b) (makeViaCandidates a b)
  /\ ForallOrdPairs (fun v w => ~ sameCoord v w) (makeViaCandidates64 a b).
Proof.
  intros [Ha1 Ha2] [Hb1 Hb2]. split; [reflexivity|].
  assert (Hlat : (Qabs (lat a) <= 180 /\ Qabs (lat b) <= 180)%Q) by (split; lra).
  destruct Hlat as [Ha1' Hb1'].
  destruct (axis64_near (lat a) (lat b) Ha1' Hb1')
    as (Ld & L0 & L1 & L2 & L3 & L4).
  destruct (axis64_near (lon a) (lon b) Ha2 Hb2)
    as (Nd & N0 & N1 & N2 & N3 & N4).
  change (makeViaCandidates64 a b)
    with [ mkCoord (fl (mid64 (lat a) (lat b) + offset64 (lat a) (lat b)))
                   (mid64 (lon a) (lon b));
           mkCoord (fl (mid64 (lat a) (lat b) - offset64 (lat a) (lat b)))
                   (mid64 (lon a) (lon b));
           mkCoord (mid64 (lat a) (lat b))
                   (fl (mid64 (lon a) (lon b) + offset64 (lon a) (lon b)));
           mkCoord (mid64 (lat a) (lat b))
                   (fl (mid64 (lon a) (lon b) - offset64 (lon a) (lon b)));
           mkCoord (fl (mid64 (lat a) (lat b) + offset64 (lat a) (lat b)))
                   (fl (mid64 (lon a) (lon b) + offset64 (lon a) (lon b)));
           mkCoord (fl (mid64 (lat a) (lat b) - offset64 (lat a) (lat b)))
                   (fl (mid64 (lon a) (lon b) + offset64 (lon a) (lon b)));
           mkCoord (fl (mid64 (lat a) (lat b) + offset64 (lat a) (lat b)))
                   (fl (mid64 (lon a) (lon b) - offset64 (lon a) (lon b)));
           mkCoord (fl (mid64 (lat a) (lat b) - offset64 (lat a) (lat b)))
                   (fl (mid64 (lon a) (lon b) - offset64 (lon a) (lon b)));
           mkCoord (fl (mid64 (lat a) (lat b)
                        + fl (offset64 (lat a) (lat b) * fl 1.5)))
                   (mid64 (lon a) (lon b));
           mkCoord (mid64 (lat a) (lat b))
                   (fl (mid64 (lon a) (lon b)
                        + fl (offset64 (lon a) (lon b) * fl 1.5)));
           mkCoord (fl (mid64 (lat a) (lat b)
                        - fl (offset64 (lat a) (lat b) * fl 1.5)))
                   (mid64 (lon a) (lon b));
           mkCoord (mid64 (lat a) (lat b))
                   (fl (mid64 (lon a) (lon b)
                        - fl (offset64 (lon a) (lon b) * fl 1.5))) ].
  change (makeViaCandidates a b)
    with [ mkCoord ((lat a + lat b) / 2 + offsetMagnitude (lat a) (lat b))
                   ((lon a + lon b) / 2);
           mkCoord ((lat a + lat b) / 2 - offsetMagnitude (lat a) (lat b))
                   ((lon a + lon b) / 2);
           mkCoord ((lat a + lat b) / 2)
                   ((lon a + lon b) / 2 + offsetMagnitude (lon a) (lon b));
           mkCoord ((lat a + lat b) / 2)
                   ((lon a + lon b) / 2 - offsetMagnitude (lon a) (lon b));
           mkCoord ((lat a + lat b) / 2 + offsetMagnitude (lat a) (lat b))
                   ((lon a + lon b) / 2 + offsetMagnitude (lon a) (lon b));
           mkCoord ((lat a + lat b) / 2 - offsetMagnitude (lat a) (lat b))
                   ((lon a + lon b) / 2 + offsetMagnitude (lon a) (lon b));
           mkCoord ((lat a + lat b) / 2 + offsetMagnitude (lat a) (lat b))
                   ((lon a + lon b) / 2 - offsetMagnitude (lon a) (lon b));
           mkCoord ((lat a + lat b) / 2 - offsetMagnitude (lat a) (lat b))
                   ((lon a + lon b) / 2 - offsetMagnitude (lon a) (lon b));
           mkCoord ((lat a + lat b) / 2 + offsetMagnitude (lat a) (lat b) * 1.5)
                   ((lon a + lon b) / 2);
           mkCoord ((lat a + lat b) / 2)
                   ((lon a + lon b) / 2 + offsetMagnitude (lon a) (lon b) * 1.5);
           mkCoord ((lat a + lat b) / 2 - offsetMagnitude (lat a) (lat b) * 1.5)
                   ((lon a + lon b) / 2);
           mkCoord ((lat a + lat b) / 2)
                   ((lon a + lon b) / 2 - offsetMagnitude (lon a) (lon b) * 1.5) ]%Q.
  split.
  - constructor; [exact (conj L1 N0)|].
    constructor; [exact (conj L2 N0)|].
    constructor; [exact (conj L0 N1)|].
    constructor; [exact (conj L0 N2)|].
    constructor; [exact (conj L1 N1)|].
    constructor; [exact (conj L2 N1)|].
    constructor; [exact (conj L1 N2)|].
    constructor; [exact (conj L2 N2)|].
    constructor; [exact (conj L3 N0)|].
    constructor; [exact (conj L0 N3)|].
    constructor; [exact (conj L4 N0)|].
    constructor; [exact (conj L0 N4)|].
    constructor.
  - unfold near in *.
    apply Qabs_Qle_condition in L0, L1, L2, L3, L4, N0, N1, N2, N3, N4.
    unfold sameCoord.
    set (u4 := fl (mid64 (lat a) (lat b) + fl (offset64 (lat a) (lat b) * fl 1.5))) in *.
    set (u3 := fl (mid64 (lat a) (lat b) - fl (offset64 (lat a) (lat b) * fl 1.5))) in *.
    set (u2 := fl (mid64 (lat a) (lat b) + offset64 (lat a) (lat b))) in *.
    set (u1 := fl (mid64 (lat a) (lat b) - offset64 (lat a) (lat b))) in *.
    set (u0 := mid64 (lat a) (lat b)) in *.
    set (ud := offsetMagnitude (lat a) (lat b)) in *.
    set (um := ((lat a + lat b) / 2)%Q) in *.
    set (w4 := fl (mid64 (lon a) (lon b) + fl (offset64 (lon a) (lon b) * fl 1.5))) in *.
    set (w3 := fl (mid64 (lon a) (lon b) - fl (offset64 (lon a) (lon b) * fl 1.5))) in *.
    set (w2 := fl (mid64 (lon a) (lon b) + offset64 (lon a) (lon b))) in *.
    set (w1 := fl (mid64 (lon a) (lon b) - offset64 (lon a) (lon b))) in *.
    set (w0 := mid64 (lon a) (lon b)) in *.
    set (wd := offsetMagnitude (lon a) (lon b)) in *.
    set (wm := ((lon a + lon b) / 2)%Q) in *.
    clearbody u4 u3 u2 u1 u0 ud um w4 w3 w2 w1 w0 wd wm.
    assert (Ou : (u3 < u1 /\ u1 < u0 /\ u0 < u2 /\ u2 < u4)%Q) by lra.
    assert (Ow : (w3 < w1 /\ w1 < w0 /\ w0 < w2 /\ w2 < w4)%Q) by lra.
    clear Ld L0 L1 L2 L3 L4 Nd N0 N1 N2 N3 N4.
    destruct Ou as (? & ? & ? & ?), Ow as (? & ? & ? & ?).
    repeat (constructor;
            [repeat (constructor; [cbn [lat lon]; intros [? ?]; lra|]); constructor|]).
    constructor.
Qed.

#[local] Transparent fl.

Lemma via_candidates_apart_witness :
  onGlobe originA /\ onGlobe northB
  /\ ForallOrdPairs (fun v w => ~ sameCoord v w)
       (makeViaCandidates64 originA northB).
Proof.
  assert (Ha : onGlobe originA) by (split; by vm_compute).
  assert (Hb : onGlobe northB) by (split; by vm_compute).
  split; [exact Ha|]. split; [exact Hb|].
  exact (proj2 (proj2 (via_candidates_apart originA northB Ha Hb))).
Defined.

(** Where the end points must be on the globe for: at 10^17 degrees the
    numbers binary64 holds are 16 apart, the offsets are lost in the
    sums, and the first two via points are one point. *)
Example offsets_absorbed :
  exists v w,
    makeViaCandidates64 farOff farOff !! 0%nat = Some v
    /\ makeViaCandidates64 farOff farOff !! 1%nat = Some w
    /\ sameCoord v w.
Proof. eexists _, _. split; [reflexivity|]. split; [reflexivity|]. by vm_compute. Qed.

(** ** When the suppression holds *)

Lemma string_of_uint_digits (d : Decimal.uint) :
  madeOf decimalChars (NilEmpty.string_of_uint d).
Proof.
  unfold madeOf.
  induction d; simpl; constructor; try done; compute_done.
Qed.

Lemma string_of_Z_digits (z : Z) : madeOf decimalChars (string_of_Z z).
Proof.
  unfold string_of_Z, NilZero.string_of_int, NilZero.string_of_uint.
  destruct (Z.to_int z) as [d|d].
  - destruct d; try apply string_of_uint_digits.
    unfold madeOf. simpl. constructor; [compute_done|constructor].
  - unfold madeOf. simpl. constructor; [compute_done|].
    destruct d; try apply string_of_uint_digits.
    simpl. constructor; [compute_done|constructor].
Qed.

Lemma string_of_Z_inj (z1 z2 : Z) : string_of_Z z1 = string_of_Z z2 -> z1 = z2.
Proof.
  unfold string_of_Z. intros H.
  assert (Hnn : forall z, Z.to_int z <> Decimal.Pos Decimal.Nil
                          /\ Z.to_int z <> Decimal.Neg Decimal.Nil).
  { intros [|p|p]; simpl; split; try discriminate;
      intros [= Hp]; by apply (DecimalPos.Unsigned.to_uint_nonnil p). }
  apply DecimalZ.to_int_inj.
  assert (Hs : Some (Z.to_int z1) = Some (Z.to_int z2)).
  { rewrite <- (NilZero.isi (Z.to_int z1)) by apply Hnn.
    rewrite <- (NilZero.isi (Z.to_int z2)) by apply Hnn. by rewrite H. }
  by injection Hs.
Qed.

Lemma without_of_digits (c : Ascii.ascii) (s : string) :
  c ∉ decimalChars -> madeOf decimalChars s -> without c s.
Proof.
  intros Hc Hs Hin. unfold madeOf in Hs. rewrite Forall_forall in Hs.
  by apply Hc, Hs.
Qed.

Lemma list_ascii_app (s1 s2 : string) :
  String.list_ascii_of_string (s1 +:+ s2)
  = String.list_ascii_of_string s1 ++ String.list_ascii_of_string s2.
Proof.
  induction s1 as [|c s1 IH]; [done|].
  change (c :: String.list_ascii_of_string (s1 +:+ s2)
          = c :: (String.list_ascii_of_string s1 ++ String.list_ascii_of_string s2)).
  by rewrite IH.
Qed.

(** Two texts free of [c], each followed by nothing or by [c] and more:
    equal wholes have equal parts. *)
Lemma split_at_separator (c : Ascii.ascii) (a1 a2 t1 t2 : string) :
  without c a1 -> without c a2 ->
  (t1 = "" \/ exists u, t1 = String c u) ->
  (t2 = "" \/ exists u, t2 = String c u) ->
  a1 +:+ t1 = a2 +:+ t2 -> a1 = a2 /\ t1 = t2.
Proof.
  unfold without. revert a2. induction a1 as [|x a1 IH]; intros a2 H1 H2 Ht1 Ht2 Heq.
  - destruct a2 as [|y a2]; [by split|].
    change (t1 = String y (a2 +:+ t2)) in Heq.
    destruct Ht1 as [->|[u ->]]; [done|]. injection Heq as -> _.
    exfalso. apply H2. simpl. by left.
  - destruct a2 as [|y a2].
    + change (String x (a1 +:+ t1) = t2) in Heq.
      destruct Ht2 as [->|[u ->]]; [done|]. injection Heq as -> _.
      exfalso. apply H1. simpl. by left.
    + change (String x (a1 +:+ t1) = String y (a2 +:+ t2)) in Heq.
      injection Heq as -> Heq.
      destruct (IH a2) as [-> ->]; try done.
      * intros Hin. apply H1. simpl. by right.
      * intros Hin. apply H2. simpl. by right.
Qed.

Lemma split_at_colon (a1 a2 t1 t2 : string) :
  without colon a1 -> without colon a2 ->
  a1 +:+ ":" +:+ t1 = a2 +:+ ":" +:+ t2 -> a1 = a2 /\ t1 = t2.
Proof.
  intros H1 H2 H.
  destruct (split_at_separator colon a1 a2 (String colon t1) (String colon t2))
    as [Ha Ht]; try done; try (right; by eexists).
  split; [done|]. by injection Ht.
Qed.

Lemma routeKeyText_inj (r1 r2 : RouteView) :
  routeKeyText r1 = routeKeyText r2 -> sameSummaryKey r1 r2.
Proof.
  unfold routeKeyText, sameSummaryKey, string_of_nat. intros H.
  assert (Hcolon : forall z, without colon (string_of_Z z)).
  { intros z. apply without_of_digits; [compute_done|].
    apply string_of_Z_digits. }
  apply split_at_colon in H as [Hi H]; [|apply Hcolon..].
  apply split_at_colon in H as [Hd H]; [|apply Hcolon..].
  apply split_at_colon in H as [Ht H]; [|apply Hcolon..].
  apply string_of_Z_inj in Hi, Hd, Ht, H. repeat split; try done.
  by apply Nat2Z.inj.
Qed.

Lemma routeKeyText_shape (r : RouteView) :
  without bar (routeKeyText r) /\ routeKeyText r <> "".
Proof.
  split.
  - unfold without, routeKeyText, string_of_nat. rewrite !list_ascii_app.
    assert (Hpipe : forall z, bar ∉ String.list_ascii_of_string (string_of_Z z)).
    { intros z. apply without_of_digits; [compute_done|].
      apply string_of_Z_digits. }
    rewrite !elem_of_app. intros [?|[?|[?|[?|[?|[?|?]]]]]];
      try (by eapply Hpipe); simpl in *;
      repeat match goal with
             | H : _ ∈ _ :: _ |- _ => apply elem_of_cons in H as [H|H]
             | H : _ ∈ [] |- _ => by apply elem_of_nil in H
             | H : bar = _ |- _ => by vm_compute in H
             end.
  - unfold routeKeyText. apply append_nonempty. discriminate.
Qed.

Lemma concat_cons (k : string) (ks : list string) :
  String.concat "|" (k :: ks)
  = k +:+ match ks with
          | [] => ""
          | _ => String bar (String.concat "|" ks)
          end.
Proof.
  destruct ks; simpl; [|done].
  induction k as [|c k IH]; [done|].
  change (String c k = String c (k +:+ "")). by rewrite <- IH.
Qed.

Lemma routesSignature_exact (rs1 rs2 : list RouteView) :
  routesSignature rs1 = routesSignature rs2 <-> Forall2 sameSummaryKey rs1 rs2.
Proof.
  split; [|apply routesSignature_sameKey].
  unfold routesSignature. fold routeKeyText.
  change (fun r : RouteView => routeKeyText r) with routeKeyText.
  revert rs2. induction rs1 as [|r1 rs1 IH]; intros rs2 H.
  - destruct rs2 as [|r2 rs2]; [constructor|].
    rewrite fmap_cons, concat_cons in H. simpl in H.
    destruct (routeKeyText_shape r2) as [_ Hne].
    destruct (routeKeyText r2); [done|discriminate].
  - destruct rs2 as [|r2 rs2].
    + rewrite fmap_cons, concat_cons in H. simpl in H.
      destruct (routeKeyText_shape r1) as [_ Hne].
      destruct (routeKeyText r1); [done|discriminate].
    + rewrite !fmap_cons, !concat_cons in H.
      apply (split_at_separator bar) in H as [Hk Hrest];
        try apply routeKeyText_shape.
      * constructor; [by apply routeKeyText_inj|]. apply IH.
        destruct rs1 as [|r1' rs1], rs2 as [|r2' rs2]; try done.
        by injection Hrest.
      * destruct (routeKeyText <$> rs1); [by left|right; by eexists].
      * destruct (routeKeyText <$> rs2); [by left|right; by eexists].
Qed.

(** X21.  The suppression is exact.  Two route sets have the same
    signature exactly when they agree, route by route, in index, rounded
    distance, rounded duration and number of turns; so after a run of the
    effect, a run on a set that is not empty is skipped in that case and
    in no other: a set that differs in one of these schedules a call. *)
Theorem suppression_is_exact (r1 r2 : Render) (s : AI) :
  autoAiEnabled r1 = true ->
  autoAiEnabled r2 = true ->
  r_routes r1 <> [] ->
  r_routes r2 <> [] ->
  (routesSignature (r_routes r1) = routesSignature (r_routes r2)
   <-> Forall2 sameSummaryKey (r_routes r1) (r_routes r2))
  /\ (autoAiEffect r2 (autoAiEffect r1 s) = autoAiEffect r1 s
      <-> Forall2 sameSummaryKey (r_routes r1) (r_routes r2))
  /\ (~ Forall2 sameSummaryKey (r_routes r1) (r_routes r2) ->
      timers (autoAiEffect r2 (autoAiEffect r1 s))
      = timers (autoAiEffect r1 s) ++ [r2]).
Proof.
  intros Hen1 Hen2 Hne1 Hne2.
  pose proof (routesSignature_exact (r_routes r1) (r_routes r2)) as Hexact.
  pose proof (autoAiEffect_records r1 s Hen1 Hne1) as Hrec.
  assert (Hrun : routesSignature (r_routes r1) <> routesSignature (r_routes r2) ->
            autoAiEffect r2 (autoAiEffect r1 s)
            = setTimers (timers (autoAiEffect r1 s) ++ [r2])
                (setLastAiSignature (routesSignature (r_routes r2))
                   (autoAiEffect r1 s))).
  { intros Hdiff. unfold autoAiEffect at 1. rewrite Hen2.
    destruct (r_routes r2) as [|v vs] eqn:E; [done|]. cbn [negb orb length Nat.eqb].
    rewrite Hrec.
    destruct (String.eqb_spec (routesSignature (v :: vs))
                (routesSignature (r_routes r1))); [congruence|done]. }
  split; [exact Hexact|]. split.
  - split.
    + intros Hskip. apply Hexact.
      destruct (decide (routesSignature (r_routes r1)
                        = routesSignature (r_routes r2))) as [|Hdiff]; [done|].
      rewrite (Hrun Hdiff) in Hskip.
      apply (f_equal (fun a => length (timers a))) in Hskip.
      cbn in Hskip. rewrite length_app in Hskip. simpl in Hskip. lia.
    + intros Hsame. apply autoAiEffect_skip. rewrite Hrec. by apply Hexact.
  - intros Hdiff. rewrite Hrun; [done|]. intros Heq. by apply Hdiff, Hexact.
Qed.

Lemma suppression_is_exact_witness :
  autoAiEffect threeRoutes (autoAiEffect threeRoutes initialAI)
  = autoAiEffect threeRoutes initialAI.
Proof.
  apply (proj1 (proj2 (suppression_is_exact threeRoutes threeRoutes initialAI
                         eq_refl eq_refl ltac:(done) ltac:(done)))).
  repeat constructor.
Defined.

(** ** When two routes count as one *)

Lemma madeOf_app (allowed : list Ascii.ascii) (s1 s2 : string) :
  madeOf allowed s1 -> madeOf allowed s2 -> madeOf allowed (s1 +:+ s2).
Proof.
  unfold madeOf. intros H1 H2. rewrite list_ascii_app. by apply Forall_app.
Qed.

Lemma madeOf_more (l1 l2 : list Ascii.ascii) (s : string) :
  l1 ⊆ l2 -> madeOf l1 s -> madeOf l2 s.
Proof.
  unfold madeOf. intros Hsub Hs. eapply Forall_impl; [exact Hs|].
  intros c Hc. by apply Hsub.
Qed.

Lemma decimal_in_fixed : decimalChars ⊆ fixedChars.
Proof.
  intros c Hc. vm_compute in Hc.
  repeat (apply elem_of_cons in Hc as [->|Hc]; [compute_done|]).
  by apply elem_of_nil in Hc.
Qed.

Lemma fixedOrUndefined_chars (p : option num) : madeOf fixedChars (fixedOrUndefined p).
Proof.
  destruct p as [x|]; simpl.
  - unfold toFixed3.
    assert (Hz : forall z, madeOf fixedChars (string_of_Z z)).
    { intros z. eapply madeOf_more; [apply decimal_in_fixed|].
      apply string_of_Z_digits. }
    repeat apply madeOf_app; try apply Hz.
    + destruct (Qlt_le_dec x 0); unfold madeOf; simpl;
        [constructor; [compute_done|constructor]|constructor].
    + unfold madeOf. simpl. constructor; [compute_done|constructor].
    + unfold pad3. destruct (String.length _) as [|[|[|n]]]; try apply Hz;
        apply madeOf_app; try apply Hz; unfold madeOf; simpl;
        repeat (constructor; [compute_done|]); constructor.
  - unfold madeOf. simpl. repeat (constructor; [compute_done|]). constructor.
Qed.

Lemma without_of_fixed (c : Ascii.ascii) (s : string) :
  c ∉ fixedChars -> madeOf fixedChars s -> without c s.
Proof.
  intros Hc Hs Hin. unfold madeOf in Hs. rewrite Forall_forall in Hs.
  by apply Hc, Hs.
Qed.

Lemma split_at_bar (a1 a2 t1 t2 : string) :
  without bar a1 -> without bar a2 ->
  a1 +:+ "|" +:+ t1 = a2 +:+ "|" +:+ t2 -> a1 = a2 /\ t1 = t2.
Proof.
  intros H1 H2 H.
  destruct (split_at_separator bar a1 a2 (String bar t1) (String bar t2))
    as [Ha Ht]; try done; try (right; by eexists).
  split; [done|]. by injection Ht.
Qed.

Lemma split_at_comma (a1 a2 t1 t2 : string) :
  without comma a1 -> without comma a2 ->
  a1 +:+ "," +:+ t1 = a2 +:+ "," +:+ t2 -> a1 = a2 /\ t1 = t2.
Proof.
  intros H1 H2 H.
  destruct (split_at_separator comma a1 a2 (String comma t1) (String comma t2))
    as [Ha Ht]; try done; try (right; by eexists).
  split; [done|]. by injection Ht.
Qed.

(** X22.  Two routes have the same signature exactly when they agree in
    rounded distance, rounded duration, first and last point as printed
    with three decimals, and number of vertices: what lies between the
    end points plays no part, and no other two routes are taken for one. *)
Theorem sigForRoute_exact (r1 r2 : OSRMRoute) :
  sigForRoute r1 = sigForRoute r2 <-> sameSigKey r1 r2.
Proof.
  unfold sigForRoute, sameSigKey, string_of_nat. split.
  - intros H.
    assert (Hzb : forall z, without bar (string_of_Z z)).
    { intros z. apply without_of_digits; [compute_done|]. apply string_of_Z_digits. }
    assert (Hfb : forall p, without bar (fixedOrUndefined p)).
    { intros p. apply without_of_fixed; [compute_done|].
      apply fixedOrUndefined_chars. }
    assert (Hfc : forall p, without comma (fixedOrUndefined p)).
    { intros p. apply without_of_fixed; [compute_done|].
      apply fixedOrUndefined_chars. }
    apply split_at_bar in H as [Hd H]; [|apply Hzb..].
    apply split_at_bar in H as [Ht H]; [|apply Hzb..].
    apply split_at_comma in H as [Hf0 H]; [|apply Hfc..].
    apply split_at_bar in H as [Hf1 H]; [|apply Hfb..].
    apply split_at_comma in H as [Hl0 H]; [|apply Hfc..].
    apply split_at_bar in H as [Hl1 H]; [|apply Hfb..].
    apply string_of_Z_inj in Hd, Ht, H. apply Nat2Z.inj in H.
    by repeat split.
  - intros (Hd & Ht & Hf0 & Hf1 & Hl0 & Hl1 & Hn).
    by rewrite Hd, Ht, Hf0, Hf1, Hl0, Hl1, Hn.
Qed.
